(** * The vertex codec of tools/codectest.cpp

    A shallow embedding of the experimental vertex encoders of
    tools/codectest.cpp (encodeV1 and its helpers, and encodeNDZ), with the
    properties of the written stream.

    Conventions of the embedding.
    - An [unsigned char] is a [Z] in [0, 256); every conversion to
      [unsigned char] is written out as [to_uchar] (reduction modulo 256).
    - A [size_t] count, index or offset is a [nat].  The record array and the
      destination buffer are objects in memory, so their sizes are far below
      2^64 and no [size_t] sum wraps; the one place where the code relies on
      an unsigned conversion, [size_t(data_end - data)], is modelled with its
      wrap-around ([remaining]).
    - The destination buffer is the [mem] field of a [store].  A pointer into
      it is its offset from [buffer]; the null pointer is [None].  A write
      outside of the buffer does not change [mem]: it is recorded in [oob].
    - The code is compiled with TRACE = 0; the statistics are not modelled. *)

From Stdlib Require Import ZArith Lia List Bool.
From stdpp Require Import base list.

Local Open Scope nat_scope.

(** ** Constants *)

Definition kVertexHeader : Z := 0xa0.
Definition gEncodeVertexVersion : Z := 1.

Definition kVertexBlockSizeBytes : nat := Z.to_nat 8192.
Definition kVertexBlockMaxSize : nat := 256.
Definition kByteGroupSize : nat := 16.
Definition kByteGroupDecodeLimit : nat := 24.
Definition kTailMaxSize : nat := 32.

(** ** Bytes *)

Definition is_byte (v : Z) : Prop := (0 <= v < 256)%Z.

(** Conversion of an [int] to [unsigned char]. *)
Definition to_uchar (v : Z) : Z := (v mod 256)%Z.

(** Conversion of an [unsigned char] to [signed char]. *)
Definition to_schar (v : Z) : Z :=
  if (to_uchar v <? 128)%Z then to_uchar v else (to_uchar v - 256)%Z.

(** [inline unsigned char zigzag8(unsigned char v)]: both operands of [^] are
    promoted to [int]; [>>] on the negative operand is the arithmetic shift. *)
Definition zigzag8 (v : Z) : Z :=
  to_uchar (Z.lxor (Z.shiftr (to_schar v) 7) (Z.shiftl v 1)).

(** Modelled from the spec: the inverse of the zigzag transform belongs to the
    decoder, which is not part of tools/codectest.cpp; section 8 gives it as
    [(v >> 1) XOR -(v & 1)], here on an [unsigned char]. *)
Definition unzigzag8 (v : Z) : Z :=
  to_uchar (Z.lxor (Z.shiftr v 1) (- Z.land v 1)).

(** ** The destination buffer *)

Record store := Store { mem : list Z; oob : list nat }.

(** [*p = v] for [p = buffer + a]. *)
Definition poke (a : nat) (v : Z) (s : store) : store :=
  if a <? length (mem s)
  then Store (<[a := v]> (mem s)) (oob s)
  else Store (mem s) (a :: oob s).

(** [*p] for [p = buffer + a]. *)
Definition peek (a : nat) (s : store) : Z := nth a (mem s) 0%Z.

(** [memcpy(buffer + a, src, length src)], byte after byte. *)
Fixpoint memcpy (a : nat) (src : list Z) (s : store) : store :=
  match src with
  | [] => s
  | v :: src' => memcpy (S a) src' (poke a v s)
  end.

(** [memset(buffer + a, v, n)]. *)
Definition memset (a : nat) (v : Z) (n : nat) (s : store) : store :=
  memcpy a (replicate n v) s.

(** [size_t(data_end - data)]: the pointer difference, converted to the
    64-bit unsigned [size_t]. *)
Definition remaining (data_end data : nat) : nat :=
  Z.to_nat ((Z.of_nat data_end - Z.of_nat data) mod 2 ^ 64)%Z.

(** ** getVertexBlockSize *)

(** [n & ~(kByteGroupSize - 1)] *)
Definition align_group (n : nat) : nat :=
  Z.to_nat (Z.land (Z.of_nat n) (Z.lnot (Z.of_nat kByteGroupSize - 1))).

Definition getVertexBlockSize (vertex_size : nat) : nat :=
  let result := kVertexBlockSizeBytes / vertex_size in
  let result := align_group result in
  if result <? kVertexBlockMaxSize then result else kVertexBlockMaxSize.

(** ** The byte group packer *)

(** [buffer[i]] of a source array. *)
Definition rd (buffer : list Z) (i : nat) : Z := nth i buffer 0%Z.

Definition encodeBytesGroupZero (buffer : list Z) : bool :=
  forallb (fun i => (rd buffer i =? 0)%Z) (seq 0 kByteGroupSize).

(** The values of [i] in the iterations of a loop
    [for (i = 0; i < n; i += step)], for a positive [step]. *)
Definition strided (n step : nat) : list nat :=
  (fun j => j * step) <$> seq 0 ((n + step - 1) / step).

(** The inner loop of the fixed portion: one output byte from the [byte_size]
    values at [i]. *)
Definition pack_byte (buffer : list Z) (bits byte_size : nat) (sentinel : Z) (i : nat) : Z :=
  fold_left
    (fun byte k =>
       let enc := if (sentinel <=? rd buffer (i + k))%Z then sentinel else rd buffer (i + k) in
       let byte := to_uchar (Z.shiftl byte (Z.of_nat bits)) in
       to_uchar (Z.lor byte enc))
    (seq 0 byte_size) 0%Z.

(** [encodeBytesGroupTry(data, buffer, bits)]: the returned pointer, and the
    store after the writes through [data]. *)
Definition encodeBytesGroupTry (data : nat) (buffer : list Z) (bits : nat) (s : store)
  : option nat * store :=
  if bits =? 1 then
    ((if encodeBytesGroupZero buffer then Some data else None), s)
  else if bits =? 8 then
    (Some (data + kByteGroupSize), memcpy data (rd buffer <$> seq 0 kByteGroupSize) s)
  else
    let byte_size := 8 / bits in
    let sentinel := to_uchar (Z.shiftl 1 (Z.of_nat bits) - 1) in
    let '(data, s) :=
      fold_left
        (fun '(data, s) i => (S data, poke data (pack_byte buffer bits byte_size sentinel i) s))
        (strided kByteGroupSize byte_size) (data, s) in
    let '(data, s) :=
      fold_left
        (fun '(data, s) i =>
           if (sentinel <=? rd buffer i)%Z then (S data, poke data (rd buffer i) s) else (data, s))
        (seq 0 kByteGroupSize) (data, s) in
    (Some data, s).

(** ** encodeBytes *)

Definition bitslog2_of (best_bits : nat) : Z :=
  if best_bits =? 1 then 0%Z else if best_bits =? 2 then 1%Z else if best_bits =? 4 then 2%Z else 3%Z.

(** The body of the loop over the groups, for the group at [buffer + i] and
    the cursor [data]: the new cursor, or [None] for [return NULL]. *)
Definition encodeBytes_group (header data_end : nat) (buffer : list Z) (i data : nat) (s : store)
  : option nat * store :=
  if remaining data_end data <? kByteGroupDecodeLimit then (None, s)
  else
    match encodeBytesGroupTry data (drop i buffer) 8 s with
    | (None, s) => (None, s) (* width 8 returns a pointer *)
    | (Some next8, s) =>
        let '(best_bits, best_size, s) :=
          fold_left
            (fun '(best_bits, best_size, s) bits =>
               match encodeBytesGroupTry data (drop i buffer) bits s with
               | (Some next, s) =>
                   if next - data <? best_size then (bits, next - data, s)
                   else (best_bits, best_size, s)
               | (None, s) => (best_bits, best_size, s)
               end)
            [1; 2; 4] (8, next8 - data, s) in
        let bitslog2 := bitslog2_of best_bits in
        let header_offset := i / kByteGroupSize in
        let slot := header + header_offset / 4 in
        let s :=
          poke slot
            (to_uchar (Z.lor (peek slot s)
                             (Z.shiftl bitslog2 (Z.of_nat (header_offset mod 4 * 2))))) s in
        encodeBytesGroupTry data (drop i buffer) best_bits s
    end.

Fixpoint encodeBytes_loop (groups : list nat) (header data_end : nat) (buffer : list Z)
    (data : nat) (s : store) : option nat * store :=
  match groups with
  | [] => (Some data, s)
  | i :: groups' =>
      match encodeBytes_group header data_end buffer i data s with
      | (Some next, s) => encodeBytes_loop groups' header data_end buffer next s
      | (None, s) => (None, s)
      end
  end.

Definition encodeBytes (data data_end : nat) (buffer : list Z) (buffer_size : nat) (s : store)
  : option nat * store :=
  let header := data in
  let header_size := (buffer_size / kByteGroupSize + 3) / 4 in
  if remaining data_end data <? header_size then (None, s)
  else
    let data := data + header_size in
    let s := memset header 0 header_size s in
    encodeBytes_loop (strided buffer_size kByteGroupSize) header data_end buffer data s.

(** ** encodeVertexBlock *)

(** The loop over the records of the block for channel [k]: the scratch
    [buffer] with the first [vertex_count] entries overwritten.  (The scratch
    array has 256 entries and [vertex_count <= 256] is asserted.) *)
Definition fill_channel (vertex_data : list Z) (vertex_count vertex_size : nat)
    (last_vertex : list Z) (k : nat) (buffer : list Z) : list Z :=
  let '(buffer, _, _) :=
    fold_left
      (fun '(buffer, p, vertex_offset) i =>
         (<[i := zigzag8 (to_uchar (rd vertex_data vertex_offset - p))]> buffer,
          rd vertex_data vertex_offset,
          vertex_offset + vertex_size))
      (seq 0 vertex_count) (buffer, rd last_vertex k, k) in
  buffer.

Fixpoint encodeVertexBlock_channels (channels : list nat) (data_end : nat) (vertex_data : list Z)
    (vertex_count vertex_size : nat) (last_vertex buffer : list Z) (data : nat) (s : store)
  : option nat * store :=
  match channels with
  | [] => (Some data, s)
  | k :: channels' =>
      let buffer := fill_channel vertex_data vertex_count vertex_size last_vertex k buffer in
      match encodeBytes data data_end buffer (align_group (vertex_count + kByteGroupSize - 1)) s with
      | (Some data, s) =>
          encodeVertexBlock_channels channels' data_end vertex_data vertex_count vertex_size
            last_vertex buffer data s
      | (None, s) => (None, s)
      end
  end.

(** [memcpy(dst, src, n)] into a local array of at least [n] entries. *)
Definition array_copy (dst src : list Z) : list Z := src ++ drop (length src) dst.

(** The result is the returned pointer, the array [last_vertex] of the caller
    after the call, and the store. *)
Definition encodeVertexBlock (data data_end : nat) (vertex_data : list Z)
    (vertex_count vertex_size : nat) (last_vertex : list Z) (s : store)
  : option nat * list Z * store :=
  let buffer := replicate kVertexBlockMaxSize 0%Z in
  match encodeVertexBlock_channels (seq 0 vertex_size) data_end vertex_data vertex_count
          vertex_size last_vertex buffer data s with
  | (None, s) => (None, last_vertex, s)
  | (Some data, s) =>
      (Some data,
       array_copy last_vertex
         (rd vertex_data <$> seq (vertex_size * (vertex_count - 1)) vertex_size),
       s)
  end.

(** ** encodeV1 *)

(** The [while] loop over the blocks.  Every iteration with a positive block
    size moves [vertex_offset] forward, so [vertex_count] iterations are
    enough; [None] is a loop that is still running when the fuel is spent. *)
Fixpoint encodeV1_blocks (fuel : nat) (data_end : nat) (vertex_data : list Z)
    (vertex_count vertex_size vertex_block_size vertex_offset : nat)
    (last_vertex : list Z) (data : nat) (s : store)
  : option (option nat * list Z * store) :=
  if vertex_offset <? vertex_count then
    match fuel with
    | 0 => None
    | S fuel' =>
        let block_size :=
          if vertex_offset + vertex_block_size <? vertex_count
          then vertex_block_size else vertex_count - vertex_offset in
        match encodeVertexBlock data data_end (drop (vertex_offset * vertex_size) vertex_data)
                block_size vertex_size last_vertex s with
        | (Some data, last_vertex, s) =>
            encodeV1_blocks fuel' data_end vertex_data vertex_count vertex_size vertex_block_size
              (vertex_offset + block_size) last_vertex data s
        | (None, last_vertex, s) => Some (None, last_vertex, s)
        end
    end
  else Some (Some data, last_vertex, s).

(** [encodeV1(buffer, buffer_size, vertices, vertex_count, vertex_size)] on
    the destination [s]: the returned size and the store, or [None] when the
    loop over the blocks does not end. *)
Definition encodeV1 (buffer_size : nat) (vertices : list Z) (vertex_count vertex_size : nat)
    (s : store) : option (nat * store) :=
  let vertex_data := vertices in
  let data := 0 in
  let data_end := buffer_size in
  if remaining data_end data <? 1 + vertex_size then Some (0, s)
  else
    let version := gEncodeVertexVersion in
    let s := poke data (to_uchar (Z.lor kVertexHeader version)) s in
    let data := S data in
    let first_vertex := replicate 256 0%Z in
    let first_vertex :=
      if 0 <? vertex_count
      then array_copy first_vertex (rd vertex_data <$> seq 0 vertex_size)
      else first_vertex in
    let last_vertex := replicate 256 0%Z in
    let last_vertex := array_copy last_vertex (take vertex_size first_vertex) in
    let vertex_block_size := getVertexBlockSize vertex_size in
    match encodeV1_blocks vertex_count data_end vertex_data vertex_count vertex_size
            vertex_block_size 0 last_vertex data s with
    | None => None
    | Some (None, _, s) => Some (0, s)
    | Some (Some data, _, s) =>
        let tail_size := if vertex_size <? kTailMaxSize then kTailMaxSize else vertex_size in
        if remaining data_end data <? tail_size then Some (0, s)
        else
          let '(data, s) :=
            if vertex_size <? kTailMaxSize
            then (data + (kTailMaxSize - vertex_size),
                  memset data 0 (kTailMaxSize - vertex_size) s)
            else (data, s) in
          let s := memcpy data (take vertex_size first_vertex) s in
          let data := data + vertex_size in
          Some (data - 0, s)
    end.

(** ** encodeNDZ *)

Definition to_u32 (v : Z) : Z := (v mod 2 ^ 32)%Z.

(** The [unsigned] read at byte offset [a] of [vertices], on a little-endian
    machine. *)
Definition load_u32 (vertices : list Z) (a : nat) : Z :=
  (rd vertices a + rd vertices (a + 1) * 2 ^ 8 + rd vertices (a + 2) * 2 ^ 16
   + rd vertices (a + 3) * 2 ^ 24)%Z.

(** The [unsigned int] write of [v] at [pos], on a little-endian machine. *)
Definition poke_u32 (pos : nat) (v : Z) (s : store) : store :=
  memcpy pos ((fun b => to_uchar (Z.shiftr v (8 * Z.of_nat b))) <$> seq 0 4) s.

(** The 32 deltas of the chunk at record [i] of the channel at [k], and the
    value of [last] after the chunk. *)
Definition ndz_deltas (vertices : list Z) (vertex_count vertex_size k i : nat) (last : Z)
  : list Z * Z :=
  fold_left
    (fun '(deltas, last) j =>
       let value := load_u32 vertices ((i + j) * vertex_size + k) in
       let value := to_u32 (Z.lor (Z.shiftl value 1) (Z.shiftr value 31)) in
       let d := to_u32 (value - last) in
       let d := Z.lxor d (if (Z.shiftr d 31 =? 0)%Z then 0 else 0x7fffffff)%Z in
       (<[j := d]> deltas, value))
    (seq 0 (Nat.min 32 (vertex_count - i))) (replicate 32 0%Z, last).

Definition ndz_transpose (deltas : list Z) : list Z :=
  fold_left
    (fun transposed jr =>
       fold_left
         (fun transposed jc =>
            if (Z.land (rd deltas jc) (Z.shiftl 1 (Z.of_nat jr)) =? 0)%Z then transposed
            else <[jr := Z.lor (rd transposed jr) (Z.shiftl 1 (Z.of_nat jc))]> transposed)
         (seq 0 32) transposed)
    (seq 0 32) (replicate 32 0%Z).

Definition ndz_mask (transposed : list Z) : Z :=
  fold_left
    (fun mask j =>
       if (rd transposed j =? 0)%Z then mask else Z.lor mask (Z.shiftl 1 (Z.of_nat j)))
    (seq 0 32) 0%Z.

(** [encodeNDZ(buffer, buffer_size, vertices, vertex_count, vertex_size)]:
    the returned size and the store.  [buffer_size] is not read. *)
Definition encodeNDZ (buffer_size : nat) (vertices : list Z) (vertex_count vertex_size : nat)
    (s : store) : nat * store :=
  let pos := 0 in
  let '(pos, s) :=
    fold_left
      (fun '(pos, s) k =>
         let '(pos, s, _) :=
           fold_left
             (fun '(pos, s, last) i =>
                let '(deltas, last) := ndz_deltas vertices vertex_count vertex_size k i last in
                let transposed := ndz_transpose deltas in
                let mask := ndz_mask transposed in
                let s := poke_u32 pos mask s in
                let pos := pos + 4 in
                let '(pos, s) :=
                  fold_left
                    (fun '(pos, s) j =>
                       if (rd transposed j =? 0)%Z then (pos, s)
                       else (pos + 4, poke_u32 pos (rd transposed j) s))
                    (seq 0 32) (pos, s) in
                (pos, s, last))
             (strided vertex_count 32) (pos, s, 0%Z) in
         (pos, s))
      (strided vertex_size 4) (pos, s) in
  (pos - 0, s).

(** ** The bytes of a group, of a channel, of a block and of the stream

    The functions of this section compute, without a store, the bytes that
    the encoders above write; the lemmas below relate them to the code. *)

(** The bytes that [encodeBytesGroupTry] writes for a width, [None] when it
    returns the null pointer. *)
Definition group_payload (buffer : list Z) (bits : nat) : option (list Z) :=
  if bits =? 1 then (if encodeBytesGroupZero buffer then Some [] else None)
  else if bits =? 8 then Some (rd buffer <$> seq 0 kByteGroupSize)
  else
    let byte_size := 8 / bits in
    let sentinel := to_uchar (Z.shiftl 1 (Z.of_nat bits) - 1) in
    Some ((pack_byte buffer bits byte_size sentinel <$> strided kByteGroupSize byte_size)
          ++ (rd buffer <$> filter (fun i => (sentinel <=? rd buffer i)%Z) (seq 0 kByteGroupSize))).

(** The size of the encoding of a group at a width, when there is one. *)
Definition group_size (buffer : list Z) (bits : nat) : option nat :=
  length <$> group_payload buffer bits.

(** The width and the size that the loop over [bits] of [encodeBytes]
    retains. *)
Definition best_of (buffer : list Z) : nat * nat :=
  fold_left
    (fun '(best_bits, best_size) bits =>
       match group_size buffer bits with
       | Some size => if size <? best_size then (bits, size) else (best_bits, best_size)
       | None => (best_bits, best_size)
       end)
    [1; 2; 4] (8, kByteGroupSize).

Definition best_bits_of (buffer : list Z) : nat := fst (best_of buffer).

(** The bytes of a group at the retained width. *)
Definition group_bytes (buffer : list Z) : list Z :=
  default [] (group_payload buffer (best_bits_of buffer)).

(** The group [j] of a source array, as the pointer [buffer + j * 16]. *)
Definition group_at (buffer : list Z) (j : nat) : list Z := drop (j * kByteGroupSize) buffer.

(** The header code of a group. *)
Definition group_code (buffer : list Z) : Z := bitslog2_of (best_bits_of buffer).

(** The header byte [h] for the codes of the groups: four codes to a byte,
    the first one in the low-order bits; a code past the end of the list
    counts as 0. *)
Definition header_byte (codes : list Z) (h : nat) : Z :=
  (rd codes (4 * h) + rd codes (4 * h + 1) * 4 + rd codes (4 * h + 2) * 16
   + rd codes (4 * h + 3) * 64)%Z.

Definition header_of (header_size : nat) (codes : list Z) : list Z :=
  header_byte codes <$> seq 0 header_size.

(** The bytes of the groups [from, from + count) of a source array. *)
Definition payload_of (buffer : list Z) (from count : nat) : list Z :=
  concat ((fun j => group_bytes (group_at buffer j)) <$> seq from count).

Definition codes_of (buffer : list Z) (groups : nat) : list Z :=
  (fun j => group_code (group_at buffer j)) <$> seq 0 groups.

(** The bytes that [encodeBytes] writes for a source array of [groups]
    groups. *)
Definition channel_bytes (buffer : list Z) (groups : nat) : list Z :=
  header_of ((groups + 3) / 4) (codes_of buffer groups) ++ payload_of buffer 0 groups.

(** The header codes are 2-bit values. *)
Definition is_code (c : Z) : Prop := (0 <= c <= 3)%Z.

(** ** The packer as section 4.2 of the specification describes it *)

Definition spec_sentinel (b : nat) : Z := (2 ^ Z.of_nat b - 1)%Z.

(** The content of the [b]-bit field of a value. *)
Definition spec_field (b : nat) (v : Z) : Z :=
  if (spec_sentinel b <=? v)%Z then spec_sentinel b else v.

(** The fields of one output byte, the first one in the most significant
    position. *)
Fixpoint spec_pack (b : nat) (fields : list Z) : Z :=
  match fields with
  | [] => 0%Z
  | f :: fields' => (f * 2 ^ Z.of_nat (b * length fields') + spec_pack b fields')%Z
  end.

(** The fixed bytes: [8 / b] fields for each of the [16 / (8 / b)] bytes. *)
Definition spec_fixed (b : nat) (group : list Z) : list Z :=
  spec_pack b <$> reshape (replicate (16 / (8 / b)) (8 / b)) (spec_field b <$> group).

(** The escape bytes: the values whose field holds the sentinel. *)
Definition spec_escapes (b : nat) (group : list Z) : list Z :=
  filter (fun v => spec_field b v = spec_sentinel b) group.

(** The bound [16 + 16 / (8 / b)] on the size of a group at width [b]. *)
Definition group_bound (b : nat) : nat := 16 + 16 / (8 / b).

(** ** The choice of the width and the header as section 4.3 describes them *)

(** The choice of the width as section 4.3 of the specification describes
    it: width 8 is the first candidate, then 1, 2 and 4 are tried in this
    order, and a candidate replaces the best one only when its size is
    strictly smaller.  So the chosen width has an encoding of the least
    size, and every candidate tried before it has a strictly larger one. *)
Definition trial_order : list nat := [8; 1; 2; 4].

Definition spec_selected (group : list Z) (w : nat) : Prop :=
  exists i n, trial_order !! i = Some w /\ group_size group w = Some n /\
    forall j w' n', trial_order !! j = Some w' -> group_size group w' = Some n' ->
      n <= n' /\ (j < i -> n < n').

(** The 2-bit slot of group [j] in a header: four groups to a byte, the first
    group in the low-order bits. *)
Definition header_slot (header : list Z) (j : nat) : Z :=
  Z.land (Z.shiftr (rd header (j / 4)) (Z.of_nat (2 * (j mod 4)))) 3.

(** ** The block encoder as section 4.4 of the specification describes it *)

(** The values of channel [k] in the records of a block. *)
Definition column (vertex_data : list Z) (vertex_count vertex_size k : nat) : list Z :=
  (fun i => rd vertex_data (i * vertex_size + k)) <$> seq 0 vertex_count.

(** The deltas of a channel for the running predictor [p]:
    [delta_i = zigzag8 (record[i][k] - p)], then [p = record[i][k]]. *)
Fixpoint spec_deltas (p : Z) (values : list Z) : list Z :=
  match values with
  | [] => []
  | v :: values' => zigzag8 (to_uchar (v - p)) :: spec_deltas v values'
  end.

(** Zeros up to the next multiple of 16. *)
Definition spec_padded (deltas : list Z) : list Z :=
  deltas ++ replicate ((length deltas + 15) / 16 * 16 - length deltas) 0%Z.

(** The bytes of channel [k] of a block. *)
Definition spec_channel (vertex_data : list Z) (vertex_count vertex_size : nat)
    (last_vertex : list Z) (k : nat) : list Z :=
  let padded := spec_padded (spec_deltas (rd last_vertex k)
                                         (column vertex_data vertex_count vertex_size k)) in
  channel_bytes padded (length padded / 16).

(** The bytes of a block: the channels in order. *)
Definition spec_block (vertex_data : list Z) (vertex_count vertex_size : nat)
    (last_vertex : list Z) : list Z :=
  concat ((fun k => spec_channel vertex_data vertex_count vertex_size last_vertex k)
            <$> seq 0 vertex_size).

(** The record [i] of a record array. *)
Definition record (vertex_data : list Z) (vertex_size i : nat) : list Z :=
  rd vertex_data <$> seq (vertex_size * i) vertex_size.

(** ** The stream as sections 4.5 and 6 of the specification describe it *)

(** [min(256, floor(8192 / vertex_size) rounded down to a multiple of 16)] *)
Definition spec_block_vertices (vertex_size : nat) : nat :=
  Nat.min 256 (Z.to_nat 8192 / vertex_size / 16 * 16).

(** The number of blocks of [block_vertices] records, the last one holding
    the remainder, and the number of records of block [b]. *)
Definition block_count (vertex_count block_vertices : nat) : nat :=
  (vertex_count + block_vertices - 1) / block_vertices.

Definition block_length (vertex_count block_vertices b : nat) : nat :=
  Nat.min block_vertices (vertex_count - b * block_vertices).

(** The first record, as [encodeV1] captures it: zeros when there is no
    record. *)
Definition spec_first_vertex (vertex_data : list Z) (vertex_count vertex_size : nat) : list Z :=
  if vertex_count =? 0 then replicate vertex_size 0%Z else record vertex_data vertex_size 0.

(** The predictor of block [b]: the first record for the first block, the
    last record of the block before for the other ones. *)
Definition spec_predictor (vertex_data : list Z) (vertex_count vertex_size block_vertices b : nat)
  : list Z :=
  match b with
  | 0 => spec_first_vertex vertex_data vertex_count vertex_size
  | S b' =>
      record vertex_data vertex_size
        (b' * block_vertices + block_length vertex_count block_vertices b' - 1)
  end.

Definition spec_stream_block (vertex_data : list Z) (vertex_count vertex_size block_vertices b : nat)
  : list Z :=
  spec_block (drop (b * block_vertices * vertex_size) vertex_data)
    (block_length vertex_count block_vertices b) vertex_size
    (spec_predictor vertex_data vertex_count vertex_size block_vertices b).

Definition spec_blocks (vertex_data : list Z) (vertex_count vertex_size block_vertices : nat)
    (from count : nat) : list Z :=
  concat (spec_stream_block vertex_data vertex_count vertex_size block_vertices <$> seq from count).

(** [32 - vertex_size] zeros when [vertex_size < 32], then the first record. *)
Definition spec_tail (vertex_size : nat) (first_vertex : list Z) : list Z :=
  replicate (32 - vertex_size) 0%Z ++ first_vertex.

Definition spec_stream (vertex_data : list Z) (vertex_count vertex_size : nat) : list Z :=
  let block_vertices := spec_block_vertices vertex_size in
  [Z.lor 0xA0 1]
  ++ spec_blocks vertex_data vertex_count vertex_size block_vertices 0
       (block_count vertex_count block_vertices)
  ++ spec_tail vertex_size (spec_first_vertex vertex_data vertex_count vertex_size).

(** ** Devices of the proofs *)

(** Only addresses from [d] on were written, all of them in the buffer. *)
Definition within (d : nat) (s s' : store) : Prop :=
  oob s' = oob s /\ length (mem s') = length (mem s) /\ take d (mem s') = take d (mem s).

(** The addresses from [e] on were not written. *)
Definition beyond (e : nat) (s s' : store) : Prop := drop e (mem s') = drop e (mem s).

(** A property of all bytes, decided by enumeration. *)
Definition all_bytes (P : Z -> bool) : bool :=
  forallb (fun n => P (Z.of_nat n)) (seq 0 256).

(** ** Sample inputs *)

(** Four records of stride 4 (the scenario of section 8). *)
Definition sample_vertices : list Z := [0; 0; 0; 0; 1; 0; 0; 0; 2; 0; 0; 0; 255; 0; 0; 0]%Z.

(** The deltas of channel 0 of the sample, padded to a group. *)
Definition sample_group : list Z := [0; 2; 2; 5; 0; 0; 0; 0; 0; 0; 0; 0; 0; 0; 0; 0]%Z.

(** A destination buffer of [n] bytes with arbitrary content. *)
Definition sample_store (n : nat) : store := Store (replicate n 0xCD%Z) [].

(** One record of stride 12 whose first word is 0x40000000. *)
Definition ndz_vertices : list Z := [0; 0; 0; 64; 0; 0; 0; 0; 0; 0; 0; 0]%Z.

(** ** Sizes *)

(** The number of groups and of header bytes of a channel of [n] records. *)
Definition channel_groups (n : nat) : nat := (n + 15) / 16.

Definition channel_header_size (n : nat) : nat := (channel_groups n + 3) / 4.

(** The size of a stream whose groups all take 16 bytes: for every block and
    channel the header and one byte for each record of a full block, after
    the format byte and before the tail. *)
Definition worst_size (vertex_count vertex_size : nat) : nat :=
  let block_vertices := getVertexBlockSize vertex_size in
  1 + block_count vertex_count block_vertices
      * (vertex_size * (channel_header_size block_vertices + block_vertices))
  + Nat.max vertex_size 32.

(** The size of a stream whose groups are all empty. *)
Definition least_size (vertex_count vertex_size : nat) : nat :=
  1 + block_count vertex_count (getVertexBlockSize vertex_size) * vertex_size
  + Nat.max vertex_size 32.

(** ** The stream of encodeNDZ *)

(** The four bytes of an [unsigned int], the least significant one first. *)
Definition u32_bytes (v : Z) : list Z :=
  (fun b => to_uchar (Z.shiftr v (8 * Z.of_nat b))) <$> seq 0 4.

(** The planes of a chunk that are written: the ones that are not zero. *)
Definition ndz_planes (transposed : list Z) : list Z :=
  filter (fun v => negb (v =? 0)%Z) (rd transposed <$> seq 0 32).

(** The bytes of a chunk: the mask, then the planes that are not zero. *)
Definition ndz_chunk (transposed : list Z) : list Z :=
  u32_bytes (ndz_mask transposed) ++ concat (u32_bytes <$> ndz_planes transposed).

(** The bytes of the chunks at the records [idx] of the channel at [k], and
    the value of [last] after them. *)
Definition ndz_chunks (vertices : list Z) (vertex_count vertex_size k : nat) (idx : list nat)
    (last : Z) : list Z * Z :=
  fold_left
    (fun '(out, last) i =>
       let '(deltas, last) := ndz_deltas vertices vertex_count vertex_size k i last in
       (out ++ ndz_chunk (ndz_transpose deltas), last))
    idx ([], last).

(** The bytes of the channel at [k]; [last] starts from 0. *)
Definition ndz_channel (vertices : list Z) (vertex_count vertex_size k : nat) : list Z :=
  fst (ndz_chunks vertices vertex_count vertex_size k (strided vertex_count 32) 0%Z).

Definition ndz_stream (vertices : list Z) (vertex_count vertex_size : nat) : list Z :=
  concat (ndz_channel vertices vertex_count vertex_size <$> strided vertex_size 4).

(** The number of chunks of all of the channels. *)
Definition ndz_chunk_count (vertex_count vertex_size : nat) : nat :=
  (vertex_size + 3) / 4 * ((vertex_count + 31) / 32).

(** The inner loop of the transposition: the row [jr] after the columns. *)
Definition ndz_row (deltas : list Z) (jr : nat) (columns : list nat) (transposed : list Z)
  : list Z :=
  fold_left
    (fun transposed jc =>
       if (Z.land (rd deltas jc) (Z.shiftl 1 (Z.of_nat jr)) =? 0)%Z then transposed
       else <[jr := Z.lor (rd transposed jr) (Z.shiftl 1 (Z.of_nat jc))]> transposed)
    columns transposed.

(** The outer loop of the transposition over the rows. *)
Definition ndz_rows (deltas : list Z) (rows : list nat) (transposed : list Z) : list Z :=
  fold_left (fun transposed jr => ndz_row deltas jr (seq 0 32) transposed) rows transposed.

(** The bits of a row, gathered from the columns. *)
Definition ndz_row_word (deltas : list Z) (jr : nat) (columns : list nat) (row : Z) : Z :=
  fold_left
    (fun row jc =>
       if Z.testbit (rd deltas jc) (Z.of_nat jr)
       then Z.lor row (Z.shiftl 1 (Z.of_nat jc)) else row)
    columns row.

(** The word of record [r] in the channel at [k], rotated by one bit to the
    left. *)
Definition ndz_value (vertices : list Z) (vertex_size k r : nat) : Z :=
  to_u32 (Z.lor (Z.shiftl (load_u32 vertices (r * vertex_size + k)) 1)
                (Z.shiftr (load_u32 vertices (r * vertex_size + k)) 31)).

(** The fold of the sign: the low 31 bits are inverted when bit 31 is set. *)
Definition ndz_fold (d : Z) : Z :=
  Z.lxor d (if (Z.shiftr d 31 =? 0)%Z then 0 else 0x7fffffff)%Z.

(** The deltas of consecutive values, from [last]. *)
Fixpoint ndz_delta_list (last : Z) (values : list Z) : list Z :=
  match values with
  | [] => []
  | value :: values' => ndz_fold (to_u32 (value - last)) :: ndz_delta_list value values'
  end.

(** The values of the [m] records from [i + a]. *)
Definition ndz_values (vertices : list Z) (vertex_size k i a m : nat) : list Z :=
  (fun j => ndz_value vertices vertex_size k (i + j)) <$> seq a m.

(** * Properties *)

(** ** Zigzag *)

Lemma all_bytes_spec (P : Z -> bool) :
  all_bytes P = true -> forall v, is_byte v -> P v = true.
Proof.
  unfold all_bytes, is_byte. rewrite forallb_forall. intros H v Hv.
  rewrite <- (Z2Nat.id v) by lia. apply H, in_seq. lia.
Qed.

Lemma zigzag8_byte (v : Z) : is_byte (zigzag8 v).
Proof. unfold zigzag8, to_uchar, is_byte. apply Z.mod_pos_bound. lia. Qed.

Lemma unzigzag8_byte (v : Z) : is_byte (unzigzag8 v).
Proof. unfold unzigzag8, to_uchar, is_byte. apply Z.mod_pos_bound. lia. Qed.

Lemma unzigzag8_zigzag8 (d : Z) : is_byte d -> unzigzag8 (zigzag8 d) = d.
Proof.
  intros Hd. apply Z.eqb_eq.
  apply (all_bytes_spec (fun d => (unzigzag8 (zigzag8 d) =? d)%Z)); [|exact Hd].
  vm_compute. reflexivity.
Qed.

Lemma zigzag8_unzigzag8 (v : Z) : is_byte v -> zigzag8 (unzigzag8 v) = v.
Proof.
  intros Hv. apply Z.eqb_eq.
  apply (all_bytes_spec (fun v => (zigzag8 (unzigzag8 v) =? v)%Z)); [|exact Hv].
  vm_compute. reflexivity.
Qed.


(** ** The store *)

Lemma poke_inside a v s :
  a < length (mem s) -> poke a v s = Store (<[a := v]> (mem s)) (oob s).
Proof. unfold poke. intros H. apply Nat.ltb_lt in H. rewrite H. reflexivity. Qed.

Lemma memcpy_app a l1 l2 s :
  memcpy a (l1 ++ l2) s = memcpy (a + length l1) l2 (memcpy a l1 s).
Proof.
  revert a s. induction l1 as [|v l1 IH]; intros a s; simpl.
  - f_equal. lia.
  - rewrite IH. f_equal. lia.
Qed.

Lemma memcpy_inside a src s :
  a + length src <= length (mem s) ->
  memcpy a src s = Store (take a (mem s) ++ src ++ drop (a + length src) (mem s)) (oob s).
Proof.
  revert a s. induction src as [|v src IH]; intros a s Hlen; simpl in *.
  - rewrite Nat.add_0_r, take_drop. destruct s; reflexivity.
  - rewrite poke_inside by lia. rewrite IH; simpl; rewrite ?length_insert; [|lia].
    f_equal.
    rewrite (take_S_r _ a v) by (apply list_lookup_insert_eq; lia).
    rewrite take_insert_ge by lia.
    rewrite drop_insert_lt by lia.
    rewrite <- app_assoc, Nat.add_succ_r. reflexivity.
Qed.

Lemma fixed_loop (f : nat -> Z) (idx : list nat) (data : nat) (s : store) :
  fold_left (fun '(data, s) i => (S data, poke data (f i) s)) idx (data, s)
  = (data + length idx, memcpy data (f <$> idx) s).
Proof.
  revert data s. induction idx as [|i idx IH]; intros data s; simpl.
  - rewrite Nat.add_0_r. reflexivity.
  - rewrite IH. f_equal. lia.
Qed.

Lemma escape_loop (c : nat -> bool) (f : nat -> Z) (idx : list nat) (data : nat) (s : store) :
  fold_left (fun '(data, s) i => if c i then (S data, poke data (f i) s) else (data, s))
    idx (data, s)
  = (data + length (filter c idx), memcpy data (f <$> filter c idx) s).
Proof.
  revert data s. induction idx as [|i idx IH]; intros data s; simpl.
  - rewrite Nat.add_0_r. reflexivity.
  - destruct (c i) eqn:Hc.
    + rewrite IH, filter_cons_True by (rewrite Hc; exact I). simpl. f_equal. lia.
    + rewrite IH, filter_cons_False by (rewrite Hc; exact id). reflexivity.
Qed.

Lemma Try_payload data buffer bits s :
  encodeBytesGroupTry data buffer bits s =
  match group_payload buffer bits with
  | Some p => (Some (data + length p), memcpy data p s)
  | None => (None, s)
  end.
Proof.
  unfold encodeBytesGroupTry, group_payload.
  destruct (bits =? 1).
  { destruct (encodeBytesGroupZero buffer); simpl; [rewrite Nat.add_0_r|]; reflexivity. }
  destruct (bits =? 8).
  { rewrite length_fmap, length_seq. reflexivity. }
  rewrite fixed_loop.
  rewrite (escape_loop (fun i => (_ <=? rd buffer i)%Z) (rd buffer)).
  rewrite memcpy_app, length_app, !length_fmap. f_equal. f_equal. lia.
Qed.

(** ** The packer against section 4.2 *)

Lemma lor_disjoint (hi lo : Z) (n : Z) :
  (0 <= n)%Z -> (0 <= lo < 2 ^ n)%Z -> Z.lor (hi * 2 ^ n) lo = (hi * 2 ^ n + lo)%Z.
Proof.
  intros Hn Hlo.
  assert (Hland : Z.land (hi * 2 ^ n) lo = 0%Z).
  { apply Z.bits_inj'. intros m Hm. rewrite Z.land_spec, Z.bits_0.
    destruct (Z.lt_ge_cases m n) as [Hlt|Hge].
    - rewrite Z.mul_pow2_bits_low by lia. reflexivity.
    - rewrite <- (Z.mod_small lo (2 ^ n)) by lia.
      rewrite Z.mod_pow2_bits_high by lia. apply andb_false_r. }
  rewrite <- Z.lxor_lor by exact Hland.
  symmetry. apply Z.add_nocarry_lxor. exact Hland.
Qed.

Lemma pack_step (b : Z) (byte enc : Z) :
  (0 <= b)%Z -> (0 <= enc < 2 ^ b)%Z -> (0 <= byte)%Z -> (byte * 2 ^ b + enc < 256)%Z ->
  to_uchar (Z.lor (to_uchar (Z.shiftl byte b)) enc) = (byte * 2 ^ b + enc)%Z.
Proof.
  intros Hb Henc Hbyte Hlt. unfold to_uchar.
  rewrite Z.shiftl_mul_pow2 by lia.
  rewrite (Z.mod_small (byte * 2 ^ b)) by nia.
  rewrite lor_disjoint by lia. apply Z.mod_small. nia.
Qed.

Lemma spec_field_range (b : nat) (v : Z) :
  (0 <= v)%Z -> (0 <= spec_field b v < 2 ^ Z.of_nat b)%Z.
Proof.
  intros Hv. unfold spec_field, spec_sentinel.
  assert (0 < 2 ^ Z.of_nat b)%Z by (apply Z.pow_pos_nonneg; lia).
  destruct (Z.leb_spec (2 ^ Z.of_nat b - 1) v); lia.
Qed.

Lemma pack_fold (b : nat) (enc : nat -> Z) (idx : list nat) (acc : Z) (m : nat) :
  (forall k, 0 <= enc k < 2 ^ Z.of_nat b)%Z ->
  (0 <= acc < 2 ^ Z.of_nat (b * m))%Z ->
  b * (m + length idx) <= 8 ->
  fold_left (fun byte k => to_uchar (Z.lor (to_uchar (Z.shiftl byte (Z.of_nat b))) (enc k))) idx acc
  = (acc * 2 ^ Z.of_nat (b * length idx) + spec_pack b (enc <$> idx))%Z.
Proof.
  intros Henc. revert acc m. induction idx as [|k idx IH]; intros acc m Hacc Hle; simpl.
  - rewrite Nat.mul_0_r. simpl. lia.
  - simpl in Hle.
    assert (Hstep : (0 <= acc * 2 ^ Z.of_nat b + enc k < 2 ^ Z.of_nat (b * S m))%Z).
    { replace (Z.of_nat (b * S m)) with (Z.of_nat (b * m) + Z.of_nat b)%Z by lia.
      rewrite Z.pow_add_r by lia. specialize (Henc k). nia. }
    assert (Hpow : (2 ^ Z.of_nat (b * S m) <= 2 ^ 8)%Z) by (apply Z.pow_le_mono_r; lia).
    rewrite pack_step; [|lia|apply Henc|lia|change (2 ^ 8)%Z with 256%Z in Hpow; lia].
    rewrite (IH _ (S m)); [|exact Hstep|lia].
    replace (Z.of_nat (b * S (length idx))) with (Z.of_nat b + Z.of_nat (b * length idx))%Z by lia.
    rewrite Z.pow_add_r by lia. rewrite length_fmap. unfold fmap. ring.
Qed.

Lemma map_filter_ext (c c' : nat -> bool) (f f' : nat -> Z) (l : list nat) :
  (forall i, i ∈ l -> c i = c' i /\ f i = f' i) ->
  f <$> filter c l = f' <$> filter c' l.
Proof.
  induction l as [|i l IH]; intros Hext; [reflexivity|].
  destruct (Hext i) as [Hc Hf]; [left|].
  assert (IH' : f <$> filter c l = f' <$> filter c' l).
  { apply IH. intros j Hj. apply Hext. right. exact Hj. }
  destruct (c i) eqn:Hci; symmetry in Hc.
  - rewrite (filter_cons_True c) by (rewrite Hci; exact I).
    rewrite (filter_cons_True c') by (rewrite Hc; exact I).
    rewrite !fmap_cons, Hf, IH'. reflexivity.
  - rewrite (filter_cons_False c) by (rewrite Hci; exact id).
    rewrite (filter_cons_False c') by (rewrite Hc; exact id). exact IH'.
Qed.

Lemma escapes_by_index (c : Z -> bool) (group : list Z) :
  rd group <$> filter (fun i => c (rd group i)) (seq 0 (length group)) = filter c group.
Proof.
  induction group as [|x group IH] using rev_ind; [reflexivity|].
  rewrite length_app, Nat.add_1_r, seq_S. simpl.
  rewrite !filter_app, fmap_app.
  f_equal.
  - rewrite <- IH. apply map_filter_ext.
    intros i Hi. apply elem_of_seq in Hi. unfold rd. rewrite app_nth1 by lia. done.
  - assert (Hx : rd (group ++ [x]) (length group) = x).
    { unfold rd. rewrite app_nth2 by lia. rewrite Nat.sub_diag. reflexivity. }
    destruct (c x) eqn:Hc.
    + rewrite !filter_cons_True by (rewrite ?Hx, Hc; exact I). simpl. rewrite Hx. reflexivity.
    + rewrite !filter_cons_False by (rewrite ?Hx, Hc; exact id). reflexivity.
Qed.

Lemma rd_nonneg (buffer : list Z) (i : nat) : Forall is_byte buffer -> (0 <= rd buffer i < 256)%Z.
Proof.
  intros H. unfold rd. destruct (nth_in_or_default i buffer 0%Z) as [Hin|Hd].
  - rewrite Forall_forall in H. apply H. apply list_elem_of_In. exact Hin.
  - rewrite Hd. lia.
Qed.

Lemma sentinel_spec (b : nat) : b <= 8 -> to_uchar (Z.shiftl 1 (Z.of_nat b) - 1) = spec_sentinel b.
Proof.
  intros Hb. unfold to_uchar, spec_sentinel. rewrite Z.shiftl_1_l.
  assert (0 < 2 ^ Z.of_nat b <= 2 ^ 8)%Z.
  { split; [apply Z.pow_pos_nonneg; lia|apply Z.pow_le_mono_r; lia]. }
  apply Z.mod_small. change (2 ^ 8)%Z with 256%Z in *. lia.
Qed.

Lemma pack_byte_spec (buffer : list Z) (b byte_size i : nat) :
  Forall is_byte buffer -> b * byte_size <= 8 -> b <= 8 ->
  pack_byte buffer b byte_size (to_uchar (Z.shiftl 1 (Z.of_nat b) - 1)) i
  = spec_pack b ((fun k => spec_field b (rd buffer (i + k))) <$> seq 0 byte_size).
Proof.
  intros Hbytes Hle Hb. unfold pack_byte. rewrite sentinel_spec by exact Hb.
  rewrite (pack_fold b (fun k => spec_field b (rd buffer (i + k))) _ 0%Z 0).
  - reflexivity.
  - intros k. apply spec_field_range. apply rd_nonneg. exact Hbytes.
  - rewrite Nat.mul_0_r. simpl. lia.
  - rewrite length_seq. simpl. lia.
Qed.

Ltac destruct_group g :=
  do 16 (destruct g as [|? g]; [discriminate|]); destruct g; [|discriminate].

Lemma fixed_spec (group : list Z) (b : nat) :
  length group = 16 -> Forall is_byte group -> b = 2 \/ b = 4 ->
  pack_byte group b (8 / b) (to_uchar (Z.shiftl 1 (Z.of_nat b) - 1)) <$> strided kByteGroupSize (8 / b)
  = spec_fixed b group.
Proof.
  intros Hlen Hbytes Hb.
  transitivity ((fun i => spec_pack b ((fun k => spec_field b (rd group (i + k))) <$> seq 0 (8 / b)))
                  <$> strided kByteGroupSize (8 / b)).
  { apply list_fmap_ext. intros _ i _. apply pack_byte_spec; [exact Hbytes| |];
      destruct Hb; subst b; simpl; lia. }
  destruct_group group. destruct Hb; subst b; reflexivity.
Qed.

Lemma escapes_spec (group : list Z) (b : nat) :
  length group = 16 -> b <= 8 ->
  rd group <$> filter (fun i => (to_uchar (Z.shiftl 1 (Z.of_nat b) - 1) <=? rd group i)%Z)
                 (seq 0 kByteGroupSize)
  = spec_escapes b group.
Proof.
  intros Hlen Hb. rewrite sentinel_spec by exact Hb.
  unfold kByteGroupSize. rewrite <- Hlen.
  rewrite (escapes_by_index (fun v => (spec_sentinel b <=? v)%Z)).
  unfold spec_escapes. apply list_filter_iff. intros v. unfold spec_field.
  destruct (Z.leb_spec (spec_sentinel b) v); simpl; split; intros; try done; lia.
Qed.

Lemma verbatim_spec (group : list Z) : length group = 16 -> rd group <$> seq 0 kByteGroupSize = group.
Proof. intros Hlen. destruct_group group. reflexivity. Qed.

(** C3: for a group of 16 bytes and a width [b] of 2 or 4, [encodeBytesGroupTry]
    writes the [16 / (8 / b)] fixed bytes of section 4.2, each one packing
    [8 / b] fields most significant first with the values from the sentinel
    [2^b - 1] on replaced by the sentinel, and then the escape bytes, in
    the order of the group; for width 8 it writes the 16 bytes of the group. *)
Theorem encodeBytesGroupTry_layout (group : list Z) (b data : nat) (s : store) :
  length group = 16 -> Forall is_byte group -> b = 2 \/ b = 4 ->
  encodeBytesGroupTry data group b s
  = (Some (data + length (spec_fixed b group ++ spec_escapes b group)),
     memcpy data (spec_fixed b group ++ spec_escapes b group) s)
  /\ length (spec_fixed b group) = 16 / (8 / b)
  /\ encodeBytesGroupTry data group 8 s = (Some (data + 16), memcpy data group s).
Proof.
  intros Hlen Hbytes Hb. split; [|split].
  - rewrite Try_payload. unfold group_payload.
    replace (b =? 1) with false by (destruct Hb; subst b; reflexivity).
    replace (b =? 8) with false by (destruct Hb; subst b; reflexivity).
    rewrite fixed_spec, escapes_spec by (assumption || (destruct Hb; subst b; lia)).
    reflexivity.
  - rewrite <- fixed_spec by assumption. rewrite length_fmap. unfold strided.
    rewrite length_fmap, length_seq. destruct Hb; subst b; reflexivity.
  - rewrite Try_payload. unfold group_payload. simpl (8 =? _).
    rewrite verbatim_spec by exact Hlen.
    rewrite Hlen. reflexivity.
Qed.

(** ** Writes inside of the buffer *)

Lemma within_refl d s : within d s s.
Proof. unfold within. auto. Qed.

Lemma within_trans d s1 s2 s3 : within d s1 s2 -> within d s2 s3 -> within d s1 s3.
Proof. unfold within. intros (?&?&?) (?&?&?). repeat split; congruence. Qed.

Lemma within_mono d d' s s' : d' <= d -> within d s s' -> within d' s s'.
Proof.
  unfold within. intros Hle (Ho&Hl&Ht). repeat split; try assumption.
  rewrite <- (Nat.min_l d' d) by exact Hle. rewrite <- !take_take. congruence.
Qed.

Lemma memcpy_within d a src s :
  d <= a -> a + length src <= length (mem s) -> within d s (memcpy a src s).
Proof.
  intros Hd Hlen. rewrite memcpy_inside by exact Hlen. unfold within. simpl.
  split; [reflexivity|]. split.
  - rewrite !length_app, length_take, length_drop. lia.
  - rewrite take_app_le by (rewrite length_take; lia). rewrite take_take. f_equal. lia.
Qed.

Lemma memcpy_written a src s :
  a + length src <= length (mem s) ->
  take (a + length src) (mem (memcpy a src s)) = take a (mem s) ++ src.
Proof.
  intros Hlen. rewrite memcpy_inside by exact Hlen. simpl.
  rewrite app_assoc. apply take_app_length'.
  rewrite length_app, length_take. lia.
Qed.

Lemma beyond_refl e s : beyond e s s.
Proof. reflexivity. Qed.

Lemma beyond_trans e s1 s2 s3 : beyond e s1 s2 -> beyond e s2 s3 -> beyond e s1 s3.
Proof. unfold beyond. congruence. Qed.

Lemma beyond_mono e e' s s' : e <= e' -> beyond e s s' -> beyond e' s s'.
Proof.
  unfold beyond. intros Hle H. replace e' with (e + (e' - e)) by lia.
  rewrite <- !drop_drop. congruence.
Qed.

Lemma memcpy_beyond e a src s :
  a + length src <= e -> a + length src <= length (mem s) -> beyond e s (memcpy a src s).
Proof.
  intros He Hlen. apply (beyond_mono (a + length src)); [exact He|].
  unfold beyond. rewrite memcpy_inside by exact Hlen. simpl.
  rewrite app_assoc. apply drop_app_length'. rewrite length_app, length_take. lia.
Qed.

Lemma poke_beyond e a v s : a < e -> a < length (mem s) -> beyond e s (poke a v s).
Proof.
  intros He Hlen. unfold beyond. rewrite poke_inside by exact Hlen. simpl.
  apply drop_insert_lt. exact He.
Qed.

Lemma remaining_eq data_end data :
  data <= data_end -> (Z.of_nat data_end < 2 ^ 64)%Z -> remaining data_end data = data_end - data.
Proof.
  intros Hle Hlt. unfold remaining. rewrite Z.mod_small by lia. lia.
Qed.

(** ** The sizes of the encodings of a group *)

Lemma payload_length (buffer : list Z) (bits : nat) (p : list Z) :
  bits ∈ [1; 2; 4; 8] -> group_payload buffer bits = Some p ->
  length p <= 16 + 16 / (8 / bits) /\ length p <= kByteGroupDecodeLimit.
Proof.
  intros Hbits Hp.
  assert (Hesc : forall c : nat -> bool,
            length (rd buffer <$> filter c (seq 0 kByteGroupSize)) <= 16).
  { intros c. rewrite length_fmap.
    etransitivity; [apply length_filter|]. rewrite length_seq. reflexivity. }
  unfold group_payload in Hp.
  repeat (apply elem_of_cons in Hbits as [->|Hbits]); [| | | |by apply elem_of_nil in Hbits];
    simpl (_ =? _) in Hp; cbv iota in Hp; unfold kByteGroupDecodeLimit.
  - destruct (encodeBytesGroupZero buffer); [|discriminate]. injection Hp as <-. simpl. lia.
  - apply (inj Some) in Hp. subst p. rewrite length_app, length_fmap.
    match goal with |- context [length (rd buffer <$> ?l)] =>
      assert (length (rd buffer <$> l) <= 16) by apply Hesc end.
    change (length (strided kByteGroupSize (8 / 2))) with 4. simpl (_ / _). lia.
  - apply (inj Some) in Hp. subst p. rewrite length_app, length_fmap.
    match goal with |- context [length (rd buffer <$> ?l)] =>
      assert (length (rd buffer <$> l) <= 16) by apply Hesc end.
    change (length (strided kByteGroupSize (8 / 4))) with 8. simpl (_ / _). lia.
  - apply (inj Some) in Hp. subst p. rewrite length_fmap, length_seq. unfold kByteGroupSize. simpl. lia.
Qed.

Lemma group_size_8 (buffer : list Z) : group_size buffer 8 = Some kByteGroupSize.
Proof. reflexivity. Qed.

Lemma group_size_1 (buffer : list Z) :
  group_size buffer 1 = if encodeBytesGroupZero buffer then Some 0 else None.
Proof. unfold group_size, group_payload. simpl. destruct (encodeBytesGroupZero buffer); reflexivity. Qed.

Lemma group_size_escaped (buffer : list Z) (bits : nat) :
  bits = 2 \/ bits = 4 -> exists n, group_size buffer bits = Some n.
Proof. intros [->| ->]; eexists; reflexivity. Qed.

(** ** The choice of the width *)

Ltac trial_cases H :=
  repeat match type of H with
         | (_ :: _) !! ?j = Some _ => destruct j as [|j]; simpl in H
         | [] !! _ = Some _ => discriminate H
         | Some _ = Some _ => injection H as <-
         end.

Lemma best_of_selected (group : list Z) :
  let '(b, n) := best_of group in
  exists i, trial_order !! i = Some b /\ group_size group b = Some n /\
    forall j w' n', trial_order !! j = Some w' -> group_size group w' = Some n' ->
      n <= n' /\ (j < i -> n < n').
Proof.
  unfold best_of. cbn [fold_left]. rewrite group_size_1.
  destruct (group_size_escaped group 2) as [n2 H2]; [auto|].
  destruct (group_size_escaped group 4) as [n4 H4]; [auto|].
  unfold kByteGroupSize.
  destruct (encodeBytesGroupZero group) eqn:Hz;
    repeat first [ rewrite H2 | rewrite H4 | progress cbv beta iota
                 | match goal with
                   | |- context [?a <? ?b] => destruct (Nat.ltb_spec a b)
                   end ];
    first [exists 0; split; [reflexivity|] | exists 1; split; [reflexivity|]
          | exists 2; split; [reflexivity|] | exists 3; split; [reflexivity|]];
    (split; [first [reflexivity | assumption | apply group_size_8 | rewrite group_size_1, Hz; reflexivity]|]);
    intros j w' n' Hj Hw'; unfold trial_order in Hj; trial_cases Hj;
    rewrite ?group_size_8, ?group_size_1, ?Hz, ?H2, ?H4 in Hw';
    try discriminate Hw'; injection Hw' as <-; unfold kByteGroupSize; lia.
Qed.

Lemma best_bits_selected (group : list Z) : spec_selected group (best_bits_of group).
Proof.
  unfold spec_selected, best_bits_of. pose proof (best_of_selected group) as H.
  destruct (best_of group) as [b n]. destruct H as (i & Hi & Hn & Hmin).
  exists i, n. auto.
Qed.

Lemma spec_selected_unique (group : list Z) (w1 w2 : nat) :
  spec_selected group w1 -> spec_selected group w2 -> w1 = w2.
Proof.
  intros (i1 & n1 & Hi1 & Hn1 & Hmin1) (i2 & n2 & Hi2 & Hn2 & Hmin2).
  destruct (Hmin1 _ _ _ Hi2 Hn2) as [Hle1 Hlt1].
  destruct (Hmin2 _ _ _ Hi1 Hn1) as [Hle2 Hlt2].
  assert (i1 = i2) by lia. congruence.
Qed.

Lemma best_bits_payload (group : list Z) :
  exists p, group_payload group (best_bits_of group) = Some p
            /\ length p = snd (best_of group)
            /\ group_bytes group = p.
Proof.
  pose proof (best_of_selected group) as H. unfold group_bytes, best_bits_of.
  destruct (best_of group) as [b n]. destruct H as (i & _ & Hn & _). simpl.
  unfold group_size in Hn. destruct (group_payload group b) as [p|]; [|discriminate].
  exists p. simpl in *. split; [reflexivity|]. split; congruence.
Qed.

Lemma best_bits_trial (group : list Z) : best_bits_of group ∈ [1; 2; 4; 8].
Proof.
  destruct (best_bits_selected group) as (i & n & Hi & _).
  unfold trial_order in Hi. trial_cases Hi; repeat constructor.
Qed.

Lemma group_bytes_length (group : list Z) : length (group_bytes group) <= kByteGroupDecodeLimit.
Proof.
  destruct (best_bits_payload group) as (p & Hp & _ & ->).
  eapply payload_length; [apply best_bits_trial|exact Hp].
Qed.

(** ** The header of a channel *)

Lemma rd_snoc (l : list Z) (x : Z) (i : nat) :
  rd (l ++ [x]) i = if i <? length l then rd l i else if i =? length l then x else 0%Z.
Proof.
  unfold rd. destruct (Nat.ltb_spec i (length l)).
  - apply app_nth1. assumption.
  - rewrite app_nth2 by assumption. destruct (Nat.eqb_spec i (length l)) as [->|Hne].
    + rewrite Nat.sub_diag. reflexivity.
    + destruct (i - length l) as [|[|k]] eqn:Hk; [lia|reflexivity|reflexivity].
Qed.

Lemma rd_overflow (l : list Z) (i : nat) : length l <= i -> rd l i = 0%Z.
Proof. intros H. unfold rd. apply nth_overflow. exact H. Qed.

Lemma rd_code (codes : list Z) (i : nat) : Forall is_code codes -> is_code (rd codes i).
Proof.
  intros H. unfold rd. destruct (nth_in_or_default i codes 0%Z) as [Hin|Hd].
  - rewrite Forall_forall in H. apply H. apply list_elem_of_In. exact Hin.
  - rewrite Hd. unfold is_code. lia.
Qed.

Lemma rd_fmap_seq (f : nat -> Z) (n i : nat) : i < n -> rd (f <$> seq 0 n) i = f i.
Proof.
  intros Hi. unfold rd. rewrite nth_lookup, list_lookup_fmap, lookup_seq_lt by exact Hi.
  reflexivity.
Qed.

Lemma header_byte_range (codes : list Z) (h : nat) :
  Forall is_code codes -> is_byte (header_byte codes h).
Proof.
  intros H. unfold header_byte, is_byte.
  pose proof (rd_code codes (4 * h) H). pose proof (rd_code codes (4 * h + 1) H).
  pose proof (rd_code codes (4 * h + 2) H). pose proof (rd_code codes (4 * h + 3) H).
  unfold is_code in *. lia.
Qed.

Lemma header_snoc (header_size : nat) (codes : list Z) (c : Z) :
  Forall is_code codes -> is_code c -> length codes / 4 < header_size ->
  header_of header_size (codes ++ [c])
  = <[length codes / 4 :=
        to_uchar (Z.lor (rd (header_of header_size codes) (length codes / 4))
                        (Z.shiftl c (Z.of_nat (length codes mod 4 * 2))))]>
      (header_of header_size codes).
Proof.
  intros Hcodes Hc. set (j := length codes).
  pose proof (Nat.div_mod_eq j 4) as Hj. pose proof (Nat.mod_upper_bound j 4 ltac:(lia)) as Hr.
  generalize dependent (j mod 4). generalize dependent (j / 4). intros q r Hj Hr Hlt.
  apply list_eq. intros h. unfold header_of.
  destruct (decide (h = q)) as [->|Hne].
  - rewrite list_lookup_insert_eq by (rewrite length_fmap, length_seq; exact Hlt).
    rewrite list_lookup_fmap, lookup_seq_lt by exact Hlt. simpl. f_equal.
    rewrite rd_fmap_seq by exact Hlt.
    unfold header_byte. rewrite !rd_snoc. fold j.
    pose proof (rd_code codes (4 * q) Hcodes) as H0.
    pose proof (rd_code codes (4 * q + 1) Hcodes) as H1.
    pose proof (rd_code codes (4 * q + 2) Hcodes) as H2.
    unfold is_code in *.
    rewrite Z.shiftl_mul_pow2, Z.lor_comm by lia.
    destruct r as [|[|[|[|r]]]]; [| | |  |lia];
      repeat match goal with
             | |- context [?a <? ?b] => destruct (Nat.ltb_spec a b); try lia
             | |- context [?a =? ?b] => destruct (Nat.eqb_spec a b); try lia
             end;
      repeat match goal with
             | |- context [rd codes ?i] => rewrite (rd_overflow codes i) by (fold j; lia)
             end;
      unfold to_uchar.
    + change (Z.of_nat (0 * 2)) with 0%Z. rewrite lor_disjoint by lia.
      rewrite Z.mod_small; lia.
    + change (Z.of_nat (1 * 2)) with 2%Z. rewrite lor_disjoint by lia.
      rewrite Z.mod_small; lia.
    + change (Z.of_nat (2 * 2)) with 4%Z. rewrite lor_disjoint by lia.
      rewrite Z.mod_small; lia.
    + change (Z.of_nat (3 * 2)) with 6%Z. rewrite lor_disjoint by lia.
      rewrite Z.mod_small; lia.
  - rewrite list_lookup_insert_ne by congruence.
    rewrite !list_lookup_fmap. destruct (seq 0 header_size !! h) as [h'|] eqn:Hh; [|reflexivity].
    apply lookup_seq in Hh as [-> _]. simpl. f_equal.
    unfold header_byte. rewrite !rd_snoc. fold j.
    repeat match goal with
           | |- context [?a <? ?b] => destruct (Nat.ltb_spec a b)
           | |- context [?a =? ?b] => destruct (Nat.eqb_spec a b); try lia
           end;
      repeat match goal with
             | |- context [rd codes ?i] => rewrite (rd_overflow codes i) by (fold j; lia)
             end; reflexivity.
Qed.

(** ** One group of encodeBytes *)

Lemma within_peek d s s' a : within d s s' -> a < d -> peek a s' = peek a s.
Proof.
  intros (_ & _ & Ht) Ha. unfold peek. rewrite !nth_lookup. 
  rewrite <- (lookup_take_lt (mem s') d a), <- (lookup_take_lt (mem s) d a) by exact Ha.
  rewrite Ht. reflexivity.
Qed.

Lemma trials_fold (group : list Z) (data : nat) (s0 : store) (widths : list nat) :
  data + kByteGroupDecodeLimit <= length (mem s0) ->
  Forall (fun bits => bits ∈ [1; 2; 4; 8]) widths ->
  forall best s, within data s0 s -> beyond (data + kByteGroupDecodeLimit) s0 s ->
  exists s',
    fold_left
      (fun '(best_bits, best_size, s) bits =>
         match encodeBytesGroupTry data group bits s with
         | (Some next, s) =>
             if next - data <? best_size then (bits, next - data, s)
             else (best_bits, best_size, s)
         | (None, s) => (best_bits, best_size, s)
         end)
      widths (best, s)
    = (fold_left
         (fun '(best_bits, best_size) bits =>
            match group_size group bits with
            | Some size => if size <? best_size then (bits, size) else (best_bits, best_size)
            | None => (best_bits, best_size)
            end)
         widths best, s')
    /\ within data s0 s' /\ beyond (data + kByteGroupDecodeLimit) s0 s'.
Proof.
  intros Hroom Hwidths. induction Hwidths as [|bits widths Hbits _ IH]; intros [bb bs] s Hs Hb.
  - exists s. split; [reflexivity|]. split; [exact Hs|exact Hb].
  - cbn [fold_left]. rewrite Try_payload. unfold group_size.
    destruct (group_payload group bits) as [p|] eqn:Hp; cbn [fmap option_fmap option_map].
    + replace (data + length p - data) with (length p) by lia.
      pose proof (payload_length _ _ _ Hbits Hp) as [_ Hp24].
      assert (Hlen : data + length p <= length (mem s)).
      { destruct Hs as (_ & -> & _). lia. }
      assert (Hw : within data s0 (memcpy data p s)).
      { eapply within_trans; [exact Hs|]. apply memcpy_within; [lia|exact Hlen]. }
      assert (Hb' : beyond (data + kByteGroupDecodeLimit) s0 (memcpy data p s)).
      { eapply beyond_trans; [exact Hb|]. apply memcpy_beyond; [lia|exact Hlen]. }
      destruct (length p <? bs); apply IH; assumption.
    + apply IH; assumption.
Qed.

Lemma encodeBytes_group_full (header data_end i data : nat) (buffer : list Z) (s : store) :
  data <= data_end -> (Z.of_nat data_end < 2 ^ 64)%Z ->
  data_end - data < kByteGroupDecodeLimit ->
  encodeBytes_group header data_end buffer i data s = (None, s).
Proof.
  intros Hle H64 Hroom. unfold encodeBytes_group. rewrite remaining_eq by assumption.
  apply Nat.ltb_lt in Hroom. rewrite Hroom. reflexivity.
Qed.

Lemma encodeBytes_group_room (header data_end i data : nat) (buffer : list Z) (s : store) :
  let group := drop i buffer in
  let slot := header + i / kByteGroupSize / 4 in
  slot < data -> data <= data_end -> data_end <= length (mem s) -> (Z.of_nat data_end < 2 ^ 64)%Z ->
  kByteGroupDecodeLimit <= data_end - data ->
  exists s',
    encodeBytes_group header data_end buffer i data s
    = (Some (data + length (group_bytes group)), s')
    /\ oob s' = oob s /\ length (mem s') = length (mem s)
    /\ take (data + length (group_bytes group)) (mem s')
       = <[slot := to_uchar (Z.lor (rd (mem s) slot)
                               (Z.shiftl (group_code group)
                                         (Z.of_nat (i / kByteGroupSize mod 4 * 2))))]>
           (take data (mem s))
         ++ group_bytes group
    /\ beyond (data + kByteGroupDecodeLimit) s s'.
Proof.
  intros group slot Hslot Hle Hend H64 Hroom. unfold encodeBytes_group.
  rewrite remaining_eq by assumption.
  apply Nat.ltb_ge in Hroom as Hroom'. rewrite Hroom'. clear Hroom'.
  fold group. fold slot. rewrite (Try_payload data group 8).
  change (group_payload group 8) with (Some (rd group <$> seq 0 kByteGroupSize)). cbv iota.
  rewrite length_fmap, length_seq. replace (data + kByteGroupSize - data) with kByteGroupSize by lia.
  destruct (trials_fold group data s [1; 2; 4] ltac:(lia) ltac:(repeat constructor)
              (8, kByteGroupSize) (memcpy data (rd group <$> seq 0 kByteGroupSize) s))
    as (s1 & -> & Hs1 & Hb1).
  { apply memcpy_within; [lia|]. rewrite length_fmap, length_seq.
    unfold kByteGroupSize, kByteGroupDecodeLimit in *. lia. }
  { apply memcpy_beyond; rewrite length_fmap, length_seq;
      unfold kByteGroupSize, kByteGroupDecodeLimit in *; lia. }
  fold (best_of group). unfold group_code, best_bits_of.
  destruct (best_bits_payload group) as (p & Hp & _ & Hgb). unfold best_bits_of in Hp.
  pose proof (group_bytes_length group) as Hplen. rewrite Hgb in *. clear Hgb.
  destruct (best_of group) as [bb bs]. cbn [fst] in *.
  rewrite (within_peek data s s1 slot Hs1 Hslot).
  destruct Hs1 as (Hoob1 & Hlen1 & Htake1).
  rewrite poke_inside by lia. rewrite Try_payload, Hp.
  eexists. split; [reflexivity|].
  split; [|split; [|split]].
  - rewrite memcpy_inside by (simpl; rewrite length_insert; lia). simpl. exact Hoob1.
  - rewrite memcpy_inside by (simpl; rewrite length_insert; lia). simpl.
    rewrite !length_app, length_take, length_drop, length_insert. lia.
  - rewrite memcpy_written by (simpl; rewrite length_insert; lia). simpl.
    rewrite take_insert_lt by exact Hslot. rewrite Htake1. reflexivity.
  - eapply beyond_trans; [exact Hb1|].
    eapply beyond_trans; [|apply memcpy_beyond; [|simpl; rewrite length_insert]; lia].
    unfold beyond. simpl. apply drop_insert_lt. lia.
Qed.

(** ** encodeBytes *)

Lemma bitslog2_of_code (bits : nat) : is_code (bitslog2_of bits).
Proof.
  unfold bitslog2_of, is_code.
  destruct (bits =? 1), (bits =? 2), (bits =? 4); lia.
Qed.

Lemma codes_of_code (buffer : list Z) (n : nat) : Forall is_code (codes_of buffer n).
Proof.
  unfold codes_of. apply Forall_fmap, Forall_forall. intros j _. apply bitslog2_of_code.
Qed.

Lemma codes_of_length (buffer : list Z) (n : nat) : length (codes_of buffer n) = n.
Proof. unfold codes_of. rewrite length_fmap, length_seq. reflexivity. Qed.

Lemma codes_of_S (buffer : list Z) (n : nat) :
  codes_of buffer (S n) = codes_of buffer n ++ [group_code (group_at buffer n)].
Proof. unfold codes_of. rewrite seq_S, fmap_app. reflexivity. Qed.

Lemma payload_of_S (buffer : list Z) (n : nat) :
  payload_of buffer 0 (S n) = payload_of buffer 0 n ++ group_bytes (group_at buffer n).
Proof.
  unfold payload_of. rewrite seq_S, fmap_app, concat_app. simpl. rewrite app_nil_r. reflexivity.
Qed.

Lemma payload_of_cons (buffer : list Z) (j k : nat) :
  payload_of buffer j (S k) = group_bytes (group_at buffer j) ++ payload_of buffer (S j) k.
Proof. reflexivity. Qed.

Lemma header_of_length (header_size : nat) (codes : list Z) :
  length (header_of header_size codes) = header_size.
Proof. unfold header_of. rewrite length_fmap, length_seq. reflexivity. Qed.

Lemma header_of_nil (header_size : nat) : header_of header_size [] = replicate header_size 0%Z.
Proof.
  unfold header_of. generalize 0 at 1. induction header_size as [|n IH]; intros a; [reflexivity|].
  simpl. rewrite IH. f_equal. unfold header_byte. rewrite !rd_overflow by (simpl; lia). reflexivity.
Qed.

Lemma encodeBytes_loop_spec (header header_size data_end : nat) (buffer : list Z) (n : nat)
    (pre : list Z) :
  (Z.of_nat data_end < 2 ^ 64)%Z -> n <= 4 * header_size -> length pre = header ->
  forall k j0 data s,
    j0 + k = n ->
    header + header_size <= data -> data <= data_end -> data_end <= length (mem s) ->
    take data (mem s) = pre ++ header_of header_size (codes_of buffer j0) ++ payload_of buffer 0 j0 ->
    exists r s',
      encodeBytes_loop ((fun j => j * kByteGroupSize) <$> seq j0 k) header data_end buffer data s
      = (r, s')
      /\ oob s' = oob s /\ length (mem s') = length (mem s) /\ take header (mem s') = pre
      /\ match r with
         | Some next =>
             next = data + length (payload_of buffer j0 k) /\ next <= data_end
             /\ take next (mem s')
                = pre ++ header_of header_size (codes_of buffer n) ++ payload_of buffer 0 n
             /\ beyond (next + kByteGroupDecodeLimit) s s'
         | None => data_end < data + length (payload_of buffer j0 k) + kByteGroupDecodeLimit
         end.
Proof.
  intros H64 Hn Hpre. induction k as [|k IH]; intros j0 data s Hj Hhdr Hle Hend Hmem.
  - assert (Hprefix : take header (mem s) = pre).
    { rewrite <- (Nat.min_l header data) by lia. rewrite <- take_take, Hmem, <- Hpre.
      apply take_app_length. }
    exists (Some data), s. rewrite Nat.add_0_r in Hj. subst j0.
    simpl. repeat split; try assumption; lia.
  - assert (Hprefix : take header (mem s) = pre).
    { rewrite <- (Nat.min_l header data) by lia. rewrite <- take_take, Hmem, <- Hpre.
      apply take_app_length. }
    cbn [seq fmap list_fmap encodeBytes_loop].
    destruct (Nat.lt_ge_cases (data_end - data) kByteGroupDecodeLimit) as [Hfull|Hroom].
    { rewrite encodeBytes_group_full by assumption.
      exists None, s. repeat split; try assumption. lia. }
    assert (Hslot : j0 / 4 < header_size) by (apply Nat.Div0.div_lt_upper_bound; lia).
    destruct (encodeBytes_group_room header data_end (j0 * kByteGroupSize) data buffer s)
      as (s1 & -> & Hoob1 & Hlen1 & Htake1 & Hb1); try assumption.
    { rewrite Nat.div_mul by discriminate. lia. }
    rewrite Nat.div_mul in Htake1 by discriminate.
    fold (group_at buffer j0) in Htake1 |- *.
    pose proof (group_bytes_length (group_at buffer j0)) as Hgb.
    destruct (IH (S j0) (data + length (group_bytes (group_at buffer j0))) s1)
      as (r & s' & Hrun & Hoob & Hlen & Htake & Hres); try lia.
    { rewrite Htake1, Hmem, codes_of_S, payload_of_S.
      assert (Hrd : rd (mem s) (header + j0 / 4) = rd (header_of header_size (codes_of buffer j0)) (j0 / 4)).
      { unfold rd. rewrite !nth_lookup.
        rewrite <- (lookup_take_lt (mem s) data) by lia. rewrite Hmem.
        rewrite lookup_app_r by lia. rewrite Hpre.
        replace (header + j0 / 4 - header) with (j0 / 4) by lia.
        rewrite lookup_app_l by (rewrite header_of_length; exact Hslot). reflexivity. }
      rewrite Hrd, <- Hpre, insert_app_r.
      rewrite insert_app_l by (rewrite header_of_length; exact Hslot).
      rewrite header_snoc; rewrite ?codes_of_length;
        [|apply codes_of_code|apply bitslog2_of_code|exact Hslot].
      rewrite <- !app_assoc. reflexivity. }
    exists r, s'. split; [exact Hrun|]. split; [congruence|]. split; [congruence|].
    split; [exact Htake|].
    rewrite payload_of_cons, length_app. destruct r as [next|]; [|lia].
    destruct Hres as (-> & Hnext & Hfinal & Hb). repeat split; [lia|lia|exact Hfinal|].
    eapply beyond_trans; [|exact Hb]. eapply beyond_mono; [|exact Hb1]. lia.
Qed.

Lemma strided_groups (n : nat) :
  strided (n * kByteGroupSize) kByteGroupSize = (fun j => j * kByteGroupSize) <$> seq 0 n.
Proof.
  unfold strided. do 2 f_equal. unfold kByteGroupSize.
  replace (n * 16 + 16 - 1) with (15 + n * 16) by lia.
  rewrite Nat.div_add by discriminate. reflexivity.
Qed.

Lemma header_size_groups (n : nat) :
  (n * kByteGroupSize / kByteGroupSize + 3) / 4 = (n + 3) / 4.
Proof. rewrite Nat.div_mul by discriminate. reflexivity. Qed.

Lemma header_size_covers (n : nat) : n <= 4 * ((n + 3) / 4).
Proof. pose proof (Nat.div_mod_eq (n + 3) 4). pose proof (Nat.mod_upper_bound (n + 3) 4). lia. Qed.

Lemma channel_bytes_length (buffer : list Z) (n : nat) :
  length (channel_bytes buffer n) = (n + 3) / 4 + length (payload_of buffer 0 n).
Proof. unfold channel_bytes. rewrite length_app, header_of_length. reflexivity. Qed.

Lemma encodeBytes_spec (data data_end n : nat) (buffer : list Z) (s : store) :
  data <= data_end -> data_end <= length (mem s) -> (Z.of_nat data_end < 2 ^ 64)%Z ->
  exists r s',
    encodeBytes data data_end buffer (n * kByteGroupSize) s = (r, s')
    /\ within data s s'
    /\ match r with
       | Some next =>
           next = data + length (channel_bytes buffer n) /\ next <= data_end
           /\ take next (mem s') = take data (mem s) ++ channel_bytes buffer n
           /\ beyond (next + kByteGroupDecodeLimit) s s'
       | None => data_end < data + length (channel_bytes buffer n) + kByteGroupDecodeLimit
       end.
Proof.
  intros Hle Hend H64. unfold encodeBytes.
  rewrite header_size_groups, remaining_eq, strided_groups by assumption.
  set (header_size := (n + 3) / 4). rewrite channel_bytes_length. fold header_size.
  destruct (Nat.ltb_spec (data_end - data) header_size) as [Hfull|Hroom].
  { exists None, s. split; [reflexivity|]. split; [apply within_refl|lia]. }
  assert (Hset : within data s (memset data 0%Z header_size s)).
  { apply memcpy_within; [lia|]. rewrite length_replicate. lia. }
  destruct (encodeBytes_loop_spec data header_size data_end buffer n (take data (mem s)) H64
              (header_size_covers n) ltac:(rewrite length_take; lia)
              n 0 (data + header_size) (memset data 0%Z header_size s))
    as (r & s' & -> & Hoob & Hlen & Htake & Hres); try lia.
  { destruct Hset as (_ & -> & _). exact Hend. }
  { unfold memset. rewrite <- (length_replicate header_size 0%Z) at 1.
    rewrite memcpy_written by (rewrite length_replicate; lia).
    unfold codes_of, payload_of. simpl. rewrite header_of_nil, app_nil_r. reflexivity. }
  exists r, s'. split; [reflexivity|]. split.
  { destruct Hset as (Ho & Hl & Ht). repeat split; congruence. }
  destruct r as [next|]; [|lia].
  destruct Hres as (-> & Hnext & Hfinal & Hb). repeat split; [lia|exact Hnext|exact Hfinal|].
  eapply beyond_trans; [|exact Hb].
  apply memcpy_beyond; rewrite length_replicate; lia.
Qed.

(** ** The source array of a channel *)

Lemma rd_drop (l : list Z) (a i : nat) : rd (drop a l) i = rd l (a + i).
Proof. unfold rd. rewrite !nth_lookup, lookup_drop. reflexivity. Qed.

Lemma fold_left_ext {A B : Type} (f g : A -> B -> A) (l : list B) (a : A) :
  (forall x y, f x y = g x y) -> fold_left f l a = fold_left g l a.
Proof.
  intros H. revert a. induction l as [|y l IH]; intros a; simpl; [reflexivity|].
  rewrite H. apply IH.
Qed.

Section Extensionality.
Variables g g' : list Z.
Hypothesis Hrd : forall i, rd g i = rd g' i.

Lemma encodeBytesGroupZero_ext : encodeBytesGroupZero g = encodeBytesGroupZero g'.
Proof.
  unfold encodeBytesGroupZero. induction (seq 0 kByteGroupSize) as [|i l IH]; [reflexivity|].
  simpl. rewrite Hrd, IH. reflexivity.
Qed.

Lemma pack_byte_ext bits byte_size sentinel i :
  pack_byte g bits byte_size sentinel i = pack_byte g' bits byte_size sentinel i.
Proof. unfold pack_byte. apply fold_left_ext. intros byte k. rewrite Hrd. reflexivity. Qed.

Lemma group_payload_ext bits : group_payload g bits = group_payload g' bits.
Proof.
  unfold group_payload. rewrite encodeBytesGroupZero_ext.
  destruct (bits =? 1); [reflexivity|]. destruct (bits =? 8).
  - f_equal. apply list_fmap_ext. intros _ i _. apply Hrd.
  - f_equal. f_equal.
    + apply list_fmap_ext. intros _ i _. apply pack_byte_ext.
    + apply map_filter_ext. intros i _. rewrite Hrd. split; reflexivity.
Qed.

Lemma best_of_ext : best_of g = best_of g'.
Proof.
  unfold best_of. apply fold_left_ext. intros [bb bs] bits. unfold group_size.
  rewrite group_payload_ext. reflexivity.
Qed.

Lemma group_bytes_ext : group_bytes g = group_bytes g'.
Proof. unfold group_bytes, best_bits_of. rewrite best_of_ext, group_payload_ext. reflexivity. Qed.

Lemma group_code_ext : group_code g = group_code g'.
Proof. unfold group_code, best_bits_of. rewrite best_of_ext. reflexivity. Qed.
End Extensionality.

Lemma channel_bytes_ext (buffer buffer' : list Z) (n : nat) :
  (forall i, rd buffer i = rd buffer' i) -> channel_bytes buffer n = channel_bytes buffer' n.
Proof.
  intros Hrd.
  assert (Hg : forall j i, rd (group_at buffer j) i = rd (group_at buffer' j) i).
  { intros j i. unfold group_at. rewrite !rd_drop. apply Hrd. }
  unfold channel_bytes, codes_of, payload_of. f_equal; [f_equal|f_equal].
  - apply list_fmap_ext. intros _ j _. apply group_code_ext, Hg.
  - apply list_fmap_ext. intros _ j _. apply group_bytes_ext, Hg.
Qed.

Lemma align_group_spec (n : nat) : align_group n = n / 16 * 16.
Proof.
  unfold align_group, kByteGroupSize.
  change (Z.lnot (Z.of_nat 16 - 1)) with (Z.lnot (Z.ones 4)).
  rewrite <- Z.ldiff_land, Z.ldiff_ones_r by lia.
  rewrite Z.shiftr_div_pow2, Z.shiftl_mul_pow2 by lia.
  change (2 ^ 4)%Z with (Z.of_nat 16). rewrite <- (Nat2Z.inj_div n 16). lia.
Qed.

Lemma fill_channel_loop (vertex_data : list Z) (vertex_size k : nat) (m : nat) :
  forall (a : nat) (buffer : list Z) (p : Z),
    a + m <= length buffer ->
    fst (fst (fold_left
      (fun '(buffer, p, vertex_offset) i =>
         (<[i := zigzag8 (to_uchar (rd vertex_data vertex_offset - p))]> buffer,
          rd vertex_data vertex_offset,
          vertex_offset + vertex_size))
      (seq a m) (buffer, p, a * vertex_size + k)))
    = take a buffer
      ++ spec_deltas p ((fun i => rd vertex_data (i * vertex_size + k)) <$> seq a m)
      ++ drop (a + m) buffer.
Proof.
  induction m as [|m IH]; intros a buffer p Hlen.
  - simpl. rewrite Nat.add_0_r, take_drop. reflexivity.
  - cbn [seq fold_left fmap list_fmap spec_deltas].
    replace (a * vertex_size + k + vertex_size) with (S a * vertex_size + k) by lia.
    rewrite IH by (rewrite length_insert; lia).
    rewrite (take_S_r _ a (zigzag8 (to_uchar (rd vertex_data (a * vertex_size + k) - p))))
      by (apply list_lookup_insert_eq; lia).
    rewrite take_insert_ge by lia. rewrite drop_insert_lt by lia.
    rewrite <- app_assoc, Nat.add_succ_r. reflexivity.
Qed.

Lemma fill_channel_spec (vertex_data : list Z) (vertex_count vertex_size : nat)
    (last_vertex : list Z) (k : nat) (buffer : list Z) :
  vertex_count <= length buffer ->
  fill_channel vertex_data vertex_count vertex_size last_vertex k buffer
  = spec_deltas (rd last_vertex k) (column vertex_data vertex_count vertex_size k)
    ++ drop vertex_count buffer.
Proof.
  intros Hlen. unfold fill_channel.
  pose proof (fill_channel_loop vertex_data vertex_size k vertex_count 0 buffer
                (rd last_vertex k) Hlen) as H.
  cbn [Nat.add Nat.mul] in H. rewrite firstn_O, app_nil_l in H. unfold column. rewrite <- H.
  destruct (fold_left _ _ _) as [[b p] o]. reflexivity.
Qed.

Lemma spec_deltas_length (p : Z) (values : list Z) : length (spec_deltas p values) = length values.
Proof. revert p. induction values as [|v values IH]; intros p; simpl; [|rewrite IH]; reflexivity. Qed.

Lemma column_length vertex_data vertex_count vertex_size k :
  length (column vertex_data vertex_count vertex_size k) = vertex_count.
Proof. unfold column. rewrite length_fmap, length_seq. reflexivity. Qed.

(** ** encodeVertexBlock *)

Lemma rd_replicate_0 (m i : nat) : rd (replicate m 0%Z) i = 0%Z.
Proof.
  unfold rd. rewrite nth_lookup. destruct (replicate m 0%Z !! i) as [x|] eqn:Hx; [|reflexivity].
  apply lookup_replicate in Hx as [-> _]. reflexivity.
Qed.

Lemma rd_app (l1 l2 : list Z) (i : nat) :
  rd (l1 ++ l2) i = if i <? length l1 then rd l1 i else rd l2 (i - length l1).
Proof.
  unfold rd. destruct (Nat.ltb_spec i (length l1)).
  - apply app_nth1. assumption.
  - apply app_nth2. lia.
Qed.

Lemma padded_groups (vertex_count : nat) :
  align_group (vertex_count + kByteGroupSize - 1) = (vertex_count + 15) / 16 * kByteGroupSize.
Proof.
  rewrite align_group_spec. unfold kByteGroupSize.
  replace (vertex_count + 16 - 1) with (vertex_count + 15) by lia. reflexivity.
Qed.

Lemma spec_padded_length (deltas : list Z) :
  length (spec_padded deltas) = (length deltas + 15) / 16 * 16.
Proof.
  unfold spec_padded. rewrite length_app, length_replicate.
  pose proof (Nat.div_mod_eq (length deltas + 15) 16).
  pose proof (Nat.mod_upper_bound (length deltas + 15) 16). lia.
Qed.

Lemma filled_channel (vertex_data : list Z) (vertex_count vertex_size : nat)
    (last_vertex : list Z) (k : nat) (buffer : list Z) :
  vertex_count <= length buffer ->
  (forall i, vertex_count <= i -> rd buffer i = 0%Z) ->
  let buffer' := fill_channel vertex_data vertex_count vertex_size last_vertex k buffer in
  length buffer' = length buffer
  /\ (forall i, vertex_count <= i -> rd buffer' i = 0%Z)
  /\ channel_bytes buffer' ((vertex_count + 15) / 16)
     = spec_channel vertex_data vertex_count vertex_size last_vertex k.
Proof.
  intros Hlen Hzero buffer'. unfold buffer'. rewrite fill_channel_spec by exact Hlen.
  set (deltas := spec_deltas _ _).
  assert (Hd : length deltas = vertex_count).
  { unfold deltas. rewrite spec_deltas_length, column_length. reflexivity. }
  assert (Hhigh : forall i, vertex_count <= i -> rd (deltas ++ drop vertex_count buffer) i = 0%Z).
  { intros i Hi. rewrite rd_app, Hd. destruct (Nat.ltb_spec i vertex_count); [lia|].
    rewrite rd_drop. apply Hzero. lia. }
  split; [|split].
  - rewrite length_app, length_drop. lia.
  - exact Hhigh.
  - unfold spec_channel. fold deltas. rewrite spec_padded_length, Hd.
    rewrite Nat.div_mul by discriminate.
    apply channel_bytes_ext. intros i. unfold spec_padded.
    destruct (Nat.lt_ge_cases i vertex_count) as [Hlt|Hge].
    + rewrite !rd_app, Hd. apply Nat.ltb_lt in Hlt. rewrite Hlt. reflexivity.
    + rewrite Hhigh by exact Hge. rewrite rd_app, Hd.
      destruct (Nat.ltb_spec i vertex_count); [lia|]. symmetry. apply rd_replicate_0.
Qed.

Lemma encodeVertexBlock_channels_spec (data_end : nat) (vertex_data : list Z)
    (vertex_count vertex_size : nat) (last_vertex : list Z) :
  (Z.of_nat data_end < 2 ^ 64)%Z ->
  forall m k0 buffer data s,
    vertex_count <= length buffer ->
    (forall i, vertex_count <= i -> rd buffer i = 0%Z) ->
    data <= data_end -> data_end <= length (mem s) ->
    let bytes :=
      concat ((fun k => spec_channel vertex_data vertex_count vertex_size last_vertex k)
                <$> seq k0 m) in
    exists r s',
      encodeVertexBlock_channels (seq k0 m) data_end vertex_data vertex_count vertex_size
        last_vertex buffer data s = (r, s')
      /\ within data s s'
      /\ match r with
         | Some next =>
             next = data + length bytes /\ next <= data_end
             /\ take next (mem s') = take data (mem s) ++ bytes
             /\ beyond (next + kByteGroupDecodeLimit) s s'
         | None => data_end < data + length bytes + kByteGroupDecodeLimit
         end.
Proof.
  intros H64. induction m as [|m IH]; intros k0 buffer data s Hlen Hzero Hle Hend bytes.
  - exists (Some data), s. simpl. split; [reflexivity|]. split; [apply within_refl|].
    unfold bytes. simpl. rewrite Nat.add_0_r, app_nil_r. repeat split; auto.
  - subst bytes. cbn [seq encodeVertexBlock_channels fmap list_fmap concat].
    rewrite length_app.
    destruct (filled_channel vertex_data vertex_count vertex_size last_vertex k0 buffer Hlen Hzero)
      as (Hlen' & Hzero' & Hbytes).
    rewrite padded_groups.
    destruct (encodeBytes_spec data data_end ((vertex_count + 15) / 16)
                (fill_channel vertex_data vertex_count vertex_size last_vertex k0 buffer) s
                Hle Hend H64) as (r1 & s1 & -> & Hw1 & Hres1).
    rewrite Hbytes in Hres1.
    destruct r1 as [next1|].
    + destruct Hres1 as (-> & Hnext1 & Htake1 & Hb1).
      destruct (IH (S k0) _ _ s1 ltac:(rewrite Hlen'; exact Hlen) Hzero' Hnext1
                  ltac:(destruct Hw1 as (_ & -> & _); exact Hend))
        as (r & s' & -> & Hw & Hres).
      exists r, s'. split; [reflexivity|]. split.
      { eapply within_trans; [exact Hw1|]. eapply within_mono; [|exact Hw]. lia. }
      destruct r as [next|]; [|lia].
      destruct Hres as (-> & Hnext & Htake & Hb). repeat split; [lia|exact Hnext| |].
      * rewrite Htake, Htake1, <- app_assoc. reflexivity.
      * eapply beyond_trans; [|exact Hb]. eapply beyond_mono; [|exact Hb1]. lia.
    + exists None, s1. split; [reflexivity|]. split; [exact Hw1|lia].
Qed.

(** The bytes of a block, the cursor and the array [last_vertex] after
    [encodeVertexBlock]. *)
Lemma encodeVertexBlock_run (data data_end : nat) (vertex_data : list Z)
    (vertex_count vertex_size : nat) (last_vertex : list Z) (s : store) :
  1 <= vertex_count <= 256 ->
  data <= data_end -> data_end <= length (mem s) -> (Z.of_nat data_end < 2 ^ 64)%Z ->
  let bytes := spec_block vertex_data vertex_count vertex_size last_vertex in
  exists r last_vertex' s',
    encodeVertexBlock data data_end vertex_data vertex_count vertex_size last_vertex s
    = (r, last_vertex', s')
    /\ within data s s'
    /\ match r with
       | Some next =>
           next = data + length bytes /\ next <= data_end
           /\ take next (mem s') = take data (mem s) ++ bytes
           /\ beyond (next + kByteGroupDecodeLimit) s s'
           /\ last_vertex'
              = record vertex_data vertex_size (vertex_count - 1) ++ drop vertex_size last_vertex
       | None =>
           last_vertex' = last_vertex
           /\ data_end < data + length bytes + kByteGroupDecodeLimit
       end.
Proof.
  intros Hcount Hle Hend H64 bytes. unfold encodeVertexBlock.
  destruct (encodeVertexBlock_channels_spec data_end vertex_data vertex_count vertex_size
              last_vertex H64 vertex_size 0 (replicate kVertexBlockMaxSize 0%Z) data s)
    as (r & s' & -> & Hw & Hres); try assumption.
  { rewrite length_replicate. unfold kVertexBlockMaxSize. lia. }
  { intros i _. apply rd_replicate_0. }
  fold bytes in Hres. destruct r as [next|].
  - exists (Some next). eexists. exists s'. split; [reflexivity|]. split; [exact Hw|].
    destruct Hres as (? & ? & ? & ?). repeat split; try assumption.
    unfold array_copy, record. rewrite length_fmap, length_seq. reflexivity.
  - exists None, last_vertex, s'. auto.
Qed.

(** ** The blocks of encodeV1 *)

Lemma getVertexBlockSize_spec (vertex_size : nat) :
  getVertexBlockSize vertex_size = spec_block_vertices vertex_size.
Proof.
  unfold getVertexBlockSize, spec_block_vertices, kVertexBlockSizeBytes, kVertexBlockMaxSize.
  rewrite align_group_spec.
  destruct (Nat.ltb_spec (Z.to_nat 8192 / vertex_size / 16 * 16) 256); lia.
Qed.

Lemma spec_block_vertices_range (vertex_size : nat) :
  0 < vertex_size <= 256 -> 32 <= spec_block_vertices vertex_size <= 256.
Proof.
  intros Hvs. unfold spec_block_vertices.
  assert (32 <= Z.to_nat 8192 / vertex_size) by (apply Nat.div_le_lower_bound; lia).
  assert (2 <= Z.to_nat 8192 / vertex_size / 16) by (apply Nat.div_le_lower_bound; lia).
  lia.
Qed.

Lemma block_count_spec (vertex_count block_vertices b : nat) :
  0 < block_vertices ->
  b < block_count vertex_count block_vertices <-> b * block_vertices < vertex_count.
Proof.
  intros Hbv. unfold block_count.
  pose proof (Nat.div_mod_eq (vertex_count + block_vertices - 1) block_vertices) as Hdiv.
  pose proof (Nat.mod_upper_bound (vertex_count + block_vertices - 1) block_vertices
                ltac:(lia)) as Hmod.
  split; intros H; nia.
Qed.

Lemma spec_channel_ext (vertex_data : list Z) (vertex_count vertex_size : nat)
    (last_vertex last_vertex' : list Z) (k : nat) :
  rd last_vertex k = rd last_vertex' k ->
  spec_channel vertex_data vertex_count vertex_size last_vertex k
  = spec_channel vertex_data vertex_count vertex_size last_vertex' k.
Proof. intros H. unfold spec_channel. rewrite H. reflexivity. Qed.

Lemma spec_block_ext (vertex_data : list Z) (vertex_count vertex_size : nat)
    (last_vertex last_vertex' : list Z) :
  (forall k, k < vertex_size -> rd last_vertex k = rd last_vertex' k) ->
  spec_block vertex_data vertex_count vertex_size last_vertex
  = spec_block vertex_data vertex_count vertex_size last_vertex'.
Proof.
  intros H. unfold spec_block. f_equal. apply list_fmap_ext. intros i k Hk.
  apply spec_channel_ext, H. apply lookup_seq in Hk. lia.
Qed.

Lemma rd_record (vertex_data : list Z) (vertex_size i k : nat) :
  k < vertex_size -> rd (record vertex_data vertex_size i) k = rd vertex_data (vertex_size * i + k).
Proof.
  intros Hk. unfold record, rd at 1.
  rewrite nth_lookup, list_lookup_fmap, lookup_seq_lt by exact Hk. reflexivity.
Qed.

Lemma record_length (vertex_data : list Z) (vertex_size i : nat) :
  length (record vertex_data vertex_size i) = vertex_size.
Proof. unfold record. rewrite length_fmap, length_seq. reflexivity. Qed.

Lemma spec_blocks_cons vertex_data vertex_count vertex_size block_vertices b m :
  spec_blocks vertex_data vertex_count vertex_size block_vertices b (S m)
  = spec_stream_block vertex_data vertex_count vertex_size block_vertices b
    ++ spec_blocks vertex_data vertex_count vertex_size block_vertices (S b) m.
Proof. reflexivity. Qed.

Lemma encodeV1_blocks_spec (data_end : nat) (vertex_data : list Z)
    (vertex_count vertex_size block_vertices : nat) :
  (Z.of_nat data_end < 2 ^ 64)%Z -> 0 < block_vertices <= 256 ->
  forall m b fuel last_vertex data s,
    b + m = Nat.max b (block_count vertex_count block_vertices) ->
    vertex_count - b * block_vertices <= fuel ->
    (forall k, k < vertex_size ->
       rd last_vertex k
       = rd (spec_predictor vertex_data vertex_count vertex_size block_vertices b) k) ->
    data <= data_end -> data_end <= length (mem s) ->
    let bytes := spec_blocks vertex_data vertex_count vertex_size block_vertices b m in
    exists r last_vertex' s',
      encodeV1_blocks fuel data_end vertex_data vertex_count vertex_size block_vertices
        (Nat.min (b * block_vertices) vertex_count) last_vertex data s
      = Some (r, last_vertex', s')
      /\ within data s s'
      /\ match r with
         | Some next =>
             next = data + length bytes /\ next <= data_end
             /\ take next (mem s') = take data (mem s) ++ bytes
             /\ beyond (next + kByteGroupDecodeLimit) s s'
         | None => data_end < data + length bytes + kByteGroupDecodeLimit
         end.
Proof.
  intros H64 Hbv. induction m as [|m IH];
    intros b fuel last_vertex data s Hm Hfuel Hlast Hle Hend bytes; subst bytes.
  - assert (Hdone : ~ b * block_vertices < vertex_count).
    { rewrite <- block_count_spec by lia. lia. }
    exists (Some data), last_vertex, s.
    destruct fuel; simpl;
      (destruct (Nat.ltb_spec (Nat.min (b * block_vertices) vertex_count) vertex_count); [lia|]);
      (split; [reflexivity|]); (split; [apply within_refl|]);
      unfold spec_blocks; simpl; rewrite Nat.add_0_r, app_nil_r; repeat split; auto.
  - assert (Hmore : b * block_vertices < vertex_count).
    { rewrite <- block_count_spec by lia. lia. }
    rewrite Nat.min_l by lia.
    destruct fuel as [|fuel]; [lia|]. cbn [encodeV1_blocks].
    apply Nat.ltb_lt in Hmore as Hmore'. rewrite Hmore'. clear Hmore'.
    assert (Hsize : (if b * block_vertices + block_vertices <? vertex_count
                     then block_vertices else vertex_count - b * block_vertices)
                    = block_length vertex_count block_vertices b).
    { unfold block_length.
      destruct (Nat.ltb_spec (b * block_vertices + block_vertices) vertex_count); lia. }
    rewrite Hsize. clear Hsize.
    assert (Hlen : 1 <= block_length vertex_count block_vertices b <= 256)
      by (unfold block_length; lia).
    destruct (encodeVertexBlock_run data data_end
                (drop (b * block_vertices * vertex_size) vertex_data)
                (block_length vertex_count block_vertices b) vertex_size last_vertex s
                Hlen Hle Hend H64) as (r1 & last1 & s1 & -> & Hw1 & Hres1).
    rewrite (spec_block_ext _ _ _ last_vertex
               (spec_predictor vertex_data vertex_count vertex_size block_vertices b) Hlast)
      in Hres1.
    fold (spec_stream_block vertex_data vertex_count vertex_size block_vertices b) in Hres1.
    rewrite spec_blocks_cons, length_app.
    destruct r1 as [next1|].
    + destruct Hres1 as (-> & Hnext1 & Htake1 & Hb1 & ->).
      replace (b * block_vertices + block_length vertex_count block_vertices b)
        with (Nat.min (S b * block_vertices) vertex_count) by (unfold block_length; lia).
      edestruct (IH (S b) fuel) as (r & last' & s' & -> & Hw & Hres);
        [| |  |exact Hnext1| |].
      * lia.
      * unfold block_length in *. lia.
      * intros k Hk. rewrite rd_app, record_length.
        apply Nat.ltb_lt in Hk as Hk'. rewrite Hk'.
        cbn [spec_predictor]. rewrite !rd_record by exact Hk. rewrite rd_drop.
        f_equal. nia.
      * destruct Hw1 as (_ & -> & _). exact Hend.
      * exists r, last', s'. split; [reflexivity|]. split.
        { eapply within_trans; [exact Hw1|]. eapply within_mono; [|exact Hw]. lia. }
        destruct r as [next|]; [|lia].
        destruct Hres as (-> & Hnext & Htake & Hb). repeat split; [lia|exact Hnext| |].
        -- rewrite Htake, Htake1, <- app_assoc. reflexivity.
        -- eapply beyond_trans; [|exact Hb]. eapply beyond_mono; [|exact Hb1]. lia.
    + destruct Hres1 as (-> & Hfull).
      exists None, last_vertex, s1. split; [reflexivity|]. split; [exact Hw1|lia].
Qed.

(** ** encodeV1 *)

Lemma spec_first_vertex_length (vertex_data : list Z) (vertex_count vertex_size : nat) :
  length (spec_first_vertex vertex_data vertex_count vertex_size) = vertex_size.
Proof.
  unfold spec_first_vertex. destruct (vertex_count =? 0).
  - apply length_replicate.
  - apply record_length.
Qed.

Lemma spec_tail_length (vertex_size : nat) (first_vertex : list Z) :
  length first_vertex = vertex_size ->
  length (spec_tail vertex_size first_vertex) = Nat.max vertex_size 32.
Proof. intros H. unfold spec_tail. rewrite length_app, length_replicate. lia. Qed.

Lemma spec_stream_length (vertex_data : list Z) (vertex_count vertex_size : nat) :
  length (spec_stream vertex_data vertex_count vertex_size)
  = 1 + length (spec_blocks vertex_data vertex_count vertex_size (spec_block_vertices vertex_size)
                  0 (block_count vertex_count (spec_block_vertices vertex_size)))
    + Nat.max vertex_size 32.
Proof.
  unfold spec_stream. cbn [app length]. rewrite length_app.
  rewrite spec_tail_length by apply spec_first_vertex_length. lia.
Qed.

Lemma captured_first_vertex (vertex_data : list Z) (vertex_count vertex_size : nat) :
  vertex_size <= 256 ->
  take vertex_size
    (if 0 <? vertex_count
     then array_copy (replicate 256 0%Z) (rd vertex_data <$> seq 0 vertex_size)
     else replicate 256 0%Z)
  = spec_first_vertex vertex_data vertex_count vertex_size.
Proof.
  intros Hvs. unfold spec_first_vertex, array_copy, record.
  destruct (Nat.ltb_spec 0 vertex_count), (Nat.eqb_spec vertex_count 0); try lia.
  - rewrite Nat.mul_0_r. apply take_app_length'. rewrite length_fmap, length_seq. reflexivity.
  - rewrite take_replicate. f_equal. lia.
Qed.

Lemma encodeV1_spec (buffer_size : nat) (vertices : list Z) (vertex_count vertex_size : nat)
    (s : store) :
  0 < vertex_size <= 256 -> length (mem s) = buffer_size -> (Z.of_nat buffer_size < 2 ^ 64)%Z ->
  let stream := spec_stream vertices vertex_count vertex_size in
  exists r s',
    encodeV1 buffer_size vertices vertex_count vertex_size s = Some (r, s')
    /\ oob s' = oob s /\ length (mem s') = length (mem s)
    /\ (length stream <= buffer_size /\ r = length stream /\ take r (mem s') = stream
        /\ beyond r s s'
        \/ buffer_size < length stream /\ r = 0).
Proof.
  intros Hvs Hsize H64 stream.
  pose proof (spec_stream_length vertices vertex_count vertex_size) as Hstream.
  fold stream in Hstream.
  pose proof (spec_block_vertices_range vertex_size Hvs) as Hbv.
  unfold encodeV1. rewrite remaining_eq by lia. rewrite Nat.sub_0_r.
  destruct (Nat.ltb_spec buffer_size (1 + vertex_size)) as [Hsmall|Hroom].
  { exists 0, s. split; [reflexivity|]. split; [reflexivity|]. split; [reflexivity|]. right. lia. }
  rewrite captured_first_vertex by lia. rewrite getVertexBlockSize_spec.
  set (first_vertex := spec_first_vertex vertices vertex_count vertex_size) in *.
  pose proof (spec_first_vertex_length vertices vertex_count vertex_size) as Hfirst.
  fold first_vertex in Hfirst.
  set (s1 := poke 0 (to_uchar (Z.lor kVertexHeader gEncodeVertexVersion)) s).
  assert (Hs1 : oob s1 = oob s /\ length (mem s1) = length (mem s)
                /\ take 1 (mem s1) = [Z.lor 0xA0 1]).
  { unfold s1. rewrite poke_inside by lia. simpl. rewrite length_insert.
    split; [reflexivity|]. split; [reflexivity|].
    destruct (mem s) as [|x l]; [simpl in *; lia|]. reflexivity. }
  assert (Hb1 : beyond 1 s s1) by (apply poke_beyond; lia).
  destruct Hs1 as (Hoob1 & Hlen1 & Htake1).
  destruct (encodeV1_blocks_spec buffer_size vertices vertex_count vertex_size
              (spec_block_vertices vertex_size) H64 ltac:(lia)
              (block_count vertex_count (spec_block_vertices vertex_size)) 0 vertex_count
              (array_copy (replicate 256 0%Z) first_vertex) 1 s1)
    as (r1 & last1 & s2 & Hrun & Hw2 & Hres2); try lia.
  { intros k Hk. unfold array_copy. rewrite rd_app, Hfirst.
    apply Nat.ltb_lt in Hk. rewrite Hk. reflexivity. }
  change (Nat.min (0 * spec_block_vertices vertex_size) vertex_count) with 0 in Hrun.
  rewrite Hrun. clear Hrun. destruct Hw2 as (Hoob2 & Hlen2 & Htake2).
  destruct r1 as [data|].
  2:{ exists 0, s2. split; [reflexivity|]. split; [congruence|]. split; [congruence|].
      right. unfold kByteGroupDecodeLimit in *. lia. }
  destruct Hres2 as (Hdata & Hle & Hblocks & Hb2).
  assert (Htail : (if vertex_size <? kTailMaxSize then kTailMaxSize else vertex_size)
                  = Nat.max vertex_size 32).
  { unfold kTailMaxSize. destruct (Nat.ltb_spec vertex_size 32); lia. }
  rewrite Htail, remaining_eq by lia.
  destruct (Nat.ltb_spec (buffer_size - data) (Nat.max vertex_size 32)) as [Hfull|Hfits].
  { exists 0, s2. split; [reflexivity|]. split; [congruence|]. split; [congruence|].
    right. lia. }
  assert (Hpad : (if vertex_size <? kTailMaxSize
                  then (data + (kTailMaxSize - vertex_size),
                        memset data 0%Z (kTailMaxSize - vertex_size) s2)
                  else (data, s2))
                 = (data + length (replicate (32 - vertex_size) 0%Z),
                    memcpy data (replicate (32 - vertex_size) 0%Z) s2)).
  { unfold kTailMaxSize, memset. rewrite length_replicate.
    destruct (Nat.ltb_spec vertex_size 32); [reflexivity|].
    replace (32 - vertex_size) with 0 by lia. simpl. rewrite Nat.add_0_r. reflexivity. }
  rewrite Hpad. clear Hpad. rewrite <- memcpy_app. fold (spec_tail vertex_size first_vertex).
  pose proof (spec_tail_length vertex_size first_vertex Hfirst) as Htl.
  eexists. eexists. split; [reflexivity|].
  rewrite memcpy_inside by lia. cbn [mem oob].
  split; [congruence|]. split.
  { rewrite !length_app, length_take, length_drop. lia. }
  left. split; [lia|]. split.
  { rewrite length_replicate. lia. }
  split.
  - rewrite app_assoc. rewrite take_app_length'.
    + rewrite Hblocks, Htake1. reflexivity.
    + rewrite length_app, length_take, length_replicate. lia.
  - rewrite length_replicate.
    replace (data + (32 - vertex_size) + vertex_size - 0)
      with (data + length (spec_tail vertex_size first_vertex)) by lia.
    eapply beyond_trans; [eapply beyond_mono; [|exact Hb1]; lia|].
    eapply beyond_trans; [eapply beyond_mono; [|exact Hb2]; unfold kByteGroupDecodeLimit; lia|].
    unfold beyond. rewrite app_assoc. apply drop_app_length'.
    rewrite length_app, length_take. lia.
Qed.


(** ** The stream of encodeV1 *)

(** C1: a successful [encodeV1] (a non-zero result) writes the format byte
    [0xA0 | 1 = 0xA1], then the encodings of the consecutive blocks of
    [min(256, floor(8192 / vertex_size) rounded down to a multiple of 16)]
    records, the last one holding the remainder, then the tail of
    [max(vertex_size, 32)] bytes: [32 - vertex_size] zeros and the first
    record; the result is the number of bytes written (the buffer is as it
    was from there on). *)
Theorem encodeV1_layout (buffer_size : nat) (vertices : list Z) (vertex_count vertex_size : nat)
    (s : store) (r : nat) (s' : store) :
  0 < vertex_size <= 256 -> vertex_size mod 4 = 0 ->
  length (mem s) = buffer_size -> (Z.of_nat buffer_size < 2 ^ 64)%Z ->
  encodeV1 buffer_size vertices vertex_count vertex_size s = Some (r, s') -> r <> 0 ->
  let block_vertices := Nat.min 256 (Z.to_nat 8192 / vertex_size / 16 * 16) in
  let blocks :=
    concat ((fun b =>
               spec_block (drop (b * block_vertices * vertex_size) vertices)
                 (Nat.min block_vertices (vertex_count - b * block_vertices)) vertex_size
                 (spec_predictor vertices vertex_count vertex_size block_vertices b))
              <$> seq 0 ((vertex_count + block_vertices - 1) / block_vertices)) in
  let first_vertex := spec_first_vertex vertices vertex_count vertex_size in
  let tail := replicate (32 - vertex_size) 0%Z ++ first_vertex in
  take r (mem s') = [Z.lor 0xA0 1] ++ blocks ++ tail
  /\ r = length ([Z.lor 0xA0 1] ++ blocks ++ tail)
  /\ drop r (mem s') = drop r (mem s)
  /\ Z.lor 0xA0 1 = 0xA1%Z
  /\ getVertexBlockSize vertex_size = block_vertices
  /\ length tail = Nat.max vertex_size 32
  /\ (0 < vertex_count -> first_vertex = record vertices vertex_size 0).
Proof.
  intros Hvs _ Hsize H64 Hrun Hr block_vertices blocks first_vertex tail.
  destruct (encodeV1_spec buffer_size vertices vertex_count vertex_size s Hvs Hsize H64)
    as (r0 & s0 & Hrun0 & _ & _ & Hres).
  rewrite Hrun in Hrun0. injection Hrun0 as <- <-.
  destruct Hres as [(_ & Hlen & Htake & Hrest)|[_ Hzero]]; [|contradiction].
  split; [exact Htake|]. split; [exact Hlen|]. split; [exact Hrest|]. split; [reflexivity|].
  split; [apply getVertexBlockSize_spec|]. split.
  - apply (spec_tail_length vertex_size first_vertex), spec_first_vertex_length.
  - intros Hcount. unfold first_vertex, spec_first_vertex.
    destruct (Nat.eqb_spec vertex_count 0); [lia|reflexivity].
Qed.

Lemma encodeV1_layout_witness :
  exists r s',
    encodeV1 64 sample_vertices 4 4 (sample_store 64) = Some (r, s')
    /\ take r (mem s')
       = [161; 1; 43; 0; 0; 0; 5; 0; 0; 0]%Z ++ replicate 28 0%Z ++ [0; 0; 0; 0]%Z
    /\ r = 42.
Proof.
  eexists _, _. split; [vm_compute; reflexivity|].
  destruct (encodeV1_layout 64 sample_vertices 4 4 (sample_store 64) 42
              (Store ([161; 1; 43; 0; 0; 0; 5; 0; 0; 0]%Z ++ replicate 32 0%Z
                      ++ replicate 22 0xCD%Z) []))
    as (Htake & Hlen & _); [lia|reflexivity|reflexivity|simpl; lia|vm_compute; reflexivity|lia|].
  split; [exact Htake|exact Hlen].
Defined.

(** C6: let [stream] be the bytes of a valid input (the format byte, the
    blocks and the tail, as in C1) and [R] their number, which is at least
    [1 + max(vertex_size, 32)] and so not 0.  For every capacity below [R]
    [encodeV1] returns 0, and for every capacity of at least [R] it
    succeeds and returns [R], the buffer then holds [stream] followed by
    what it held from offset [R] on; no capacity makes it write outside of
    the buffer.  So [R] and [stream] are the result and the bytes of every
    successful run, of an unconstrained one in particular. *)
Theorem encodeV1_capacity (vertices : list Z) (vertex_count vertex_size : nat) :
  0 < vertex_size <= 256 -> vertex_size mod 4 = 0 ->
  let block_vertices := Nat.min 256 (Z.to_nat 8192 / vertex_size / 16 * 16) in
  let blocks :=
    concat ((fun b =>
               spec_block (drop (b * block_vertices * vertex_size) vertices)
                 (Nat.min block_vertices (vertex_count - b * block_vertices)) vertex_size
                 (spec_predictor vertices vertex_count vertex_size block_vertices b))
              <$> seq 0 ((vertex_count + block_vertices - 1) / block_vertices)) in
  let tail :=
    replicate (32 - vertex_size) 0%Z ++ spec_first_vertex vertices vertex_count vertex_size in
  let stream := [Z.lor 0xA0 1] ++ blocks ++ tail in
  let R := length stream in
  1 + Nat.max vertex_size 32 <= R
  /\ (forall buffer_size s,
        length (mem s) = buffer_size -> (Z.of_nat buffer_size < 2 ^ 64)%Z ->
        buffer_size < R ->
        exists s',
          encodeV1 buffer_size vertices vertex_count vertex_size s = Some (0, s')
          /\ oob s' = oob s)
  /\ (forall buffer_size s,
        length (mem s) = buffer_size -> (Z.of_nat buffer_size < 2 ^ 64)%Z ->
        R <= buffer_size ->
        exists s',
          encodeV1 buffer_size vertices vertex_count vertex_size s = Some (R, s')
          /\ mem s' = stream ++ drop R (mem s)
          /\ oob s' = oob s)
  /\ (forall buffer_size s r s',
        length (mem s) = buffer_size -> (Z.of_nat buffer_size < 2 ^ 64)%Z ->
        encodeV1 buffer_size vertices vertex_count vertex_size s = Some (r, s') -> r <> 0 ->
        r = R /\ take r (mem s') = stream).
Proof.
  intros Hvs _ block_vertices blocks tail stream R.
  assert (Hstream : stream = spec_stream vertices vertex_count vertex_size) by reflexivity.
  assert (HR : 1 + Nat.max vertex_size 32 <= R).
  { unfold R. rewrite Hstream, spec_stream_length. lia. }
  split; [exact HR|]. unfold R. rewrite Hstream. clear HR R Hstream stream tail blocks.
  split; [|split].
  - intros buffer_size s Hsize H64 Hcap.
    destruct (encodeV1_spec buffer_size vertices vertex_count vertex_size s Hvs Hsize H64)
      as (r & s' & Hrun & Hoob & _ & [(Hfit & -> & Htake & Hrest)|(Hshort & ->)]); [lia|].
    exists s'. split; [exact Hrun|exact Hoob].
  - intros buffer_size s Hsize H64 Hcap.
    destruct (encodeV1_spec buffer_size vertices vertex_count vertex_size s Hvs Hsize H64)
      as (r & s' & Hrun & Hoob & _ & [(Hfit & -> & Htake & Hrest)|(Hshort & ->)]); [|lia].
    exists s'. split; [exact Hrun|]. split; [|exact Hoob]. unfold beyond in Hrest.
    rewrite <- Hrest, <- Htake at 1. symmetry. apply take_drop.
  - intros buffer_size s r s' Hsize H64 Hrun Hr.
    destruct (encodeV1_spec buffer_size vertices vertex_count vertex_size s Hvs Hsize H64)
      as (r0 & s0 & Hrun0 & _ & _ & Hres).
    rewrite Hrun in Hrun0. injection Hrun0 as <- <-.
    destruct Hres as [(_ & Hlen & Htake & _)|[_ Hzero]]; [|contradiction].
    split; [exact Hlen|exact Htake].
Qed.

Lemma encodeV1_capacity_witness :
  (forall buffer_size s,
     length (mem s) = buffer_size -> (Z.of_nat buffer_size < 2 ^ 64)%Z ->
     buffer_size < 42 ->
     exists s', encodeV1 buffer_size sample_vertices 4 4 s = Some (0, s'))
  /\ (forall buffer_size s,
        length (mem s) = buffer_size -> (Z.of_nat buffer_size < 2 ^ 64)%Z ->
        42 <= buffer_size ->
        exists s',
          encodeV1 buffer_size sample_vertices 4 4 s = Some (42, s')
          /\ mem s'
             = ([161; 1; 43; 0; 0; 0; 5; 0; 0; 0]%Z ++ replicate 32 0%Z) ++ drop 42 (mem s)).
Proof.
  pose proof (encodeV1_capacity sample_vertices 4 4 ltac:(lia) eq_refl) as H.
  cbv zeta in H. destruct H as (_ & Hlow & Hhigh & _).
  match type of Hhigh with
  | context [mem _ = ?stream ++ _] =>
      assert (E : stream = [161; 1; 43; 0; 0; 0; 5; 0; 0; 0]%Z ++ replicate 32 0%Z)
        by (vm_compute; reflexivity);
      rewrite E in Hlow, Hhigh
  end.
  change (length ([161; 1; 43; 0; 0; 0; 5; 0; 0; 0]%Z ++ replicate 32 0%Z)) with 42
    in Hlow, Hhigh.
  split.
  - intros buffer_size s Hsize H64 Hcap.
    destruct (Hlow buffer_size s Hsize H64 Hcap) as (s' & Hrun & _). exists s'. exact Hrun.
  - intros buffer_size s Hsize H64 Hcap.
    destruct (Hhigh buffer_size s Hsize H64 Hcap) as (s' & Hrun & Hmem & _).
    exists s'. split; [exact Hrun|exact Hmem].
Defined.

(** C10: without records, and with room for [1 + max(vertex_size, 32)]
    bytes, [encodeV1] returns [1 + max(vertex_size, 32)]: the format byte
    0xA1 and a tail of zeros. *)
Theorem encodeV1_empty (buffer_size : nat) (vertices : list Z) (vertex_size : nat) (s : store) :
  0 < vertex_size <= 256 -> vertex_size mod 4 = 0 ->
  length (mem s) = buffer_size -> (Z.of_nat buffer_size < 2 ^ 64)%Z ->
  1 + Nat.max vertex_size 32 <= buffer_size ->
  exists s',
    encodeV1 buffer_size vertices 0 vertex_size s = Some (1 + Nat.max vertex_size 32, s')
    /\ take (1 + Nat.max vertex_size 32) (mem s')
       = 0xA1%Z :: replicate (Nat.max vertex_size 32) 0%Z.
Proof.
  intros Hvs _ Hsize H64 Hroom.
  pose proof (spec_block_vertices_range vertex_size Hvs) as Hbv.
  assert (Hstream : spec_stream vertices 0 vertex_size
                    = 0xA1%Z :: replicate (Nat.max vertex_size 32) 0%Z).
  { unfold spec_stream, block_count, spec_tail, spec_first_vertex. simpl (0 =? 0).
    rewrite Nat.div_small by lia. cbn [seq fmap list_fmap concat spec_blocks app].
    unfold spec_blocks. cbn [seq fmap list_fmap concat app].
    rewrite <- replicate_add. do 2 f_equal. lia. }
  destruct (encodeV1_spec buffer_size vertices 0 vertex_size s Hvs Hsize H64)
    as (r & s' & Hrun & _ & _ & Hres).
  rewrite Hstream in Hres. cbn [length] in Hres. rewrite length_replicate in Hres.
  destruct Hres as [(_ & -> & Htake & _)|(Hshort & _)]; [|lia].
  exists s'. split; [exact Hrun|exact Htake].
Qed.

Lemma encodeV1_empty_witness :
  exists s',
    encodeV1 40 [] 0 8 (sample_store 40) = Some (33, s')
    /\ take 33 (mem s') = 0xA1%Z :: replicate 32 0%Z.
Proof.
  apply (encodeV1_empty 40 [] 8 (sample_store 40)); [lia|reflexivity|reflexivity|simpl; lia|simpl; lia].
Defined.

(** ** The layout of a channel *)

Lemma header_slot_of (header_size : nat) (codes : list Z) (j : nat) :
  Forall is_code codes -> j / 4 < header_size ->
  header_slot (header_of header_size codes) j = rd codes j.
Proof.
  intros Hcodes Hj. unfold header_slot, header_of. rewrite rd_fmap_seq by exact Hj.
  pose proof (Nat.div_mod_eq j 4) as Hdiv. pose proof (Nat.mod_upper_bound j 4 ltac:(lia)) as Hr.
  generalize dependent (j mod 4). generalize dependent (j / 4). intros q _ r Hdiv Hr.
  unfold header_byte.
  pose proof (rd_code codes (4 * q) Hcodes) as H0.
  pose proof (rd_code codes (4 * q + 1) Hcodes) as H1.
  pose proof (rd_code codes (4 * q + 2) Hcodes) as H2.
  pose proof (rd_code codes (4 * q + 3) Hcodes) as H3.
  unfold is_code in *.
  change 3%Z with (Z.ones 2). rewrite Z.land_ones, Z.shiftr_div_pow2 by lia.
  destruct r as [|[|[|[|r]]]]; [| | | |lia]; subst j.
  - rewrite Nat.add_0_r. change (2 ^ Z.of_nat (2 * 0))%Z with 1%Z. change (2 ^ 2)%Z with 4%Z.
    Z.div_mod_to_equations. lia.
  - change (2 ^ Z.of_nat (2 * 1))%Z with 4%Z. change (2 ^ 2)%Z with 4%Z.
    Z.div_mod_to_equations. lia.
  - change (2 ^ Z.of_nat (2 * 2))%Z with 16%Z. change (2 ^ 2)%Z with 4%Z.
    Z.div_mod_to_equations. lia.
  - change (2 ^ Z.of_nat (2 * 3))%Z with 64%Z. change (2 ^ 2)%Z with 4%Z.
    Z.div_mod_to_equations. lia.
Qed.

Lemma bitslog2_of_log2 (bits : nat) :
  bits ∈ [1; 2; 4; 8] -> bitslog2_of bits = Z.log2 (Z.of_nat bits).
Proof.
  intros H. repeat (apply elem_of_cons in H as [->|H]); try reflexivity.
  by apply elem_of_nil in H.
Qed.

Lemma rd_codes_of (buffer : list Z) (n j : nat) :
  rd (codes_of buffer n) j = if j <? n then group_code (group_at buffer j) else 0%Z.
Proof.
  destruct (Nat.ltb_spec j n) as [Hlt|Hge].
  - unfold codes_of. apply rd_fmap_seq. exact Hlt.
  - apply rd_overflow. rewrite codes_of_length. exact Hge.
Qed.

(** C2: for a source array of [n] groups, a successful [encodeBytes] writes
    [ceil(n / 4)] header bytes and then the payloads of the groups in order.
    The width of a group is the candidate that section 4.3 describes: 8
    unless 1, 2 or 4, tried in this order, is strictly smaller, the earlier
    candidate winning a tie.  The 2-bit slot of the group in the header, four
    groups to a byte with the first one in the low-order bits, holds the log2
    of the width; the slots of the header without a group are zero. *)
Theorem encodeBytes_layout (data data_end n : nat) (buffer : list Z) (s : store)
    (next : nat) (s' : store) :
  data <= data_end -> data_end <= length (mem s) -> (Z.of_nat data_end < 2 ^ 64)%Z ->
  encodeBytes data data_end buffer (n * kByteGroupSize) s = (Some next, s') ->
  exists (header : list Z) (width : nat -> nat),
    take next (mem s')
    = take data (mem s) ++ header
      ++ concat ((fun j => default [] (group_payload (group_at buffer j) (width j))) <$> seq 0 n)
    /\ length header = (n + 3) / 4
    /\ n <= 4 * length header < n + 4
    /\ (forall j, j < n ->
          spec_selected (group_at buffer j) (width j)
          /\ is_Some (group_payload (group_at buffer j) (width j))
          /\ header_slot header j = Z.log2 (Z.of_nat (width j)))
    /\ (forall j, n <= j < 4 * length header -> header_slot header j = 0%Z).
Proof.
  intros Hle Hend H64 Hrun.
  destruct (encodeBytes_spec data data_end n buffer s Hle Hend H64)
    as (r & s0 & Hrun0 & _ & Hres).
  rewrite Hrun in Hrun0. injection Hrun0 as <- <-. destruct Hres as (_ & _ & Htake & _).
  exists (header_of ((n + 3) / 4) (codes_of buffer n)),
    (fun j => best_bits_of (group_at buffer j)).
  rewrite header_of_length.
  pose proof (Nat.div_mod_eq (n + 3) 4) as Hdiv.
  pose proof (Nat.mod_upper_bound (n + 3) 4 ltac:(lia)) as Hmod.
  split; [exact Htake|]. split; [reflexivity|]. split; [lia|]. split.
  - intros j Hj. split; [apply best_bits_selected|]. split.
    + destruct (best_bits_payload (group_at buffer j)) as (p & -> & _). eexists. reflexivity.
    + rewrite header_slot_of by (apply codes_of_code || (apply Nat.Div0.div_lt_upper_bound; lia)).
      rewrite rd_codes_of. apply Nat.ltb_lt in Hj. rewrite Hj.
      apply bitslog2_of_log2, best_bits_trial.
  - intros j Hj.
    rewrite header_slot_of by (apply codes_of_code || (apply Nat.Div0.div_lt_upper_bound; lia)).
    rewrite rd_codes_of. destruct (Nat.ltb_spec j n); [lia|reflexivity].
Qed.

Lemma encodeBytes_layout_witness :
  exists (header : list Z) (width : nat -> nat),
    [1; 43; 0; 0; 0; 5]%Z = header
      ++ concat ((fun j => default [] (group_payload (group_at sample_group j) (width j)))
                   <$> seq 0 1)
    /\ header_slot header 0 = Z.log2 (Z.of_nat (width 0)).
Proof.
  destruct (encodeBytes_layout 0 32 1 sample_group (sample_store 32) 6
              (Store ([1; 43; 0; 0; 0; 5]%Z ++ replicate 11 0%Z ++ replicate 15 0xCD%Z) []))
    as (header & width & Htake & _ & _ & Hgroups & _);
    [lia|simpl; lia|lia|vm_compute; reflexivity|].
  exists header, width. split; [exact Htake|]. apply (Hgroups 0). lia.
Defined.

Lemma encodeBytesGroupTry_layout_witness :
  encodeBytesGroupTry 0 sample_group 2 (sample_store 24)
  = (Some (0 + length (spec_fixed 2 sample_group ++ spec_escapes 2 sample_group)),
     memcpy 0 (spec_fixed 2 sample_group ++ spec_escapes 2 sample_group) (sample_store 24))
  /\ spec_fixed 2 sample_group ++ spec_escapes 2 sample_group = [43; 0; 0; 0; 5]%Z.
Proof.
  split; [|reflexivity].
  apply (encodeBytesGroupTry_layout sample_group 2 0 (sample_store 24));
    [reflexivity| |left; reflexivity].
  unfold sample_group, is_byte. repeat constructor; lia.
Defined.

(** C4: for a block of 1 to 256 records, [encodeVertexBlock] writes the
    channels 0 to [vertex_size - 1] in order; the bytes of channel [k] are the
    encoding by [encodeBytes] of the deltas [zigzag8 (record[i][k] - p)], with
    [p] starting at [last_vertex[k]] and then the raw byte of the record
    before, padded with zeros to the next multiple of 16; every channel reads
    the array [last_vertex] as it was when the block began, and the array is
    overwritten once, with the last record of the block, when all channels
    are written.  The block is encoded whenever its bytes and the 24 bytes
    of headroom of a group fit before [data_end]: the null pointer is only
    returned when they do not, and then [last_vertex] is left as it was. *)
Theorem encodeVertexBlock_spec (data data_end : nat) (vertex_data : list Z)
    (vertex_count vertex_size : nat) (last_vertex : list Z) (s : store) :
  1 <= vertex_count <= 256 ->
  data <= data_end -> data_end <= length (mem s) -> (Z.of_nat data_end < 2 ^ 64)%Z ->
  let deltas k :=
    spec_deltas (rd last_vertex k)
      ((fun i => rd vertex_data (i * vertex_size + k)) <$> seq 0 vertex_count) in
  let padded k := deltas k ++ replicate ((vertex_count + 15) / 16 * 16 - vertex_count) 0%Z in
  let bytes :=
    concat ((fun k => channel_bytes (padded k) ((vertex_count + 15) / 16)) <$> seq 0 vertex_size) in
  exists r last_vertex' s',
    encodeVertexBlock data data_end vertex_data vertex_count vertex_size last_vertex s
    = (r, last_vertex', s')
    /\ within data s s'
    /\ (data + length bytes + kByteGroupDecodeLimit <= data_end -> r <> None)
    /\ match r with
       | Some next =>
           next = data + length bytes /\ next <= data_end
           /\ take next (mem s') = take data (mem s) ++ bytes
           /\ last_vertex'
              = (rd vertex_data <$> seq (vertex_size * (vertex_count - 1)) vertex_size)
                ++ drop vertex_size last_vertex
       | None =>
           last_vertex' = last_vertex
           /\ data_end < data + length bytes + kByteGroupDecodeLimit
       end.
Proof.
  intros Hcount Hle Hend H64 deltas padded bytes.
  assert (Hbytes : bytes = spec_block vertex_data vertex_count vertex_size last_vertex).
  { unfold bytes, spec_block. f_equal. apply list_fmap_ext. intros _ k _.
    unfold spec_channel. rewrite spec_padded_length.
    unfold padded, deltas, spec_padded, column.
    rewrite spec_deltas_length, length_fmap, length_seq.
    rewrite Nat.div_mul by discriminate. reflexivity. }
  destruct (encodeVertexBlock_run data data_end vertex_data vertex_count vertex_size
              last_vertex s Hcount Hle Hend H64) as (r & last' & s' & Hrun & Hw & Hres).
  exists r, last', s'. split; [exact Hrun|]. split; [exact Hw|].
  rewrite Hbytes. destruct r as [next|].
  - split; [discriminate|]. destruct Hres as (Hnext & Hfit & Htake & _ & Hlast). auto.
  - split; [|exact Hres]. destruct Hres as [_ Hfull]. intros Hroom _. lia.
Qed.

Lemma encodeVertexBlock_spec_witness :
  exists last_vertex' s',
    encodeVertexBlock 1 64 sample_vertices 4 4 (replicate 256 0%Z) (sample_store 64)
    = (Some 10, last_vertex', s')
    /\ take 10 (mem s') = [0xCD; 1; 43; 0; 0; 0; 5; 0; 0; 0]%Z
    /\ take 4 last_vertex' = [255; 0; 0; 0]%Z.
Proof.
  destruct (encodeVertexBlock_spec 1 64 sample_vertices 4 4 (replicate 256 0%Z) (sample_store 64))
    as (r & last' & s' & Hrun & _ & Hroom & Hres); [lia|lia|simpl; lia|lia|].
  destruct r as [next|]; [|exfalso; apply Hroom; [vm_compute; lia|reflexivity]].
  destruct Hres as (Hnext & _ & Htake & Hlast).
  vm_compute in Hnext. subst next last'. eexists _, s'.
  split; [exact Hrun|]. split; [exact Htake|reflexivity].
Defined.

(** ** The room of a group *)

Lemma zero_group_check (group : list Z) :
  length group = 16 -> (encodeBytesGroupZero group = true <-> Forall (fun v => v = 0%Z) group).
Proof.
  intros Hlen. destruct_group group. unfold encodeBytesGroupZero. simpl.
  rewrite !andb_true_iff, !Z.eqb_eq. split.
  - intros H. repeat constructor; tauto.
  - intros H. repeat match goal with
                     | F : Forall _ (_ :: _) |- _ => apply Forall_cons in F as [? F]
                     end.
    tauto.
Qed.

Lemma encodeBytesGroupTry_next (group : list Z) (b data : nat) (s : store) (next : nat)
    (s' : store) :
  b ∈ [1; 2; 4; 8] ->
  encodeBytesGroupTry data group b s = (Some next, s') ->
  exists p, group_payload group b = Some p /\ next = data + length p /\ s' = memcpy data p s.
Proof.
  intros Hb Hrun. rewrite Try_payload in Hrun.
  destruct (group_payload group b) as [p|]; [|discriminate].
  injection Hrun as <- <-. exists p. auto.
Qed.

(** The claim C5 as it is stated: a bound [16 + 16 / (8 / b)] that is itself
    at most 24 for every width.  It fails at width 8: a group of zeros takes
    16 bytes there, and the formula gives 32. *)
Lemma group_bound_not_within_limit :
  encodeBytesGroupTry 0 (replicate 16 0%Z) 8 (sample_store 24)
  = (Some 16, Store (replicate 16 0%Z ++ replicate 8 0xCD%Z) [])
  /\ group_bound 8 = 32
  /\ ~ (forall (group : list Z) (b data : nat) (s : store) (next : nat) (s' : store),
          b ∈ [1; 2; 4; 8] -> length group = 16 ->
          encodeBytesGroupTry data group b s = (Some next, s') ->
          next - data <= group_bound b /\ group_bound b <= kByteGroupDecodeLimit).
Proof.
  assert (Hrun : encodeBytesGroupTry 0 (replicate 16 0%Z) 8 (sample_store 24)
                 = (Some 16, Store (replicate 16 0%Z ++ replicate 8 0xCD%Z) []))
    by (vm_compute; reflexivity).
  split; [exact Hrun|]. split; [reflexivity|].
  intros H.
  destruct (H (replicate 16 0%Z) 8 0 (sample_store 24) 16 _ ltac:(repeat constructor)
              eq_refl Hrun) as [_ Hbound].
  vm_compute in Hbound. lia.
Qed.

(** C5, amended: for a width [b] of 1, 2, 4 or 8 a successful
    [encodeBytesGroupTry] moves the cursor forward by at most
    [16 + 16 / (8 / b)] bytes and by at most 24 = [kByteGroupDecodeLimit]
    bytes (for the widths 1, 2 and 4 the first bound is itself at most 24; at
    width 8 it is 32 and the group takes 16 bytes), and it writes inside of
    the buffer when 24 bytes remain; so [encodeBytes], which checks that 24
    bytes remain before every group, writes nothing at or past [data_end]. *)
Theorem group_within_decode_limit (group : list Z) (b data : nat) (s : store) (next : nat)
    (s' : store) :
  b ∈ [1; 2; 4; 8] ->
  encodeBytesGroupTry data group b s = (Some next, s') ->
  (data <= next /\ next - data <= group_bound b /\ next - data <= kByteGroupDecodeLimit)
  /\ (b <> 8 -> group_bound b <= kByteGroupDecodeLimit)
  /\ (data + kByteGroupDecodeLimit <= length (mem s) ->
      oob s' = oob s /\ take data (mem s') = take data (mem s))
  /\ (forall data data_end buffer n s,
        data <= data_end -> length (mem s) = data_end -> (Z.of_nat data_end < 2 ^ 64)%Z ->
        oob (snd (encodeBytes data data_end buffer (n * kByteGroupSize) s)) = oob s).
Proof.
  intros Hb Hrun.
  destruct (encodeBytesGroupTry_next group b data s next s' Hb Hrun) as (p & Hp & -> & ->).
  destruct (payload_length group b p Hb Hp) as [Hbound Hlimit].
  split; [|split; [|split]].
  - unfold group_bound. lia.
  - intros Hne. unfold group_bound, kByteGroupDecodeLimit.
    repeat (apply elem_of_cons in Hb as [->|Hb]); simpl; try lia.
    by apply elem_of_nil in Hb.
  - intros Hroom. destruct (memcpy_within data data p s) as (Hoob & _ & Htake); [lia|lia|].
    split; assumption.
  - clear. intros data data_end buffer n s Hle Hend H64.
    destruct (encodeBytes_spec data data_end n buffer s Hle ltac:(lia) H64)
      as (r & s' & -> & (Hoob & _) & _).
    exact Hoob.
Qed.

Lemma group_within_decode_limit_witness :
  24 - 0 <= group_bound 4 /\ 24 - 0 <= kByteGroupDecodeLimit.
Proof.
  destruct (group_within_decode_limit (replicate 16 255%Z) 4 0 (sample_store 24) 24
              (Store (replicate 24 255%Z) []))
    as ((_ & Hbound & Hlimit) & _).
  - repeat constructor.
  - vm_compute. reflexivity.
  - split; [exact Hbound|exact Hlimit].
Defined.

(** ** Width 1 *)

(** A value from the sentinel on does not rule a width of 2 or 4 out: the
    deltas of channel 0 of the sample hold 5, and width 2 is retained, with 5
    written as an escape byte. *)
Lemma escaped_value_keeps_width :
  best_bits_of sample_group = 2 /\ group_bytes sample_group = [43; 0; 0; 0; 5]%Z.
Proof. split; reflexivity. Qed.

(** ** Zigzag is a bijection *)

(** C8: for every byte [d] the inverse map [(v >> 1) XOR -(v & 1)] applied
    to [zigzag8 d] gives [d] back; [zigzag8] is a bijection of the bytes. *)
Theorem zigzag8_roundtrip (d : Z) :
  is_byte d ->
  unzigzag8 (zigzag8 d) = d
  /\ is_byte (zigzag8 d)
  /\ (forall d', is_byte d' -> zigzag8 d' = zigzag8 d -> d' = d)
  /\ (exists v, is_byte v /\ zigzag8 v = d).
Proof.
  intros Hd. split; [apply unzigzag8_zigzag8, Hd|]. split; [apply zigzag8_byte|]. split.
  - intros d' Hd' Heq. rewrite <- (unzigzag8_zigzag8 d' Hd'), Heq. apply unzigzag8_zigzag8, Hd.
  - exists (unzigzag8 d). split; [apply unzigzag8_byte|apply zigzag8_unzigzag8, Hd].
Qed.

Lemma zigzag8_roundtrip_witness : unzigzag8 (zigzag8 253) = 253%Z /\ zigzag8 253 = 5%Z.
Proof.
  split; [|reflexivity].
  destruct (zigzag8_roundtrip 253) as [Hback _]; [unfold is_byte; lia|exact Hback].
Defined.

(** ** encodeNDZ *)

(** C9 at the input that [main] passes for one record of stride 12 whose
    first word is 0x40000000 (the buffer has [4 * 12] bytes): [encodeNDZ]
    writes the 92 bytes from offset 48 to offset 139 outside of the buffer
    and returns 140. *)
Theorem encodeNDZ_writes_past_buffer :
  let '(r, s') := encodeNDZ 48 ndz_vertices 1 12 (sample_store 48) in
  r = 140 /\ length (mem s') = 48 /\ oob s' = rev (seq 48 92).
Proof. vm_compute. repeat split. Qed.

(** The primary encoder, in contrast, writes inside of its buffer for every
    capacity. *)
Lemma encodeV1_writes_inside (buffer_size : nat) (vertices : list Z)
    (vertex_count vertex_size : nat) (s : store) :
  0 < vertex_size <= 256 -> length (mem s) = buffer_size -> (Z.of_nat buffer_size < 2 ^ 64)%Z ->
  exists r s',
    encodeV1 buffer_size vertices vertex_count vertex_size s = Some (r, s')
    /\ oob s' = oob s /\ length (mem s') = length (mem s).
Proof.
  intros Hvs Hsize H64.
  destruct (encodeV1_spec buffer_size vertices vertex_count vertex_size s Hvs Hsize H64)
    as (r & s' & Hrun & Hoob & Hlen & _).
  exists r, s'. auto.
Qed.

(** * Further properties of the encoders *)

(** ** The block size *)

(** X1: for a positive [vertex_size] the block size is a multiple of 16 and at
    most 256, and a block has at most 8192 bytes (the comment of the source:
    the block fits into the scratch buffer); it is at least 32 for the
    asserted [vertex_size <= 256], and at least 16 up to 512. *)
Theorem getVertexBlockSize_fits (vertex_size : nat) :
  0 < vertex_size ->
  getVertexBlockSize vertex_size mod 16 = 0
  /\ getVertexBlockSize vertex_size <= kVertexBlockMaxSize
  /\ getVertexBlockSize vertex_size * vertex_size <= kVertexBlockSizeBytes
  /\ (vertex_size <= 256 -> 32 <= getVertexBlockSize vertex_size)
  /\ (vertex_size <= 512 -> 16 <= getVertexBlockSize vertex_size).
Proof.
  intros Hvs. rewrite getVertexBlockSize_spec.
  unfold spec_block_vertices, kVertexBlockMaxSize, kVertexBlockSizeBytes.
  set (q := Z.to_nat 8192 / vertex_size).
  assert (Hq : q * vertex_size <= Z.to_nat 8192).
  { unfold q. rewrite Nat.mul_comm. apply Nat.Div0.mul_div_le. }
  pose proof (Nat.div_mod_eq q 16) as Hdiv.
  pose proof (Nat.mod_upper_bound q 16 ltac:(lia)) as Hmod.
  split; [|split; [|split; [|split]]].
  - destruct (Nat.min_spec 256 (q / 16 * 16)) as [[_ ->]|[_ ->]].
    + reflexivity.
    + apply Nat.Div0.mod_mul.
  - lia.
  - assert (q / 16 * 16 <= q) by lia. nia.
  - intros Hle. assert (32 <= q) by (apply Nat.div_le_lower_bound; lia).
    assert (2 <= q / 16) by (apply Nat.div_le_lower_bound; lia). lia.
  - intros Hle. assert (16 <= q) by (apply Nat.div_le_lower_bound; lia).
    assert (1 <= q / 16) by (apply Nat.div_le_lower_bound; lia). lia.
Qed.

Lemma getVertexBlockSize_fits_witness :
  getVertexBlockSize 12 = 256 /\ getVertexBlockSize 12 * 12 <= kVertexBlockSizeBytes.
Proof.
  split; [reflexivity|].
  destruct (getVertexBlockSize_fits 12) as (_ & _ & Hfit & _); [lia|exact Hfit].
Defined.

(** ** Zigzag in arithmetic *)

Lemma zigzag8_value (d : Z) :
  is_byte d -> zigzag8 d = if (d <? 128)%Z then (2 * d)%Z else (2 * (256 - d) - 1)%Z.
Proof.
  intros Hd. apply Z.eqb_eq.
  apply (all_bytes_spec
           (fun d => (zigzag8 d =? (if d <? 128 then 2 * d else 2 * (256 - d) - 1))%Z));
    [|exact Hd].
  vm_compute. reflexivity.
Qed.

(** X2: [zigzag8] sends a delta [d >= 0] (a byte below 128) to [2 * d] and a
    delta [-m < 0] (the byte [256 - m]) to [2 * m - 1].  So a delta is zero
    exactly when its code is zero, it stays below the sentinel 3 of width 2
    exactly for the deltas -1, 0 and 1, and below the sentinel 15 of width 4
    exactly for the deltas from -7 to 7. *)
Theorem zigzag8_magnitude (d : Z) :
  is_byte d ->
  zigzag8 d = (if (d <? 128)%Z then 2 * d else 2 * (256 - d) - 1)%Z
  /\ (zigzag8 d = 0%Z <-> d = 0%Z)
  /\ ((zigzag8 d < 3)%Z <-> (d <= 1 \/ 255 <= d)%Z)
  /\ ((zigzag8 d < 15)%Z <-> (d <= 7 \/ 249 <= d)%Z).
Proof.
  intros Hd. rewrite (zigzag8_value d Hd). unfold is_byte in Hd.
  destruct (Z.ltb_spec d 128); repeat split; intros; lia.
Qed.

Lemma zigzag8_magnitude_witness : (zigzag8 249 < 15)%Z /\ zigzag8 249 = 13%Z.
Proof.
  destruct (zigzag8_magnitude 249) as (Hv & _ & _ & Hsmall); [unfold is_byte; lia|].
  split; [apply Hsmall; lia|exact Hv].
Defined.

(** ** The cost of a group *)

Lemma escaped_payload (group : list Z) (b : nat) :
  length group = 16 -> Forall is_byte group -> b = 2 \/ b = 4 ->
  group_payload group b = Some (spec_fixed b group ++ spec_escapes b group).
Proof.
  intros Hlen Hbytes Hb. unfold group_payload.
  replace (b =? 1) with false by (destruct Hb; subst b; reflexivity).
  replace (b =? 8) with false by (destruct Hb; subst b; reflexivity).
  rewrite fixed_spec, escapes_spec by (assumption || (destruct Hb; subst b; lia)).
  reflexivity.
Qed.

Lemma spec_fixed_length (group : list Z) (b : nat) :
  length group = 16 -> Forall is_byte group -> b = 2 \/ b = 4 ->
  length (spec_fixed b group) = 16 / (8 / b).
Proof.
  intros Hlen Hbytes Hb. rewrite <- fixed_spec by assumption. rewrite length_fmap. unfold strided.
  rewrite length_fmap, length_seq. destruct Hb; subst b; reflexivity.
Qed.

Lemma best_size_min (group : list Z) (n2 n4 : nat) :
  group_size group 2 = Some n2 -> group_size group 4 = Some n4 ->
  snd (best_of group)
  = if encodeBytesGroupZero group then 0 else Nat.min 16 (Nat.min n2 n4).
Proof.
  intros H2 H4. unfold best_of. cbn [fold_left]. rewrite group_size_1. unfold kByteGroupSize.
  destruct (encodeBytesGroupZero group);
    repeat first [ rewrite H2 | rewrite H4 | progress cbv beta iota
                 | match goal with
                   | |- context [?a <? ?b] => destruct (Nat.ltb_spec a b)
                   end ];
    cbn [snd]; lia.
Qed.

(** The size of the encoding that the loop over the widths retains for a
    group of 16 bytes. *)
Lemma group_bytes_cost (group : list Z) :
  length group = 16 -> Forall is_byte group ->
  length (group_bytes group)
  = (if encodeBytesGroupZero group then 0
     else Nat.min 16 (Nat.min (4 + length (filter (fun v => (3 <= v)%Z) group))
                              (8 + length (filter (fun v => (15 <= v)%Z) group))))
  /\ length (group_bytes group) <= 16
  /\ (forall b p, b ∈ [1; 2; 4; 8] -> group_payload group b = Some p ->
        length (group_bytes group) <= length p).
Proof.
  intros Hlen Hbytes.
  destruct (best_bits_payload group) as (p & Hp & Hsize & ->).
  assert (Hesc : forall b, b = 2 \/ b = 4 ->
            group_size group b
            = Some (16 / (8 / b)
                    + length (filter (fun v => (spec_sentinel b <= v)%Z) group))).
  { intros b Hb. unfold group_size. rewrite escaped_payload by assumption.
    cbn [fmap option_fmap option_map]. rewrite length_app, spec_fixed_length by assumption.
    do 2 f_equal. unfold spec_escapes. f_equal. apply list_filter_iff. intros v.
    unfold spec_field. destruct (Z.leb_spec (spec_sentinel b) v); split; intros; try done; lia. }
  pose proof (best_of_selected group) as Hsel.
  destruct (best_of group) as [bb n] eqn:Hbest. cbn [snd] in Hsize.
  destruct Hsel as (i & Hi & Hn & Hmin). split; [|split].
  - rewrite Hsize. change n with (snd (bb, n)). rewrite <- Hbest.
    apply (best_size_min group _ _ (Hesc 2 ltac:(auto)) (Hesc 4 ltac:(auto))).
  - rewrite Hsize. destruct (Hmin 0 8 16 eq_refl (group_size_8 group)) as [Hle _]. exact Hle.
  - intros b q Hb Hq. rewrite Hsize.
    assert (Hj : exists j, trial_order !! j = Some b).
    { repeat (apply elem_of_cons in Hb as [->|Hb]);
        [exists 1|exists 2|exists 3|exists 0|by apply elem_of_nil in Hb]; reflexivity. }
    destruct Hj as [j Hj].
    destruct (Hmin j b (length q) Hj) as [Hle _]; [|exact Hle].
    unfold group_size. rewrite Hq. reflexivity.
Qed.

(** ** The size of the stream *)

Lemma concat_length_bounds {A : Type} (f : A -> list Z) (l : list A) (lo hi : nat) :
  (forall x, x ∈ l -> lo <= length (f x) <= hi) ->
  length l * lo <= length (concat (f <$> l)) <= length l * hi.
Proof.
  induction l as [|x l IH]; intros H; [simpl; lia|].
  rewrite fmap_cons. cbn [concat length]. rewrite length_app.
  pose proof (H x ltac:(left)) as Hx.
  assert (Hl : length l * lo <= length (concat (f <$> l)) <= length l * hi).
  { apply IH. intros y Hy. apply H. right. exact Hy. }
  lia.
Qed.

Lemma group_bytes_at_most_16 (group : list Z) : length (group_bytes group) <= 16.
Proof.
  destruct (best_bits_payload group) as (p & _ & Hsize & ->).
  pose proof (best_of_selected group) as Hsel.
  destruct (best_of group) as [bb n]. cbn [snd] in Hsize.
  destruct Hsel as (i & _ & _ & Hmin).
  destruct (Hmin 0 8 16 eq_refl (group_size_8 group)) as [Hle _]. lia.
Qed.

Lemma channel_bytes_bounds (buffer : list Z) (n : nat) :
  (n + 3) / 4 <= length (channel_bytes buffer n) <= (n + 3) / 4 + 16 * n.
Proof.
  rewrite channel_bytes_length. unfold payload_of.
  pose proof (concat_length_bounds (fun j => group_bytes (group_at buffer j)) (seq 0 n) 0 16) as H.
  rewrite length_seq in H.
  destruct H as [_ H]; [|lia].
  intros j _. split; [lia|apply group_bytes_at_most_16].
Qed.

Lemma spec_channel_bounds (vertex_data : list Z) (vertex_count vertex_size : nat)
    (last_vertex : list Z) (k : nat) :
  channel_header_size vertex_count
  <= length (spec_channel vertex_data vertex_count vertex_size last_vertex k)
  <= channel_header_size vertex_count + 16 * channel_groups vertex_count.
Proof.
  unfold spec_channel. rewrite spec_padded_length, spec_deltas_length, column_length.
  rewrite Nat.div_mul by discriminate. apply channel_bytes_bounds.
Qed.

Lemma spec_block_bounds (vertex_data : list Z) (vertex_count vertex_size : nat)
    (last_vertex : list Z) :
  vertex_size * channel_header_size vertex_count
  <= length (spec_block vertex_data vertex_count vertex_size last_vertex)
  <= vertex_size * (channel_header_size vertex_count + 16 * channel_groups vertex_count).
Proof.
  unfold spec_block.
  pose proof (concat_length_bounds
                (fun k => spec_channel vertex_data vertex_count vertex_size last_vertex k)
                (seq 0 vertex_size) (channel_header_size vertex_count)
                (channel_header_size vertex_count + 16 * channel_groups vertex_count)) as H.
  rewrite length_seq in H. apply H. intros k _. apply spec_channel_bounds.
Qed.

Lemma channel_sizes_mono (n m : nat) :
  1 <= n <= m -> m mod 16 = 0 ->
  1 <= channel_header_size n <= channel_header_size m
  /\ 16 * channel_groups n <= m.
Proof.
  intros Hn Hm. unfold channel_header_size, channel_groups.
  pose proof (Nat.div_mod_eq m 16) as Hdm. rewrite Hm, Nat.add_0_r in Hdm.
  assert (Hgm : (m + 15) / 16 = m / 16).
  { rewrite Hdm at 1. rewrite Nat.mul_comm, Nat.div_add_l by discriminate. simpl. lia. }
  assert (Hgn : (n + 15) / 16 <= m / 16).
  { rewrite <- Hgm. apply Nat.Div0.div_le_mono. lia. }
  assert (Hg1 : 1 <= (n + 15) / 16) by (apply Nat.div_le_lower_bound; lia).
  rewrite Hgm. split; [split|lia].
  - apply Nat.div_le_lower_bound; lia.
  - apply Nat.Div0.div_le_mono. lia.
Qed.

Lemma spec_blocks_bounds (vertex_data : list Z) (vertex_count vertex_size block_vertices : nat) :
  0 < block_vertices -> block_vertices mod 16 = 0 ->
  let n := block_count vertex_count block_vertices in
  n * vertex_size
  <= length (spec_blocks vertex_data vertex_count vertex_size block_vertices 0 n)
  <= n * (vertex_size * (channel_header_size block_vertices + block_vertices)).
Proof.
  intros Hbv Hmod n. unfold spec_blocks.
  pose proof (concat_length_bounds
                (spec_stream_block vertex_data vertex_count vertex_size block_vertices)
                (seq 0 n) vertex_size
                (vertex_size * (channel_header_size block_vertices + block_vertices))) as H.
  rewrite length_seq in H. apply H. intros b Hb.
  apply elem_of_seq in Hb. destruct Hb as [_ Hb]. simpl in Hb.
  apply block_count_spec in Hb; [|exact Hbv].
  unfold spec_stream_block.
  pose proof (spec_block_bounds (drop (b * block_vertices * vertex_size) vertex_data)
                (block_length vertex_count block_vertices b) vertex_size
                (spec_predictor vertex_data vertex_count vertex_size block_vertices b)) as Hblock.
  destruct (channel_sizes_mono (block_length vertex_count block_vertices b) block_vertices)
    as ((Hh1 & Hh2) & Hg); [unfold block_length; lia|exact Hmod|].
  split; [nia|].
  etransitivity; [apply Hblock|]. apply Nat.mul_le_mono_l. lia.
Qed.

Lemma stream_size_bounds (vertices : list Z) (vertex_count vertex_size : nat) :
  0 < vertex_size <= 256 ->
  least_size vertex_count vertex_size
  <= length (spec_stream vertices vertex_count vertex_size)
  <= worst_size vertex_count vertex_size.
Proof.
  intros Hvs. rewrite spec_stream_length. unfold least_size, worst_size.
  rewrite getVertexBlockSize_spec.
  pose proof (spec_block_vertices_range vertex_size Hvs) as Hbv.
  assert (Hmod : spec_block_vertices vertex_size mod 16 = 0).
  { unfold spec_block_vertices.
    destruct (Nat.min_spec 256 (Z.to_nat 8192 / vertex_size / 16 * 16)) as [[_ ->]|[_ ->]];
      [reflexivity|apply Nat.Div0.mod_mul]. }
  pose proof (spec_blocks_bounds vertices vertex_count vertex_size
                (spec_block_vertices vertex_size) ltac:(lia) Hmod) as H.
  cbv zeta in H. lia.
Qed.

(** X4: for a valid [vertex_size] (positive, at most 256 and a multiple of 4,
    as the code asserts) and every capacity [encodeV1] returns, having
    written inside of the buffer only.  A result other than 0 is at least the
    format byte, one header byte for every channel of every block and the
    tail, and at most the size of a stream whose groups all take 16 bytes;
    with a capacity of that size the result is not 0. *)
Theorem encodeV1_size_bounds (buffer_size : nat) (vertices : list Z)
    (vertex_count vertex_size : nat) (s : store) :
  0 < vertex_size <= 256 -> vertex_size mod 4 = 0 ->
  length (mem s) = buffer_size -> (Z.of_nat buffer_size < 2 ^ 64)%Z ->
  exists r s',
    encodeV1 buffer_size vertices vertex_count vertex_size s = Some (r, s')
    /\ oob s' = oob s
    /\ (r = 0
        \/ least_size vertex_count vertex_size <= r <= worst_size vertex_count vertex_size
           /\ 33 <= r <= buffer_size)
    /\ (worst_size vertex_count vertex_size <= buffer_size -> r <> 0).
Proof.
  intros Hvs _ Hsize H64.
  destruct (encodeV1_spec buffer_size vertices vertex_count vertex_size s Hvs Hsize H64)
    as (r & s' & Hrun & Hoob & _ & Hres).
  pose proof (stream_size_bounds vertices vertex_count vertex_size Hvs) as Hb.
  exists r, s'. split; [exact Hrun|]. split; [exact Hoob|].
  assert (Hleast : 33 <= least_size vertex_count vertex_size) by (unfold least_size; lia).
  destruct Hres as [(Hfit & -> & _)|(Hshort & ->)].
  - split; [right; lia|lia].
  - split; [left; reflexivity|lia].
Qed.

Lemma encodeV1_size_bounds_witness :
  worst_size 4 4 = 1073 /\ least_size 4 4 = 37
  /\ exists r s',
       encodeV1 1073 sample_vertices 4 4 (sample_store 1073) = Some (r, s')
       /\ oob s' = [] /\ r <> 0.
Proof.
  split; [reflexivity|]. split; [reflexivity|].
  destruct (encodeV1_size_bounds 1073 sample_vertices 4 4 (sample_store 1073))
    as (r & s' & Hrun & Hoob & _ & Hfit);
    [lia|reflexivity|apply length_replicate|lia|].
  exists r, s'. split; [exact Hrun|]. split; [exact Hoob|]. apply Hfit.
  change (worst_size 4 4) with 1073. lia.
Defined.

(** ** Records that repeat *)

Lemma fmap_seq_constant (f : nat -> Z) (c : Z) (a n : nat) :
  (forall i, a <= i < a + n -> f i = c) -> f <$> seq a n = replicate n c.
Proof.
  revert a. induction n as [|n IH]; intros a H; [reflexivity|].
  cbn [seq fmap list_fmap replicate]. rewrite H by lia. f_equal.
  apply IH. intros i Hi. apply H. lia.
Qed.

Lemma spec_deltas_constant (p : Z) (n : nat) :
  spec_deltas p (replicate n p) = replicate n 0%Z.
Proof.
  induction n as [|n IH]; [reflexivity|]. cbn [replicate spec_deltas].
  rewrite IH, Z.sub_diag. reflexivity.
Qed.

Lemma zero_group (group : list Z) :
  (forall i, rd group i = 0%Z) -> group_code group = 0%Z /\ group_bytes group = [].
Proof.
  intros H.
  assert (Hrd : forall i, rd group i = rd (replicate 16 0%Z) i).
  { intros i. rewrite H. symmetry. apply rd_replicate_0. }
  rewrite (group_code_ext _ _ Hrd), (group_bytes_ext _ _ Hrd). split; reflexivity.
Qed.

Lemma channel_bytes_zero (buffer : list Z) (n : nat) :
  (forall i, rd buffer i = 0%Z) -> channel_bytes buffer n = replicate ((n + 3) / 4) 0%Z.
Proof.
  intros H.
  assert (Hg : forall j i, rd (group_at buffer j) i = 0%Z).
  { intros j i. unfold group_at. rewrite rd_drop. apply H. }
  unfold channel_bytes, payload_of, codes_of.
  rewrite (fmap_seq_constant _ 0%Z) by (intros j _; apply zero_group, Hg).
  assert (Hp : forall m a,
            concat ((fun j => group_bytes (group_at buffer j)) <$> seq a m) = []).
  { induction m as [|m IH]; intros a; [reflexivity|].
    cbn [seq fmap list_fmap concat]. rewrite IH.
    destruct (zero_group (group_at buffer a) (Hg a)) as [_ ->]. reflexivity. }
  rewrite Hp, app_nil_r. unfold header_of.
  apply fmap_seq_constant. intros h _. unfold header_byte.
  rewrite !rd_replicate_0. reflexivity.
Qed.

Lemma spec_channel_constant (vertex_data : list Z) (vertex_count vertex_size : nat)
    (last_vertex : list Z) (k : nat) :
  (forall i, i < vertex_count -> rd vertex_data (i * vertex_size + k) = rd last_vertex k) ->
  spec_channel vertex_data vertex_count vertex_size last_vertex k
  = replicate (channel_header_size vertex_count) 0%Z.
Proof.
  intros H. unfold spec_channel, column.
  rewrite (fmap_seq_constant _ (rd last_vertex k)) by (intros i Hi; apply H; lia).
  rewrite spec_deltas_constant. rewrite spec_padded_length, length_replicate.
  rewrite Nat.div_mul by discriminate.
  apply channel_bytes_zero. intros i. unfold spec_padded.
  rewrite <- replicate_add. apply rd_replicate_0.
Qed.

Lemma concat_replicate {A : Type} (f : A -> list Z) (l : list A) (m : nat) :
  (forall x, x ∈ l -> f x = replicate m 0%Z) ->
  concat (f <$> l) = replicate (length l * m) 0%Z.
Proof.
  induction l as [|x l IH]; intros H; [reflexivity|].
  rewrite fmap_cons. cbn [concat length]. rewrite H by left.
  rewrite IH by (intros y Hy; apply H; right; exact Hy).
  rewrite <- replicate_add. f_equal.
Qed.

Lemma spec_block_constant (vertex_data : list Z) (vertex_count vertex_size : nat)
    (last_vertex : list Z) :
  (forall i k, i < vertex_count -> k < vertex_size ->
     rd vertex_data (i * vertex_size + k) = rd last_vertex k) ->
  spec_block vertex_data vertex_count vertex_size last_vertex
  = replicate (vertex_size * channel_header_size vertex_count) 0%Z.
Proof.
  intros H. unfold spec_block.
  rewrite (concat_replicate _ _ (channel_header_size vertex_count)).
  - rewrite length_seq. reflexivity.
  - intros k Hk. apply elem_of_seq in Hk. apply spec_channel_constant.
    intros i Hi. apply H; lia.
Qed.

(** X5: a block whose records all repeat the predictor (the bytes of
    [last_vertex]) costs one zero byte for every 64 records of every
    channel and nothing else: all deltas are zero, every group takes width 1
    with an empty payload, and only the headers, all zero, are written.
    With 24 bytes of room after them the block fits. *)
Theorem encodeVertexBlock_constant (data data_end : nat) (vertex_data : list Z)
    (vertex_count vertex_size : nat) (last_vertex : list Z) (s : store) :
  1 <= vertex_count <= 256 ->
  (forall i k, i < vertex_count -> k < vertex_size ->
     rd vertex_data (i * vertex_size + k) = rd last_vertex k) ->
  data + vertex_size * ((vertex_count + 63) / 64) + kByteGroupDecodeLimit <= data_end ->
  data_end <= length (mem s) -> (Z.of_nat data_end < 2 ^ 64)%Z ->
  exists last_vertex' s',
    encodeVertexBlock data data_end vertex_data vertex_count vertex_size last_vertex s
    = (Some (data + vertex_size * ((vertex_count + 63) / 64)), last_vertex', s')
    /\ take (data + vertex_size * ((vertex_count + 63) / 64)) (mem s')
       = take data (mem s) ++ replicate (vertex_size * ((vertex_count + 63) / 64)) 0%Z
    /\ oob s' = oob s.
Proof.
  intros Hcount Hsame Hroom Hend H64.
  assert (Hhs : channel_header_size vertex_count = (vertex_count + 63) / 64).
  { unfold channel_header_size, channel_groups.
    pose proof (Nat.div_mod_eq (vertex_count + 15) 16).
    pose proof (Nat.mod_upper_bound (vertex_count + 15) 16 ltac:(lia)).
    pose proof (Nat.div_mod_eq ((vertex_count + 15) / 16 + 3) 4).
    pose proof (Nat.mod_upper_bound ((vertex_count + 15) / 16 + 3) 4 ltac:(lia)).
    pose proof (Nat.div_mod_eq (vertex_count + 63) 64).
    pose proof (Nat.mod_upper_bound (vertex_count + 63) 64 ltac:(lia)).
    lia. }
  destruct (encodeVertexBlock_run data data_end vertex_data vertex_count vertex_size
              last_vertex s Hcount ltac:(lia) Hend H64)
    as (r & last' & s' & Hrun & (Hoob & _) & Hres).
  rewrite (spec_block_constant _ _ _ _ Hsame), length_replicate, Hhs in Hres.
  destruct r as [next|].
  - destruct Hres as (-> & _ & Htake & _). exists last', s'. auto.
  - destruct Hres as [_ Hfull]. lia.
Qed.

Lemma encodeVertexBlock_constant_witness :
  exists last_vertex' s',
    encodeVertexBlock 1 40 (replicate 12 7%Z) 3 4 (replicate 256 7%Z) (sample_store 40)
    = (Some 5, last_vertex', s')
    /\ take 5 (mem s') = [0xCD; 0; 0; 0; 0]%Z.
Proof.
  destruct (encodeVertexBlock_constant 1 40 (replicate 12 7%Z) 3 4 (replicate 256 7%Z)
              (sample_store 40)) as (last' & s' & Hrun & Htake & _).
  - lia.
  - intros i k Hi Hk.
    destruct i as [|[|[|i]]]; [| | |lia]; destruct k as [|[|[|[|k]]]]; try lia; reflexivity.
  - unfold kByteGroupDecodeLimit. simpl. lia.
  - simpl. lia.
  - lia.
  - exists last', s'. split; [exact Hrun|exact Htake].
Defined.

(** ** A group is read from its first 16 bytes *)

Lemma fold_left_ext_in {A B : Type} (f g : A -> B -> A) (l : list B) (a : A) :
  (forall x y, y ∈ l -> f x y = g x y) -> fold_left f l a = fold_left g l a.
Proof.
  revert a. induction l as [|y l IH]; intros a H; [reflexivity|].
  cbn [fold_left]. rewrite H by left. apply IH. intros x z Hz. apply H. right. exact Hz.
Qed.

Lemma forallb_ext_in {A : Type} (f g : A -> bool) (l : list A) :
  (forall x, x ∈ l -> f x = g x) -> forallb f l = forallb g l.
Proof.
  induction l as [|x l IH]; intros H; [reflexivity|].
  cbn [forallb]. rewrite H by left. rewrite IH; [reflexivity|].
  intros y Hy. apply H. right. exact Hy.
Qed.

Lemma strided_16_index (bits i k : nat) :
  bits = 2 \/ bits = 4 -> i ∈ strided kByteGroupSize (8 / bits) -> k ∈ seq 0 (8 / bits) ->
  i + k < 16.
Proof.
  intros Hbits Hi Hk. apply elem_of_seq in Hk.
  destruct Hbits; subst bits; vm_compute in Hi; simpl in Hk;
    repeat (apply elem_of_cons in Hi as [->|Hi]); try lia; by apply elem_of_nil in Hi.
Qed.

Lemma group_payload_agree (g g' : list Z) (bits : nat) :
  (forall i, i < 16 -> rd g i = rd g' i) -> bits ∈ [1; 2; 4; 8] ->
  group_payload g bits = group_payload g' bits.
Proof.
  intros H Hbits.
  assert (Hseq : forall i, i ∈ seq 0 kByteGroupSize -> rd g i = rd g' i).
  { intros i Hi. apply elem_of_seq in Hi. apply H. unfold kByteGroupSize in Hi. lia. }
  assert (Hzero : encodeBytesGroupZero g = encodeBytesGroupZero g').
  { unfold encodeBytesGroupZero. apply forallb_ext_in. intros i Hi. rewrite Hseq by exact Hi.
    reflexivity. }
  unfold group_payload. rewrite Hzero.
  destruct (bits =? 1) eqn:H1; [reflexivity|].
  destruct (bits =? 8) eqn:H8.
  - f_equal. apply list_fmap_ext. intros j i Hi. apply Hseq, list_elem_of_lookup. eauto.
  - assert (Hb : bits = 2 \/ bits = 4).
    { apply Nat.eqb_neq in H1, H8.
      repeat (apply elem_of_cons in Hbits as [->|Hbits]); try congruence; auto.
      by apply elem_of_nil in Hbits. }
    f_equal. f_equal.
    + apply list_fmap_ext. intros j i Hi. unfold pack_byte. apply fold_left_ext_in.
      intros byte k Hk.
      rewrite (H (i + k)); [reflexivity|].
      apply (strided_16_index bits); [exact Hb| |exact Hk].
      apply list_elem_of_lookup. eauto.
    + apply map_filter_ext. intros i Hi. rewrite Hseq by exact Hi. split; reflexivity.
Qed.

Lemma best_of_agree (g g' : list Z) :
  (forall i, i < 16 -> rd g i = rd g' i) -> best_of g = best_of g'.
Proof.
  intros H. unfold best_of. apply fold_left_ext_in. intros [bb bs] bits Hbits.
  unfold group_size. rewrite (group_payload_agree g g' bits H); [reflexivity|].
  repeat (apply elem_of_cons in Hbits as [->|Hbits]); try (repeat constructor).
  by apply elem_of_nil in Hbits.
Qed.

(** The 16 bytes of a group, as a list. *)
Lemma group_window (g : list Z) :
  let window := rd g <$> seq 0 16 in
  length window = 16
  /\ (forall i, i < 16 -> rd g i = rd window i)
  /\ ((forall i, i < 16 -> is_byte (rd g i)) -> Forall is_byte window).
Proof.
  intros window. split; [|split].
  - unfold window. rewrite length_fmap, length_seq. reflexivity.
  - intros i Hi. unfold window. rewrite rd_fmap_seq by exact Hi. reflexivity.
  - intros H. unfold window. apply Forall_fmap, Forall_forall. intros i Hi.
    apply elem_of_seq in Hi. apply H. lia.
Qed.

(** ** A group is determined by its width and its bytes *)

Lemma spec_field_escaped (b : nat) (v : Z) :
  spec_field b v <> spec_sentinel b -> spec_field b v = v.
Proof. unfold spec_field. destruct (spec_sentinel b <=? v)%Z; congruence. Qed.

Lemma escapes_unique (b : nat) (G : list Z) :
  forall (G' r r' : list Z),
    spec_field b <$> G = spec_field b <$> G' ->
    spec_escapes b G ++ r = spec_escapes b G' ++ r' ->
    G = G' /\ r = r'.
Proof.
  unfold spec_escapes.
  induction G as [|x G IH]; intros G' r r' Hf He.
  - symmetry in Hf. apply fmap_nil_inv in Hf. subst G'. split; [reflexivity|exact He].
  - symmetry in Hf. apply fmap_cons_inv in Hf as (x' & G'' & Hx & Htl & ->).
    destruct (decide (spec_field b x = spec_sentinel b)) as [Hs|Hs].
    + rewrite (filter_cons_True _ x G) in He by exact Hs.
      rewrite (filter_cons_True _ x' G'') in He by congruence.
      injection He as -> He. destruct (IH G'' r r' Htl He) as [-> ->]. auto.
    + rewrite (filter_cons_False _ x G) in He by exact Hs.
      rewrite (filter_cons_False _ x' G'') in He by congruence.
      destruct (IH G'' r r' Htl He) as [-> ->].
      rewrite <- (spec_field_escaped b x Hs).
      rewrite <- (spec_field_escaped b x') by congruence.
      rewrite Hx. auto.
Qed.

Lemma fields_unique (b : nat) (G G' : list Z) :
  length G = 16 -> length G' = 16 -> Forall is_byte G -> Forall is_byte G' ->
  b = 2 \/ b = 4 ->
  spec_fixed b G = spec_fixed b G' -> spec_field b <$> G = spec_field b <$> G'.
Proof.
  intros Hlen Hlen' Hbytes Hbytes' Hb Hfixed.
  assert (Hrange : forall v, is_byte v -> (0 <= spec_field b v < 2 ^ Z.of_nat b)%Z).
  { intros v Hv. apply spec_field_range. unfold is_byte in Hv. lia. }
  unfold spec_fixed in Hfixed.
  remember (spec_field b) as f eqn:Hf. clear Hf.
  destruct_group G. destruct_group G'.
  repeat match goal with
         | F : Forall _ (_ :: _) |- _ => apply Forall_cons in F as [?%Hrange F]
         end.
  destruct Hb; subst b; simpl in *; injection Hfixed; intros;
    repeat match goal with
           | H : context [(2 ^ Z.of_nat ?n)%Z] |- _ =>
               let v := eval vm_compute in (2 ^ Z.of_nat n)%Z in
               change (2 ^ Z.of_nat n)%Z with v in H
           end;
    repeat (f_equal; [lia|]); f_equal; lia.
Qed.

Lemma window_prefix_unique (w : nat) (G G' p p' r r' : list Z) :
  length G = 16 -> length G' = 16 -> Forall is_byte G -> Forall is_byte G' ->
  w ∈ [1; 2; 4; 8] ->
  group_payload G w = Some p -> group_payload G' w = Some p' ->
  p ++ r = p' ++ r' ->
  G = G' /\ r = r'.
Proof.
  intros Hlen Hlen' Hbytes Hbytes' Hw Hp Hp' Heq.
  repeat (apply elem_of_cons in Hw as [->|Hw]); [| | | |by apply elem_of_nil in Hw].
  - unfold group_payload in Hp, Hp'. simpl (1 =? 1) in Hp, Hp'. cbv iota in Hp, Hp'.
    destruct (encodeBytesGroupZero G) eqn:Hz; [|discriminate].
    destruct (encodeBytesGroupZero G') eqn:Hz'; [|discriminate].
    injection Hp as <-. injection Hp' as <-. split; [|exact Heq].
    apply zero_group_check in Hz, Hz'; try assumption.
    transitivity (replicate 16 0%Z); [symmetry|];
      apply replicate_as_Forall; (split; [assumption|]);
      (eapply Forall_impl; [eassumption|]); intros v ->; reflexivity.
  - rewrite escaped_payload in Hp, Hp' by auto.
    apply (inj Some) in Hp, Hp'. subst p p'. rewrite <- !app_assoc in Heq.
    apply app_inj_1 in Heq as [Hfixed Hrest];
      [|rewrite !spec_fixed_length by auto; reflexivity].
    apply (escapes_unique 2); [|exact Hrest].
    apply fields_unique; auto.
  - rewrite escaped_payload in Hp, Hp' by auto.
    apply (inj Some) in Hp, Hp'. subst p p'. rewrite <- !app_assoc in Heq.
    apply app_inj_1 in Heq as [Hfixed Hrest];
      [|rewrite !spec_fixed_length by auto; reflexivity].
    apply (escapes_unique 4); [|exact Hrest].
    apply fields_unique; auto.
  - unfold group_payload in Hp, Hp'. simpl (8 =? _) in Hp, Hp'. cbv iota in Hp, Hp'.
    rewrite verbatim_spec in Hp, Hp' by assumption.
    injection Hp as <-. injection Hp' as <-.
    apply app_inj_1 in Heq; [exact Heq|congruence].
Qed.

Lemma group_prefix_unique (w : nat) (g g' p p' r r' : list Z) :
  (forall i, i < 16 -> is_byte (rd g i)) -> (forall i, i < 16 -> is_byte (rd g' i)) ->
  w ∈ [1; 2; 4; 8] ->
  group_payload g w = Some p -> group_payload g' w = Some p' ->
  p ++ r = p' ++ r' ->
  (forall i, i < 16 -> rd g i = rd g' i) /\ r = r'.
Proof.
  intros Hbytes Hbytes' Hw Hp Hp' Heq.
  destruct (group_window g) as (Hlen & Hrd & Hwb).
  destruct (group_window g') as (Hlen' & Hrd' & Hwb').
  rewrite (group_payload_agree g _ w Hrd Hw) in Hp.
  rewrite (group_payload_agree g' _ w Hrd' Hw) in Hp'.
  destruct (window_prefix_unique w _ _ p p' r r' Hlen Hlen' (Hwb Hbytes) (Hwb' Hbytes') Hw
              Hp Hp' Heq) as [Hwin Hr].
  split; [|exact Hr]. intros i Hi. rewrite Hrd, Hrd' by exact Hi. rewrite Hwin. reflexivity.
Qed.

(** ** A channel is determined by its bytes *)

Lemma bitslog2_of_inj (w w' : nat) :
  w ∈ [1; 2; 4; 8] -> w' ∈ [1; 2; 4; 8] -> bitslog2_of w = bitslog2_of w' -> w = w'.
Proof.
  intros H H' Heq.
  repeat (apply elem_of_cons in H as [->|H]); try (by apply elem_of_nil in H);
    repeat (apply elem_of_cons in H' as [->|H']); try (by apply elem_of_nil in H');
    (reflexivity || discriminate).
Qed.

Lemma header_widths (B B' : list Z) (n : nat) :
  header_of ((n + 3) / 4) (codes_of B n) = header_of ((n + 3) / 4) (codes_of B' n) ->
  forall j, j < n -> best_bits_of (group_at B j) = best_bits_of (group_at B' j).
Proof.
  intros Hh j Hj.
  apply bitslog2_of_inj; try apply best_bits_trial.
  assert (Hq : j / 4 < (n + 3) / 4).
  { apply Nat.Div0.div_lt_upper_bound.
    pose proof (Nat.div_mod_eq (n + 3) 4). pose proof (Nat.mod_upper_bound (n + 3) 4). lia. }
  pose proof (header_slot_of ((n + 3) / 4) (codes_of B n) j (codes_of_code B n) Hq) as H1.
  pose proof (header_slot_of ((n + 3) / 4) (codes_of B' n) j (codes_of_code B' n) Hq) as H2.
  rewrite rd_codes_of in H1, H2.
  destruct (Nat.ltb_spec j n); [|lia].
  unfold group_code in *. congruence.
Qed.

Lemma payload_prefix_unique (B B' : list Z) (count : nat) :
  forall (from : nat) (r r' : list Z),
    (forall i, 16 * from <= i < 16 * (from + count) -> is_byte (rd B i)) ->
    (forall i, 16 * from <= i < 16 * (from + count) -> is_byte (rd B' i)) ->
    (forall j, from <= j < from + count ->
       best_bits_of (group_at B j) = best_bits_of (group_at B' j)) ->
    payload_of B from count ++ r = payload_of B' from count ++ r' ->
    (forall i, 16 * from <= i < 16 * (from + count) -> rd B i = rd B' i) /\ r = r'.
Proof.
  induction count as [|count IH]; intros from r r' Hb Hb' Hw Heq.
  - split; [intros; lia|exact Heq].
  - rewrite !payload_of_cons, <- !app_assoc in Heq.
    destruct (best_bits_payload (group_at B from)) as (p & Hp & _ & Hgb).
    destruct (best_bits_payload (group_at B' from)) as (p' & Hp' & _ & Hgb').
    rewrite Hgb, Hgb' in Heq. rewrite <- (Hw from) in Hp' by lia.
    destruct (group_prefix_unique (best_bits_of (group_at B from))
                (group_at B from) (group_at B' from) p p'
                (payload_of B (S from) count ++ r) (payload_of B' (S from) count ++ r'))
      as [Hg Hrest]; try assumption.
    + intros i Hi. unfold group_at, kByteGroupSize. rewrite rd_drop. apply Hb. lia.
    + intros i Hi. unfold group_at, kByteGroupSize. rewrite rd_drop. apply Hb'. lia.
    + apply best_bits_trial.
    + destruct (IH (S from) r r') as [Hrd Hr]; try assumption.
      * intros i Hi. apply Hb. lia.
      * intros i Hi. apply Hb'. lia.
      * intros j Hj. apply Hw. lia.
      * split; [|exact Hr]. intros i Hi.
        destruct (Nat.lt_ge_cases i (16 * S from)) as [Hlt|Hge].
        -- specialize (Hg (i - 16 * from) ltac:(lia)).
           unfold group_at, kByteGroupSize in Hg. rewrite !rd_drop in Hg.
           replace (from * 16 + (i - 16 * from)) with i in Hg by lia. exact Hg.
        -- apply Hrd. lia.
Qed.

Lemma channel_prefix_unique (B B' : list Z) (n : nat) (r r' : list Z) :
  (forall i, i < 16 * n -> is_byte (rd B i)) -> (forall i, i < 16 * n -> is_byte (rd B' i)) ->
  channel_bytes B n ++ r = channel_bytes B' n ++ r' ->
  (forall i, i < 16 * n -> rd B i = rd B' i) /\ r = r'.
Proof.
  intros Hb Hb' Heq. unfold channel_bytes in Heq. rewrite <- !app_assoc in Heq.
  apply app_inj_1 in Heq as [Hh Hp]; [|rewrite !header_of_length; reflexivity].
  destruct (payload_prefix_unique B B' n 0 r r') as [Hrd Hr]; try assumption.
  - intros i Hi. apply Hb. lia.
  - intros i Hi. apply Hb'. lia.
  - intros j Hj. apply (header_widths B B' n Hh). lia.
  - split; [|exact Hr]. intros i Hi. apply Hrd. lia.
Qed.

(** ** A block is determined by its bytes and its predictor *)

Lemma spec_deltas_inj (values : list Z) :
  forall (values' : list Z) (p : Z),
    Forall is_byte values -> Forall is_byte values' ->
    spec_deltas p values = spec_deltas p values' -> values = values'.
Proof.
  induction values as [|v values IH]; intros [|v' values'] p Hb Hb' Heq;
    try discriminate; [reflexivity|].
  apply Forall_cons in Hb as [Hv Hb]. apply Forall_cons in Hb' as [Hv' Hb'].
  simpl in Heq. injection Heq as Hd Heq.
  assert (v = v').
  { apply (f_equal unzigzag8) in Hd.
    rewrite !unzigzag8_zigzag8 in Hd
      by (unfold to_uchar, is_byte; apply Z.mod_pos_bound; lia).
    unfold to_uchar, is_byte in *. Z.div_mod_to_equations. lia. }
  subst v'. f_equal. eapply IH; eassumption.
Qed.

Lemma spec_deltas_byte (p : Z) (values : list Z) : Forall is_byte (spec_deltas p values).
Proof.
  revert p. induction values as [|v values IH]; intros p; simpl; constructor;
    [apply zigzag8_byte|apply IH].
Qed.

Lemma spec_padded_byte (deltas : list Z) :
  Forall is_byte deltas -> Forall is_byte (spec_padded deltas).
Proof.
  intros H. unfold spec_padded. apply Forall_app. split; [exact H|].
  apply Forall_replicate. unfold is_byte. lia.
Qed.

Lemma spec_channel_prefix_unique (vertex_data vertex_data' : list Z)
    (vertex_count vertex_size : nat) (last_vertex last_vertex' : list Z) (k : nat)
    (r r' : list Z) :
  rd last_vertex k = rd last_vertex' k ->
  (forall i, i < vertex_count -> is_byte (rd vertex_data (i * vertex_size + k))) ->
  (forall i, i < vertex_count -> is_byte (rd vertex_data' (i * vertex_size + k))) ->
  spec_channel vertex_data vertex_count vertex_size last_vertex k ++ r
  = spec_channel vertex_data' vertex_count vertex_size last_vertex' k ++ r' ->
  (forall i, i < vertex_count ->
     rd vertex_data (i * vertex_size + k) = rd vertex_data' (i * vertex_size + k))
  /\ r = r'.
Proof.
  intros Hlast Hb Hb' Heq. unfold spec_channel in Heq. rewrite <- Hlast in Heq.
  set (p := rd last_vertex k) in *.
  set (col := column vertex_data vertex_count vertex_size k) in *.
  set (col' := column vertex_data' vertex_count vertex_size k) in *.
  assert (Hcol : Forall is_byte col).
  { apply Forall_fmap, Forall_forall. intros i Hi. apply elem_of_seq in Hi. apply Hb. lia. }
  assert (Hcol' : Forall is_byte col').
  { apply Forall_fmap, Forall_forall. intros i Hi. apply elem_of_seq in Hi. apply Hb'. lia. }
  assert (Hlen : length col = vertex_count) by apply column_length.
  assert (Hlen' : length col' = vertex_count) by apply column_length.
  rewrite !spec_padded_length, !spec_deltas_length, Hlen, Hlen', !Nat.div_mul in Heq by lia.
  apply channel_prefix_unique in Heq as [Hrd Hr].
  - split; [|exact Hr].
    assert (Hd : spec_deltas p col = spec_deltas p col').
    { apply (nth_ext _ _ 0%Z 0%Z); [rewrite !spec_deltas_length; lia|].
      intros i Hi. rewrite spec_deltas_length, Hlen in Hi.
      pose proof (Nat.div_mod_eq (vertex_count + 15) 16) as Hdiv.
      pose proof (Nat.mod_upper_bound (vertex_count + 15) 16 ltac:(lia)) as Hmod.
      specialize (Hrd i ltac:(lia)). unfold spec_padded in Hrd. rewrite !rd_app in Hrd.
      rewrite !spec_deltas_length, Hlen, Hlen' in Hrd.
      destruct (Nat.ltb_spec i vertex_count); [exact Hrd|lia]. }
    apply spec_deltas_inj in Hd; [|assumption..].
    intros i Hi. apply (f_equal (fun l => rd l i)) in Hd. unfold col, col', column in Hd.
    rewrite !rd_fmap_seq in Hd by exact Hi. exact Hd.
  - intros i _. apply rd_nonneg, spec_padded_byte, spec_deltas_byte.
  - intros i _. apply rd_nonneg, spec_padded_byte, spec_deltas_byte.
Qed.

Lemma channels_prefix_unique (vertex_data vertex_data' : list Z)
    (vertex_count vertex_size : nat) (last_vertex last_vertex' : list Z) (channels : list nat) :
  forall (r r' : list Z),
    (forall k, k ∈ channels -> rd last_vertex k = rd last_vertex' k) ->
    (forall i k, i < vertex_count -> k ∈ channels ->
       is_byte (rd vertex_data (i * vertex_size + k))) ->
    (forall i k, i < vertex_count -> k ∈ channels ->
       is_byte (rd vertex_data' (i * vertex_size + k))) ->
    concat ((fun k => spec_channel vertex_data vertex_count vertex_size last_vertex k)
              <$> channels) ++ r
    = concat ((fun k => spec_channel vertex_data' vertex_count vertex_size last_vertex' k)
                <$> channels) ++ r' ->
    (forall i k, i < vertex_count -> k ∈ channels ->
       rd vertex_data (i * vertex_size + k) = rd vertex_data' (i * vertex_size + k))
    /\ r = r'.
Proof.
  induction channels as [|k channels IH]; intros r r' Hlast Hb Hb' Heq.
  - split; [|exact Heq]. intros i k _ Hk. by apply elem_of_nil in Hk.
  - rewrite !fmap_cons in Heq. cbn [concat] in Heq. rewrite <- !app_assoc in Heq.
    apply spec_channel_prefix_unique in Heq as [Hk Hrest].
    + destruct (IH r r') as [Hrd Hr]; try assumption.
      * intros k' Hk'. apply Hlast. by right.
      * intros i k' Hi Hk'. apply Hb; [exact Hi|by right].
      * intros i k' Hi Hk'. apply Hb'; [exact Hi|by right].
      * split; [|exact Hr]. intros i k' Hi Hk'.
        apply elem_of_cons in Hk' as [->|Hk']; [apply Hk; exact Hi|apply Hrd; assumption].
    + apply Hlast. by left.
    + intros i Hi. apply Hb; [exact Hi|by left].
    + intros i Hi. apply Hb'; [exact Hi|by left].
Qed.

Lemma spec_block_prefix_unique (vertex_data vertex_data' : list Z)
    (vertex_count vertex_size : nat) (last_vertex last_vertex' : list Z) (r r' : list Z) :
  (forall k, k < vertex_size -> rd last_vertex k = rd last_vertex' k) ->
  (forall i k, i < vertex_count -> k < vertex_size ->
     is_byte (rd vertex_data (i * vertex_size + k))) ->
  (forall i k, i < vertex_count -> k < vertex_size ->
     is_byte (rd vertex_data' (i * vertex_size + k))) ->
  spec_block vertex_data vertex_count vertex_size last_vertex ++ r
  = spec_block vertex_data' vertex_count vertex_size last_vertex' ++ r' ->
  (forall i k, i < vertex_count -> k < vertex_size ->
     rd vertex_data (i * vertex_size + k) = rd vertex_data' (i * vertex_size + k))
  /\ r = r'.
Proof.
  intros Hlast Hb Hb' Heq. unfold spec_block in Heq.
  apply channels_prefix_unique in Heq as [Hrd Hr].
  - split; [|exact Hr]. intros i k Hi Hk. apply Hrd; [exact Hi|]. apply elem_of_seq. lia.
  - intros k Hk. apply elem_of_seq in Hk. apply Hlast. lia.
  - intros i k Hi Hk. apply elem_of_seq in Hk. apply Hb; lia.
  - intros i k Hi Hk. apply elem_of_seq in Hk. apply Hb'; lia.
Qed.

(** ** The stream determines the records *)

Lemma block_length_positive (vertex_count block_vertices b : nat) :
  0 < block_vertices -> b < block_count vertex_count block_vertices ->
  0 < block_length vertex_count block_vertices b.
Proof.
  intros Hbv Hb. apply block_count_spec in Hb; [|exact Hbv]. unfold block_length. lia.
Qed.

Lemma spec_blocks_prefix_unique (vertex_data vertex_data' : list Z)
    (vertex_count vertex_size block_vertices : nat) (m : nat) :
  forall (from : nat) (r r' : list Z),
    0 < block_vertices ->
    from + m <= block_count vertex_count block_vertices ->
    (forall j k, j < vertex_count -> k < vertex_size ->
       is_byte (rd vertex_data (j * vertex_size + k))) ->
    (forall j k, j < vertex_count -> k < vertex_size ->
       is_byte (rd vertex_data' (j * vertex_size + k))) ->
    (forall k, k < vertex_size ->
       rd (spec_predictor vertex_data vertex_count vertex_size block_vertices from) k
       = rd (spec_predictor vertex_data' vertex_count vertex_size block_vertices from) k) ->
    spec_blocks vertex_data vertex_count vertex_size block_vertices from m ++ r
    = spec_blocks vertex_data' vertex_count vertex_size block_vertices from m ++ r' ->
    (forall j k, from * block_vertices <= j -> j < vertex_count ->
       j < (from + m) * block_vertices -> k < vertex_size ->
       rd vertex_data (j * vertex_size + k) = rd vertex_data' (j * vertex_size + k))
    /\ r = r'.
Proof.
  induction m as [|m IH]; intros from r r' Hbv Hm Hb Hb' Hpred Heq.
  - split; [|exact Heq]. intros j k Hlo _ Hhi _. rewrite Nat.add_0_r in Hhi. lia.
  - rewrite !spec_blocks_cons, <- !app_assoc in Heq. unfold spec_stream_block in Heq.
    assert (Hfrom : from < block_count vertex_count block_vertices) by lia.
    pose proof (block_length_positive vertex_count block_vertices from Hbv Hfrom) as Hpos.
    apply block_count_spec in Hfrom; [|exact Hbv].
    set (len := block_length vertex_count block_vertices from) in *.
    assert (Hlen : len = Nat.min block_vertices (vertex_count - from * block_vertices))
      by reflexivity.
    apply spec_block_prefix_unique in Heq as [Hblock Hrest]; [|exact Hpred|..].
    + assert (Hhere : forall j k, from * block_vertices <= j < from * block_vertices + len ->
                k < vertex_size ->
                rd vertex_data (j * vertex_size + k) = rd vertex_data' (j * vertex_size + k)).
      { intros j k Hj Hk.
        specialize (Hblock (j - from * block_vertices) k ltac:(lia) Hk).
        rewrite !rd_drop in Hblock.
        replace (from * block_vertices * vertex_size
                 + ((j - from * block_vertices) * vertex_size + k))
          with (j * vertex_size + k) in Hblock by nia.
        exact Hblock. }
      destruct (IH (S from) r r') as [Hrd Hr]; try assumption; [lia| |].
      * intros k Hk. cbn [spec_predictor]. fold len. rewrite !rd_record by exact Hk.
        replace (vertex_size * (from * block_vertices + len - 1) + k)
          with ((from * block_vertices + len - 1) * vertex_size + k) by lia.
        apply Hhere; [lia|exact Hk].
      * split; [|exact Hr]. intros j k Hlo Hn Hhi Hk.
        destruct (Nat.lt_ge_cases j (from * block_vertices + len)) as [Hlt|Hge].
        -- apply Hhere; [lia|exact Hk].
        -- apply Hrd; try assumption; [|lia]. simpl. lia.
    + intros i k Hi Hk. rewrite rd_drop.
      replace (from * block_vertices * vertex_size + (i * vertex_size + k))
        with ((from * block_vertices + i) * vertex_size + k) by lia.
      apply Hb; [lia|exact Hk].
    + intros i k Hi Hk. rewrite rd_drop.
      replace (from * block_vertices * vertex_size + (i * vertex_size + k))
        with ((from * block_vertices + i) * vertex_size + k) by lia.
      apply Hb'; [lia|exact Hk].
Qed.

Lemma spec_stream_inj (vertex_data vertex_data' : list Z) (vertex_count vertex_size : nat) :
  0 < vertex_size <= 256 ->
  (forall j k, j < vertex_count -> k < vertex_size ->
     is_byte (rd vertex_data (j * vertex_size + k))) ->
  (forall j k, j < vertex_count -> k < vertex_size ->
     is_byte (rd vertex_data' (j * vertex_size + k))) ->
  spec_stream vertex_data vertex_count vertex_size
  = spec_stream vertex_data' vertex_count vertex_size ->
  forall j k, j < vertex_count -> k < vertex_size ->
    rd vertex_data (j * vertex_size + k) = rd vertex_data' (j * vertex_size + k).
Proof.
  intros Hvs Hb Hb' Heq.
  pose proof (spec_block_vertices_range vertex_size Hvs) as Hbv.
  unfold spec_stream in Heq. cbn zeta in Heq.
  apply app_inv_head in Heq.
  apply app_inj_2 in Heq as [Hblocks Htail];
    [|rewrite !spec_tail_length by apply spec_first_vertex_length; reflexivity].
  unfold spec_tail in Htail. apply app_inv_head in Htail.
  set (n := block_count vertex_count (spec_block_vertices vertex_size)) in *.
  apply (f_equal (fun l => l ++ @nil Z)) in Hblocks.
  apply spec_blocks_prefix_unique in Hblocks as [Hrd _]; try assumption; try lia.
  - intros j k Hj Hk. apply Hrd; try assumption; [lia|].
    destruct (Nat.lt_ge_cases j ((0 + n) * spec_block_vertices vertex_size)) as [Hlt|Hge];
      [exact Hlt|].
    assert (Hn : ~ n < block_count vertex_count (spec_block_vertices vertex_size))
      by (unfold n; lia).
    rewrite block_count_spec in Hn by lia. simpl in Hge. lia.
  - intros k Hk. cbn [spec_predictor]. rewrite Htail. reflexivity.
Qed.

Lemma records_eq (vertices vertices' : list Z) (vertex_count vertex_size : nat) :
  0 < vertex_size ->
  length vertices = vertex_count * vertex_size ->
  length vertices' = vertex_count * vertex_size ->
  (forall j k, j < vertex_count -> k < vertex_size ->
     rd vertices (j * vertex_size + k) = rd vertices' (j * vertex_size + k)) ->
  vertices = vertices'.
Proof.
  intros Hvs Hlen Hlen' H. apply (nth_ext _ _ 0%Z 0%Z); [congruence|].
  intros i Hi. rewrite Hlen in Hi.
  pose proof (Nat.div_mod_eq i vertex_size) as Hdiv.
  pose proof (Nat.mod_upper_bound i vertex_size ltac:(lia)) as Hmod.
  specialize (H (i / vertex_size) (i mod vertex_size)).
  replace (i / vertex_size * vertex_size + i mod vertex_size) with i in H by lia.
  apply H; [|exact Hmod].
  apply Nat.Div0.div_lt_upper_bound. lia.
Qed.

(** X6: the encoding loses nothing.  When [encodeV1] succeeds on two arrays
    of [vertex_count] records of [vertex_size] bytes, in buffers of any two
    sizes and contents, and writes the same bytes, the two arrays are the
    same: the format byte, the headers, the payloads and the tail determine
    every byte of every record. *)
Theorem encodeV1_injective (buffer_size buffer_size' : nat) (vertices vertices' : list Z)
    (vertex_count vertex_size : nat) (s s' t t' : store) (r r' : nat) :
  0 < vertex_size <= 256 ->
  length vertices = vertex_count * vertex_size -> Forall is_byte vertices ->
  length vertices' = vertex_count * vertex_size -> Forall is_byte vertices' ->
  length (mem s) = buffer_size -> (Z.of_nat buffer_size < 2 ^ 64)%Z ->
  length (mem s') = buffer_size' -> (Z.of_nat buffer_size' < 2 ^ 64)%Z ->
  encodeV1 buffer_size vertices vertex_count vertex_size s = Some (r, t) -> r <> 0 ->
  encodeV1 buffer_size' vertices' vertex_count vertex_size s' = Some (r', t') -> r' <> 0 ->
  take r (mem t) = take r' (mem t') ->
  vertices = vertices'.
Proof.
  intros Hvs Hlen Hbytes Hlen' Hbytes' Hs H64 Hs' H64' Hrun Hr Hrun' Hr' Heq.
  destruct (encodeV1_spec buffer_size vertices vertex_count vertex_size s Hvs Hs H64)
    as (r0 & t0 & Hrun0 & _ & _ & Hres).
  destruct (encodeV1_spec buffer_size' vertices' vertex_count vertex_size s' Hvs Hs' H64')
    as (r0' & t0' & Hrun0' & _ & _ & Hres').
  rewrite Hrun in Hrun0. rewrite Hrun' in Hrun0'.
  injection Hrun0 as <- <-. injection Hrun0' as <- <-.
  destruct Hres as [(_ & _ & Htake & _)|[_ ?]]; [|contradiction].
  destruct Hres' as [(_ & _ & Htake' & _)|[_ ?]]; [|contradiction].
  apply (records_eq vertices vertices' vertex_count vertex_size); [lia|assumption..|].
  apply spec_stream_inj; [exact Hvs| | |congruence].
  - intros j k _ _. apply rd_nonneg. exact Hbytes.
  - intros j k _ _. apply rd_nonneg. exact Hbytes'.
Qed.

Lemma encodeV1_injective_witness :
  exists r t r' t',
    encodeV1 64 sample_vertices 4 4 (sample_store 64) = Some (r, t)
    /\ encodeV1 100 sample_vertices 4 4 (Store (replicate 100 0%Z) []) = Some (r', t')
    /\ r = 42 /\ r' = 42 /\ take r (mem t) = take r' (mem t')
    /\ sample_vertices = sample_vertices.
Proof.
  eexists _, _, _, _.
  split; [vm_compute; reflexivity|]. split; [vm_compute; reflexivity|].
  split; [reflexivity|]. split; [reflexivity|]. split; [reflexivity|].
  eapply (encodeV1_injective 64 100 sample_vertices sample_vertices 4 4
            (sample_store 64) (Store (replicate 100 0%Z) []) _ _ 42 42);
    [lia|reflexivity|repeat constructor; unfold is_byte; lia
    |reflexivity|repeat constructor; unfold is_byte; lia
    |reflexivity|simpl; lia|reflexivity|simpl; lia
    |vm_compute; reflexivity|lia|vm_compute; reflexivity|lia|reflexivity].
Defined.

(** ** The stream of encodeNDZ *)

Lemma planes_loop (transposed : list Z) (idx : list nat) (pos : nat) (s : store) :
  fold_left
    (fun '(pos, s) j =>
       if (rd transposed j =? 0)%Z then (pos, s)
       else (pos + 4, poke_u32 pos (rd transposed j) s))
    idx (pos, s)
  = (pos + 4 * length (filter (fun v => negb (v =? 0)%Z) (rd transposed <$> idx)),
     memcpy pos
       (concat (u32_bytes <$> filter (fun v => negb (v =? 0)%Z) (rd transposed <$> idx))) s).
Proof.
  revert pos s. induction idx as [|j idx IH]; intros pos s; cbn [fold_left].
  - simpl. rewrite Nat.add_0_r. reflexivity.
  - rewrite fmap_cons. destruct (rd transposed j =? 0)%Z eqn:Hz.
    + rewrite IH, filter_cons_False by (rewrite Hz; exact id). reflexivity.
    + rewrite IH, filter_cons_True by (rewrite Hz; exact I).
      rewrite fmap_cons. cbn [concat length]. rewrite memcpy_app. f_equal. lia.
Qed.

Lemma u32_bytes_length (v : Z) : length (u32_bytes v) = 4.
Proof. reflexivity. Qed.

Lemma ndz_planes_length (transposed : list Z) : length (ndz_planes transposed) <= 32.
Proof.
  unfold ndz_planes. etransitivity; [apply length_filter|].
  rewrite length_fmap, length_seq. reflexivity.
Qed.

Lemma concat_u32_length (planes : list Z) : length (concat (u32_bytes <$> planes)) = 4 * length planes.
Proof.
  induction planes as [|v planes IH]; [reflexivity|].
  rewrite fmap_cons. cbn [concat length]. rewrite length_app, IH, u32_bytes_length. lia.
Qed.

Lemma ndz_chunk_length (transposed : list Z) :
  length (ndz_chunk transposed) = 4 + 4 * length (ndz_planes transposed).
Proof.
  unfold ndz_chunk. rewrite length_app, concat_u32_length, u32_bytes_length. reflexivity.
Qed.

Lemma ndz_chunks_from (vertices : list Z) (vertex_count vertex_size k : nat) (idx : list nat) :
  forall (out : list Z) (last : Z),
    fold_left
      (fun '(out, last) i =>
         let '(deltas, last) := ndz_deltas vertices vertex_count vertex_size k i last in
         (out ++ ndz_chunk (ndz_transpose deltas), last))
      idx (out, last)
    = (out ++ fst (ndz_chunks vertices vertex_count vertex_size k idx last),
       snd (ndz_chunks vertices vertex_count vertex_size k idx last)).
Proof.
  unfold ndz_chunks.
  induction idx as [|i idx IH]; intros out last; cbn [fold_left].
  - rewrite app_nil_r. reflexivity.
  - destruct (ndz_deltas vertices vertex_count vertex_size k i last) as [deltas last'].
    rewrite IH. rewrite (IH ([] ++ _)). cbn [fst snd]. rewrite app_nil_l, app_assoc.
    reflexivity.
Qed.

Lemma ndz_chunks_cons (vertices : list Z) (vertex_count vertex_size k i : nat) (idx : list nat)
    (last : Z) :
  ndz_chunks vertices vertex_count vertex_size k (i :: idx) last
  = (ndz_chunk (ndz_transpose (fst (ndz_deltas vertices vertex_count vertex_size k i last)))
     ++ fst (ndz_chunks vertices vertex_count vertex_size k idx
               (snd (ndz_deltas vertices vertex_count vertex_size k i last))),
     snd (ndz_chunks vertices vertex_count vertex_size k idx
            (snd (ndz_deltas vertices vertex_count vertex_size k i last)))).
Proof.
  unfold ndz_chunks at 1.
  change (fold_left ?f (i :: idx) ?a) with (fold_left f idx (f a i)).
  cbv beta iota.
  destruct (ndz_deltas vertices vertex_count vertex_size k i last) as [deltas last'].
  rewrite ndz_chunks_from. reflexivity.
Qed.

Lemma chunks_loop (vertices : list Z) (vertex_count vertex_size k : nat) (idx : list nat) :
  forall (pos : nat) (s : store) (last : Z),
    fold_left
      (fun '(pos, s, last) i =>
         let '(deltas, last) := ndz_deltas vertices vertex_count vertex_size k i last in
         let transposed := ndz_transpose deltas in
         let mask := ndz_mask transposed in
         let s := poke_u32 pos mask s in
         let pos := pos + 4 in
         let '(pos, s) :=
           fold_left
             (fun '(pos, s) j =>
                if (rd transposed j =? 0)%Z then (pos, s)
                else (pos + 4, poke_u32 pos (rd transposed j) s))
             (seq 0 32) (pos, s) in
         (pos, s, last))
      idx (pos, s, last)
    = (pos + length (fst (ndz_chunks vertices vertex_count vertex_size k idx last)),
       memcpy pos (fst (ndz_chunks vertices vertex_count vertex_size k idx last)) s,
       snd (ndz_chunks vertices vertex_count vertex_size k idx last)).
Proof.
  induction idx as [|i idx IH]; intros pos s last.
  - unfold ndz_chunks, fold_left, fst, snd, length, memcpy. rewrite Nat.add_0_r. reflexivity.
  - rewrite ndz_chunks_cons.
    change (fold_left ?f (i :: idx) ?a) with (fold_left f idx (f a i)).
    cbv beta iota.
    destruct (ndz_deltas vertices vertex_count vertex_size k i last) as [deltas last'].
    change (fst (deltas, last')) with deltas. change (snd (deltas, last')) with last'.
    match goal with
    | |- fold_left _ idx ?a = _ =>
        replace a
          with (pos + 4 + 4 * length (ndz_planes (ndz_transpose deltas)),
                memcpy (pos + 4) (concat (u32_bytes <$> ndz_planes (ndz_transpose deltas)))
                  (poke_u32 pos (ndz_mask (ndz_transpose deltas)) s),
                last')
        by (cbv zeta; rewrite planes_loop; reflexivity)
    end.
    rewrite IH.
    change (fst (?a, ?b)) with a. change (snd (?a, ?b)) with b.
    rewrite memcpy_app, length_app, ndz_chunk_length.
    unfold ndz_chunk at 1. rewrite memcpy_app, u32_bytes_length.
    rewrite !Nat.add_assoc. reflexivity.
Qed.

Lemma channels_loop (vertices : list Z) (vertex_count vertex_size : nat) (channels : list nat) :
  forall (pos : nat) (s : store),
    fold_left
      (fun '(pos, s) k =>
         let '(pos, s, _) :=
           fold_left
             (fun '(pos, s, last) i =>
                let '(deltas, last) := ndz_deltas vertices vertex_count vertex_size k i last in
                let transposed := ndz_transpose deltas in
                let mask := ndz_mask transposed in
                let s := poke_u32 pos mask s in
                let pos := pos + 4 in
                let '(pos, s) :=
                  fold_left
                    (fun '(pos, s) j =>
                       if (rd transposed j =? 0)%Z then (pos, s)
                       else (pos + 4, poke_u32 pos (rd transposed j) s))
                    (seq 0 32) (pos, s) in
                (pos, s, last))
             (strided vertex_count 32) (pos, s, 0%Z) in
         (pos, s))
      channels (pos, s)
    = (pos + length (concat (ndz_channel vertices vertex_count vertex_size <$> channels)),
       memcpy pos (concat (ndz_channel vertices vertex_count vertex_size <$> channels)) s).
Proof.
  induction channels as [|k channels IH]; intros pos s.
  - unfold fold_left, fmap, list_fmap, concat, length, memcpy. rewrite Nat.add_0_r. reflexivity.
  - change (fold_left ?f (k :: channels) ?a) with (fold_left f channels (f a k)).
    cbv beta iota. rewrite chunks_loop. rewrite IH.
    rewrite fmap_cons.
    change (concat (?x :: ?l)) with (x ++ concat l).
    rewrite memcpy_app, length_app, Nat.add_assoc. reflexivity.
Qed.

Lemma encodeNDZ_stream (buffer_size : nat) (vertices : list Z) (vertex_count vertex_size : nat)
    (s : store) :
  encodeNDZ buffer_size vertices vertex_count vertex_size s
  = (length (ndz_stream vertices vertex_count vertex_size),
     memcpy 0 (ndz_stream vertices vertex_count vertex_size) s).
Proof.
  unfold encodeNDZ. cbv zeta. rewrite channels_loop. unfold ndz_stream.
  rewrite Nat.add_0_l, Nat.sub_0_r. reflexivity.
Qed.

(** ** The size of the stream of encodeNDZ and the room that it takes *)

Lemma memcpy_length (a : nat) (src : list Z) (s : store) :
  length (mem (memcpy a src s)) = length (mem s).
Proof.
  revert a s. induction src as [|v src IH]; intros a s; [reflexivity|].
  cbn [memcpy]. rewrite IH. unfold poke.
  destruct (a <? length (mem s)); cbn [mem]; [apply length_insert|reflexivity].
Qed.

Lemma memcpy_outside (a : nat) (src : list Z) (s : store) :
  length (mem s) <= a ->
  memcpy a src s = Store (mem s) (rev (seq a (length src)) ++ oob s).
Proof.
  revert a s. induction src as [|v src IH]; intros a s Ha.
  - destruct s; reflexivity.
  - cbn [memcpy]. unfold poke. destruct (Nat.ltb_spec a (length (mem s))); [lia|].
    rewrite IH by (cbn [mem]; lia). cbn [mem oob length seq rev].
    rewrite <- app_assoc. reflexivity.
Qed.

Lemma memcpy_overflow (src : list Z) (s : store) :
  length (mem s) < length src ->
  oob (memcpy 0 src s) = rev (seq (length (mem s)) (length src - length (mem s))) ++ oob s.
Proof.
  intros H. rewrite <- (take_drop (length (mem s)) src) at 1. rewrite memcpy_app.
  rewrite length_take, Nat.min_l, Nat.add_0_l by lia.
  rewrite memcpy_outside by (rewrite memcpy_length; lia).
  rewrite memcpy_inside by (rewrite length_take; lia).
  cbn [oob]. rewrite length_drop. reflexivity.
Qed.

Lemma strided_length (n step : nat) : length (strided n step) = (n + step - 1) / step.
Proof. unfold strided. rewrite length_fmap, length_seq. reflexivity. Qed.

Lemma ndz_chunks_words (vertices : list Z) (vertex_count vertex_size k : nat) (idx : list nat) :
  forall last,
    exists m, length (fst (ndz_chunks vertices vertex_count vertex_size k idx last)) = 4 * m
              /\ length idx <= m <= 33 * length idx.
Proof.
  induction idx as [|i idx IH]; intros last.
  - exists 0. split; [reflexivity|simpl; lia].
  - rewrite ndz_chunks_cons.
    destruct (IH (snd (ndz_deltas vertices vertex_count vertex_size k i last))) as (m & Hm & Hb).
    set (t := ndz_transpose _).
    exists (1 + length (ndz_planes t) + m).
    change (fst (?a, ?b)) with a. rewrite length_app, ndz_chunk_length, Hm.
    pose proof (ndz_planes_length t). cbn [length]. lia.
Qed.

Lemma concat_words {A : Type} (f : A -> list Z) (l : list A) (lo hi : nat) :
  (forall x, x ∈ l -> exists m, length (f x) = 4 * m /\ lo <= m <= hi) ->
  exists m, length (concat (f <$> l)) = 4 * m /\ length l * lo <= m <= length l * hi.
Proof.
  induction l as [|x l IH]; intros H.
  - exists 0. simpl. lia.
  - destruct (H x ltac:(left)) as (m & Hm & Hb).
    destruct IH as (m' & Hm' & Hb'); [intros y Hy; apply H; right; exact Hy|].
    exists (m + m'). rewrite fmap_cons. cbn [concat length]. rewrite length_app. lia.
Qed.

Lemma ndz_stream_words (vertices : list Z) (vertex_count vertex_size : nat) :
  exists m, length (ndz_stream vertices vertex_count vertex_size) = 4 * m
            /\ ndz_chunk_count vertex_count vertex_size <= m
               <= 33 * ndz_chunk_count vertex_count vertex_size.
Proof.
  unfold ndz_stream, ndz_chunk_count.
  destruct (concat_words (ndz_channel vertices vertex_count vertex_size) (strided vertex_size 4)
              ((vertex_count + 31) / 32) (33 * ((vertex_count + 31) / 32)))
    as (m & Hm & Hb).
  - intros k _. unfold ndz_channel.
    destruct (ndz_chunks_words vertices vertex_count vertex_size k (strided vertex_count 32) 0%Z)
      as (m & Hm & Hb).
    rewrite strided_length in Hb. exists m. split; [exact Hm|].
    replace (vertex_count + 32 - 1) with (vertex_count + 31) in Hb by lia. exact Hb.
  - exists m. split; [exact Hm|]. rewrite strided_length in Hb.
    replace (vertex_size + 4 - 1) with (vertex_size + 3) in Hb by lia. lia.
Qed.

(** X7: [encodeNDZ] returns a multiple of 4: for each of the
    [ceil(vertex_size / 4) * ceil(vertex_count / 32)] chunks the 4 bytes of
    the mask and 4 bytes for each of at most 32 planes.  The length of the
    buffer stays what it was.  When the buffer holds the returned size, no
    byte is written outside of it, it starts with the stream and is unchanged
    after it; when it does not, every offset from the end of the buffer up to
    the returned size is written outside of it, in this order. *)
Theorem encodeNDZ_size_and_room (buffer_size : nat) (vertices : list Z)
    (vertex_count vertex_size : nat) (s : store) :
  exists m s',
    encodeNDZ buffer_size vertices vertex_count vertex_size s = (4 * m, s')
    /\ ndz_chunk_count vertex_count vertex_size <= m
       <= 33 * ndz_chunk_count vertex_count vertex_size
    /\ length (mem s') = length (mem s)
    /\ (4 * m <= length (mem s) ->
        oob s' = oob s
        /\ take (4 * m) (mem s') = ndz_stream vertices vertex_count vertex_size
        /\ beyond (4 * m) s s')
    /\ (length (mem s) < 4 * m ->
        oob s' = rev (seq (length (mem s)) (4 * m - length (mem s))) ++ oob s).
Proof.
  destruct (ndz_stream_words vertices vertex_count vertex_size) as (m & Hm & Hb).
  exists m, (memcpy 0 (ndz_stream vertices vertex_count vertex_size) s).
  rewrite encodeNDZ_stream, Hm. split; [reflexivity|]. split; [exact Hb|].
  split; [apply memcpy_length|]. split.
  - intros Hroom. split; [|split].
    + rewrite memcpy_inside by (rewrite Hm; lia). reflexivity.
    + rewrite <- Hm. apply (memcpy_written 0). rewrite Hm. exact Hroom.
    + apply memcpy_beyond; rewrite Hm; lia.
  - intros Hfull. rewrite <- Hm. apply memcpy_overflow. lia.
Qed.

(** ** The transposition of encodeNDZ *)

Lemma ndz_transpose_rows (deltas : list Z) :
  ndz_transpose deltas = ndz_rows deltas (seq 0 32) (replicate 32 0%Z).
Proof. unfold ndz_transpose, ndz_rows, ndz_row. reflexivity. Qed.

Lemma fold_left_cons {A B : Type} (f : A -> B -> A) (x : B) (l : list B) (a : A) :
  fold_left f (x :: l) a = fold_left f l (f a x).
Proof. reflexivity. Qed.

Lemma land_bit (a : Z) (n : nat) :
  (Z.land a (Z.shiftl 1 (Z.of_nat n)) =? 0)%Z = negb (Z.testbit a (Z.of_nat n)).
Proof.
  rewrite Z.shiftl_1_l.
  destruct (Z.testbit a (Z.of_nat n)) eqn:Hbit; cbn [negb].
  - apply Z.eqb_neq. intros H. apply (f_equal (fun v => Z.testbit v (Z.of_nat n))) in H.
    rewrite Z.land_spec, Hbit, Z.pow2_bits_true, Z.bits_0 in H by lia. discriminate.
  - apply Z.eqb_eq. apply Z.bits_inj'. intros m Hm.
    rewrite Z.land_spec, Z.bits_0, Z.pow2_bits_eqb by lia.
    destruct (Z.eqb_spec (Z.of_nat n) m) as [<-|_]; [rewrite Hbit|rewrite andb_false_r];
      reflexivity.
Qed.

Lemma rd_insert (l : list Z) (i j : nat) (v : Z) :
  i < length l -> rd (<[i := v]> l) j = if decide (i = j) then v else rd l j.
Proof.
  intros Hi. unfold rd. rewrite !nth_lookup. destruct (decide (i = j)) as [<-|Hne].
  - rewrite list_lookup_insert_eq by exact Hi. reflexivity.
  - rewrite list_lookup_insert_ne by exact Hne. reflexivity.
Qed.

Lemma ndz_row_cons (deltas : list Z) (jr jc : nat) (columns : list nat) (transposed : list Z) :
  ndz_row deltas jr (jc :: columns) transposed
  = ndz_row deltas jr columns
      (if Z.testbit (rd deltas jc) (Z.of_nat jr)
       then <[jr := Z.lor (rd transposed jr) (Z.shiftl 1 (Z.of_nat jc))]> transposed
       else transposed).
Proof.
  unfold ndz_row at 1. unfold fold_left at 1. fold (@fold_left (list Z) nat).
  rewrite land_bit. destruct (Z.testbit (rd deltas jc) (Z.of_nat jr)); reflexivity.
Qed.

Lemma ndz_row_word_cons (deltas : list Z) (jr jc : nat) (columns : list nat) (row : Z) :
  ndz_row_word deltas jr (jc :: columns) row
  = ndz_row_word deltas jr columns
      (if Z.testbit (rd deltas jc) (Z.of_nat jr)
       then Z.lor row (Z.shiftl 1 (Z.of_nat jc)) else row).
Proof. reflexivity. Qed.

Lemma ndz_rows_cons (deltas : list Z) (jr : nat) (rows : list nat) (transposed : list Z) :
  ndz_rows deltas (jr :: rows) transposed
  = ndz_rows deltas rows (ndz_row deltas jr (seq 0 32) transposed).
Proof. unfold ndz_rows. rewrite fold_left_cons. reflexivity. Qed.

Lemma row_loop (deltas : list Z) (jr : nat) (columns : list nat) :
  forall (transposed : list Z),
    jr < length transposed ->
    ndz_row deltas jr columns transposed
    = <[jr := ndz_row_word deltas jr columns (rd transposed jr)]> transposed.
Proof.
  induction columns as [|jc columns IH]; intros transposed Hjr.
  - unfold ndz_row, ndz_row_word, fold_left. symmetry. apply list_insert_id.
    unfold rd. rewrite nth_lookup.
    destruct (lookup_lt_is_Some_2 transposed jr Hjr) as [v Hv]. rewrite Hv. reflexivity.
  - rewrite ndz_row_cons, ndz_row_word_cons.
    destruct (Z.testbit (rd deltas jc) (Z.of_nat jr)).
    + rewrite IH by (rewrite length_insert; exact Hjr).
      rewrite rd_insert by exact Hjr. rewrite decide_True by reflexivity.
      rewrite list_insert_insert_eq. reflexivity.
    + apply IH. exact Hjr.
Qed.

Lemma row_bits (deltas : list Z) (jr : nat) (columns : list nat) :
  forall (row : Z) (c : nat),
    Z.testbit (ndz_row_word deltas jr columns row) (Z.of_nat c) = true
    <-> Z.testbit row (Z.of_nat c) = true
        \/ (c ∈ columns /\ Z.testbit (rd deltas c) (Z.of_nat jr) = true).
Proof.
  induction columns as [|jc columns IH]; intros row c.
  - unfold ndz_row_word, fold_left. split; [auto|].
    intros [H|[H _]]; [exact H|by apply elem_of_nil in H].
  - rewrite ndz_row_word_cons, IH, elem_of_cons.
    destruct (Z.testbit (rd deltas jc) (Z.of_nat jr)) eqn:Hbit.
    + rewrite Z.lor_spec, Z.shiftl_1_l, Z.pow2_bits_eqb, orb_true_iff, Z.eqb_eq by lia.
      split.
      * intros [[H|H]|H]; [auto| |tauto].
        apply Nat2Z.inj in H. subst jc. auto.
      * intros [H|[[->|H] Hc]]; auto.
    + split; [tauto|]. intros [H|[[->|H] Hc]]; auto. congruence.
Qed.

Lemma rows_loop (deltas : list Z) (rows : list nat) :
  forall (transposed : list Z),
    length transposed = 32 -> Forall (fun jr => jr < 32) rows ->
    length (ndz_rows deltas rows transposed) = 32
    /\ forall j c,
         Z.testbit (rd (ndz_rows deltas rows transposed) j) (Z.of_nat c) = true
         <-> Z.testbit (rd transposed j) (Z.of_nat c) = true
             \/ (j ∈ rows /\ c < 32 /\ Z.testbit (rd deltas c) (Z.of_nat j) = true).
Proof.
  induction rows as [|jr rows IH]; intros transposed Hlen Hrows.
  - split; [exact Hlen|]. intros j c. split; [auto|].
    intros [H|[H _]]; [exact H|by apply elem_of_nil in H].
  - apply Forall_cons in Hrows as [Hjr Hrows].
    rewrite ndz_rows_cons, row_loop by lia.
    pose proof (fun c => row_bits deltas jr (seq 0 32) (rd transposed jr) c) as Hrowbits.
    revert Hrowbits. generalize (ndz_row_word deltas jr (seq 0 32) (rd transposed jr)).
    intros row Hrowbits.
    destruct (IH (<[jr := row]> transposed)) as [Hlen1 Hbits];
      [rewrite length_insert; exact Hlen|exact Hrows|].
    split; [exact Hlen1|]. intros j c.
    etransitivity; [apply Hbits|]. clear Hbits Hlen1.
    rewrite rd_insert by lia. rewrite elem_of_cons.
    destruct (decide (jr = j)) as [->|Hne].
    + specialize (Hrowbits c). rewrite elem_of_seq in Hrowbits. split.
      * intros [H|H]; [|tauto]. apply Hrowbits in H as [H|[Hc H]]; [auto|].
        right. split; [auto|]. split; [lia|exact H].
      * intros [H|H]; [left; apply Hrowbits; auto|].
        destruct H as ([_|Hin] & Hc & Hb).
        -- left. apply Hrowbits. right. split; [lia|exact Hb].
        -- right. auto.
    + split.
      * intros [H|(H & Hc & Hb)]; auto.
      * intros [H|([->|H] & Hc & Hb)]; auto; congruence.
Qed.

Opaque ndz_transpose ndz_rows ndz_row ndz_row_word.

Lemma bits_below (x : Z) (n : Z) :
  (0 <= n)%Z -> (0 <= x)%Z -> (forall m, (n <= m)%Z -> Z.testbit x m = false) -> (x < 2 ^ n)%Z.
Proof.
  intros Hn Hx Hbits. destruct (Z.eq_dec x 0%Z) as [->|Hne]; [apply Z.pow_pos_nonneg; lia|].
  apply Z.log2_lt_pow2; [lia|].
  destruct (Z.lt_ge_cases (Z.log2 x) n) as [Hlt|Hge]; [exact Hlt|].
  pose proof (Z.bit_log2 x ltac:(lia)) as Hbit. rewrite Hbits in Hbit by exact Hge.
  discriminate.
Qed.

Lemma bits_above (x : Z) (n m : Z) :
  (0 <= x < 2 ^ n)%Z -> (n <= m)%Z -> Z.testbit x m = false.
Proof.
  intros Hx Hm. destruct (Z.eq_dec x 0%Z) as [->|Hne]; [apply Z.bits_0|].
  apply Z.bits_above_log2; [lia|].
  assert (0 <= n)%Z.
  { destruct (Z.lt_ge_cases n 0) as [Hneg|]; [|lia]. rewrite Z.pow_neg_r in Hx by lia. lia. }
  assert (Z.log2 x < n)%Z by (apply Z.log2_lt_pow2; lia). lia.
Qed.

Lemma ndz_row_word_nonneg (deltas : list Z) (jr : nat) (columns : list nat) :
  forall row, (0 <= row)%Z -> (0 <= ndz_row_word deltas jr columns row)%Z.
Proof.
  induction columns as [|jc columns IH]; intros row Hrow; [exact Hrow|].
  rewrite ndz_row_word_cons. apply IH.
  destruct (Z.testbit (rd deltas jc) (Z.of_nat jr)); [|exact Hrow].
  apply Z.lor_nonneg. split; [exact Hrow|]. rewrite Z.shiftl_1_l. apply Z.pow_nonneg. lia.
Qed.

Lemma ndz_rows_nonneg (deltas : list Z) (rows : list nat) :
  forall (transposed : list Z),
    length transposed = 32 -> Forall (fun jr => jr < 32) rows ->
    Forall (fun v => (0 <= v)%Z) transposed ->
    Forall (fun v => (0 <= v)%Z) (ndz_rows deltas rows transposed).
Proof.
  induction rows as [|jr rows IH]; intros transposed Hlen Hrows Hpos; [exact Hpos|].
  apply Forall_cons in Hrows as [Hjr Hrows].
  rewrite ndz_rows_cons, row_loop by lia. apply IH.
  - rewrite length_insert. exact Hlen.
  - exact Hrows.
  - apply Forall_insert; [exact Hpos|]. apply ndz_row_word_nonneg.
    unfold rd. rewrite nth_lookup.
    destruct (transposed !! jr) as [v|] eqn:Hv; [|simpl; lia].
    simpl. eapply Forall_lookup_1 in Hpos; [|exact Hv]. exact Hpos.
Qed.

Lemma seq_below (n : nat) : Forall (fun j => j < n) (seq 0 n).
Proof. apply Forall_forall. intros j Hj. apply elem_of_seq in Hj. lia. Qed.

Lemma ndz_transpose_length (deltas : list Z) : length (ndz_transpose deltas) = 32.
Proof.
  rewrite ndz_transpose_rows.
  apply (rows_loop deltas (seq 0 32) (replicate 32 0%Z)); [reflexivity|apply seq_below].
Qed.

Lemma ndz_transpose_bit (deltas : list Z) (jr jc : nat) :
  Z.testbit (rd (ndz_transpose deltas) jr) (Z.of_nat jc) = true
  <-> jr < 32 /\ jc < 32 /\ Z.testbit (rd deltas jc) (Z.of_nat jr) = true.
Proof.
  rewrite ndz_transpose_rows.
  destruct (rows_loop deltas (seq 0 32) (replicate 32 0%Z) eq_refl (seq_below 32)) as [_ H].
  etransitivity; [apply H|]. rewrite rd_replicate_0, Z.bits_0, elem_of_seq. split.
  - intros [?|(? & ? & ?)]; [discriminate|]. split; [lia|]. auto.
  - intros (? & ? & ?). right. split; [lia|]. auto.
Qed.

Lemma ndz_transpose_range (deltas : list Z) (jr : nat) :
  (0 <= rd (ndz_transpose deltas) jr < 2 ^ 32)%Z.
Proof.
  assert (Hpos : (0 <= rd (ndz_transpose deltas) jr)%Z).
  { pose proof (ndz_rows_nonneg deltas (seq 0 32) (replicate 32 0%Z) eq_refl (seq_below 32)) as H.
    rewrite <- (ndz_transpose_rows deltas) in H.
    unfold rd. rewrite nth_lookup.
    destruct (ndz_transpose deltas !! jr) as [v|] eqn:Hv; [|simpl; lia].
    simpl. eapply Forall_lookup_1 in H; [exact H| |exact Hv].
    apply Forall_replicate. lia. }
  split; [exact Hpos|]. apply bits_below; [lia|exact Hpos|].
  intros m Hm. destruct (Z.testbit (rd (ndz_transpose deltas) jr) m) eqn:Hbit; [|reflexivity].
  rewrite <- (Z2Nat.id m) in Hbit by lia. apply ndz_transpose_bit in Hbit. lia.
Qed.

Lemma ndz_transpose_bit_eq (deltas : list Z) (jr jc : nat) :
  jr < 32 -> jc < 32 ->
  Z.testbit (rd (ndz_transpose deltas) jr) (Z.of_nat jc)
  = Z.testbit (rd deltas jc) (Z.of_nat jr).
Proof.
  intros Hjr Hjc. pose proof (ndz_transpose_bit deltas jr jc) as H.
  destruct (Z.testbit (rd (ndz_transpose deltas) jr) (Z.of_nat jc)),
    (Z.testbit (rd deltas jc) (Z.of_nat jr)); try reflexivity.
  - destruct H as [H _]. destruct (H eq_refl) as (_ & _ & ?). discriminate.
  - destruct H as [_ H]. apply H. auto.
Qed.

(** X8: the two loops over [jr] and [jc] of [encodeNDZ] transpose the 32 by
    32 matrix of the bits of the deltas: the array [transposed] has 32
    entries, every one an [unsigned int], and bit [jc] of [transposed[jr]]
    is bit [jr] of [deltas[jc]]. *)
Theorem ndz_transpose_bits (deltas : list Z) :
  length (ndz_transpose deltas) = 32
  /\ (forall jr, (0 <= rd (ndz_transpose deltas) jr < 2 ^ 32)%Z)
  /\ (forall jr jc, jr < 32 -> jc < 32 ->
        Z.testbit (rd (ndz_transpose deltas) jr) (Z.of_nat jc)
        = Z.testbit (rd deltas jc) (Z.of_nat jr)).
Proof.
  split; [apply ndz_transpose_length|]. split; [apply ndz_transpose_range|].
  apply ndz_transpose_bit_eq.
Qed.

Lemma ndz_transpose_involutive_run (deltas : list Z) :
  length deltas = 32 -> Forall (fun d => (0 <= d < 2 ^ 32)%Z) deltas ->
  ndz_transpose (ndz_transpose deltas) = deltas.
Proof.
  intros Hlen Hrange. apply (nth_ext _ _ 0%Z 0%Z); [rewrite ndz_transpose_length; lia|].
  intros j Hj. rewrite ndz_transpose_length in Hj.
  change (rd (ndz_transpose (ndz_transpose deltas)) j = rd deltas j).
  assert (Hd : (0 <= rd deltas j < 2 ^ 32)%Z).
  { unfold rd. rewrite nth_lookup. destruct (deltas !! j) as [v|] eqn:Hv; [|simpl; lia].
    simpl. eapply Forall_lookup_1 in Hrange; [exact Hrange|exact Hv]. }
  apply Z.bits_inj'. intros n Hn.
  destruct (Z.lt_ge_cases n 32) as [Hlt|Hge].
  - rewrite <- (Z2Nat.id n) by lia.
    rewrite (ndz_transpose_bit_eq (ndz_transpose deltas) j (Z.to_nat n)),
      (ndz_transpose_bit_eq deltas (Z.to_nat n) j) by lia.
    reflexivity.
  - rewrite (bits_above _ 32 n) by (apply ndz_transpose_range || exact Hge).
    rewrite (bits_above _ 32 n) by (exact Hd || exact Hge). reflexivity.
Qed.

(** X9: on 32 deltas that are [unsigned int] values the transposition is
    its own inverse. *)
Theorem ndz_transpose_involutive (deltas : list Z) :
  length deltas = 32 -> Forall (fun d => (0 <= d < 2 ^ 32)%Z) deltas ->
  ndz_transpose (ndz_transpose deltas) = deltas.
Proof. apply ndz_transpose_involutive_run. Qed.

Lemma ndz_transpose_involutive_witness :
  ndz_transpose (ndz_transpose ((fun j => Z.of_nat j * 134217727)%Z <$> seq 0 32))
  = (fun j => Z.of_nat j * 134217727)%Z <$> seq 0 32.
Proof.
  apply ndz_transpose_involutive; [reflexivity|].
  apply Forall_fmap, Forall_forall. intros j Hj. apply elem_of_seq in Hj.
  unfold compose. lia.
Defined.

(** ** The mask and the planes of a chunk *)

Lemma mask_loop (transposed : list Z) (idx : list nat) :
  forall (mask : Z) (c : nat),
    Z.testbit
      (fold_left
         (fun mask j =>
            if (rd transposed j =? 0)%Z then mask else Z.lor mask (Z.shiftl 1 (Z.of_nat j)))
         idx mask) (Z.of_nat c) = true
    <-> Z.testbit mask (Z.of_nat c) = true \/ (c ∈ idx /\ rd transposed c <> 0%Z).
Proof.
  induction idx as [|j idx IH]; intros mask c.
  - change (fold_left ?f [] mask) with mask. split; [auto|].
    intros [H|[H _]]; [exact H|by apply elem_of_nil in H].
  - rewrite fold_left_cons. cbv beta. etransitivity; [apply IH|]. rewrite elem_of_cons.
    destruct (Z.eqb_spec (rd transposed j) 0) as [Hz|Hnz].
    + split; [tauto|]. intros [H|[[->|H] Hc]]; auto; contradiction.
    + rewrite Z.lor_spec, Z.shiftl_1_l, Z.pow2_bits_eqb, orb_true_iff, Z.eqb_eq by lia.
      split.
      * intros [[H|H]|H]; [auto| |tauto]. apply Nat2Z.inj in H. subst j. auto.
      * intros [H|[[->|H] Hc]]; auto.
Qed.

Lemma mask_loop_nonneg (transposed : list Z) (idx : list nat) :
  forall (mask : Z),
    (0 <= mask)%Z ->
    (0 <= fold_left
            (fun mask j =>
               if (rd transposed j =? 0)%Z then mask else Z.lor mask (Z.shiftl 1 (Z.of_nat j)))
            idx mask)%Z.
Proof.
  induction idx as [|j idx IH]; intros mask Hmask; [exact Hmask|].
  rewrite fold_left_cons. cbv beta. apply IH.
  destruct (rd transposed j =? 0)%Z; [exact Hmask|].
  apply Z.lor_nonneg. split; [exact Hmask|]. rewrite Z.shiftl_1_l. apply Z.pow_nonneg. lia.
Qed.

Lemma ndz_mask_bit (transposed : list Z) (j : nat) :
  Z.testbit (ndz_mask transposed) (Z.of_nat j) = true <-> j < 32 /\ rd transposed j <> 0%Z.
Proof.
  unfold ndz_mask. etransitivity; [apply mask_loop|]. rewrite Z.bits_0, elem_of_seq.
  split; [intros [?|[? ?]]; [discriminate|split; [lia|assumption]]|].
  intros [? ?]. right. split; [lia|assumption].
Qed.

Lemma ndz_mask_range (transposed : list Z) : (0 <= ndz_mask transposed < 2 ^ 32)%Z.
Proof.
  assert (Hpos : (0 <= ndz_mask transposed)%Z) by (apply mask_loop_nonneg; lia).
  split; [exact Hpos|]. apply bits_below; [lia|exact Hpos|].
  intros m Hm. destruct (Z.testbit (ndz_mask transposed) m) eqn:Hbit; [|reflexivity].
  rewrite <- (Z2Nat.id m) in Hbit by lia. apply ndz_mask_bit in Hbit. lia.
Qed.

Lemma ndz_mask_bit_eq (transposed : list Z) (j : nat) :
  j < 32 -> Z.testbit (ndz_mask transposed) (Z.of_nat j) = negb (rd transposed j =? 0)%Z.
Proof.
  intros Hj. pose proof (ndz_mask_bit transposed j) as H.
  destruct (Z.eqb_spec (rd transposed j) 0) as [Hz|Hnz]; cbn [negb].
  - destruct (Z.testbit (ndz_mask transposed) (Z.of_nat j)); [|reflexivity].
    destruct H as [H _]. destruct (H eq_refl) as [_ ?]. contradiction.
  - apply H. auto.
Qed.

Lemma planes_of_mask (transposed : list Z) (mask : Z) (idx : list nat) :
  (forall j, j ∈ idx -> Z.testbit mask (Z.of_nat j) = negb (rd transposed j =? 0)%Z) ->
  filter (fun v => negb (v =? 0)%Z) (rd transposed <$> idx)
  = rd transposed <$> filter (fun j => Z.testbit mask (Z.of_nat j)) idx.
Proof.
  induction idx as [|j idx IH]; intros H; [reflexivity|].
  rewrite fmap_cons. pose proof (H j ltac:(left)) as Hj.
  assert (IH' := IH (fun i Hi => H i ltac:(right; exact Hi))).
  destruct (rd transposed j =? 0)%Z eqn:Hz; cbn [negb] in Hj.
  - rewrite filter_cons_False by (rewrite Hz; exact id).
    rewrite (filter_cons_False _ j idx) by (rewrite Hj; exact id). exact IH'.
  - rewrite filter_cons_True by (rewrite Hz; exact I).
    rewrite (filter_cons_True _ j idx) by (rewrite Hj; exact I).
    rewrite fmap_cons, IH'. reflexivity.
Qed.

Lemma ndz_chunk_by_mask (transposed : list Z) :
  ndz_chunk transposed
  = u32_bytes (ndz_mask transposed)
    ++ concat (u32_bytes <$> (rd transposed
                <$> filter (fun j => Z.testbit (ndz_mask transposed) (Z.of_nat j))
                      (seq 0 32))).
Proof.
  unfold ndz_chunk, ndz_planes. rewrite (planes_of_mask transposed (ndz_mask transposed)).
  - reflexivity.
  - intros j Hj. apply elem_of_seq in Hj. apply ndz_mask_bit_eq. lia.
Qed.

(** X10: the mask of a chunk is an [unsigned int] whose bit [j] tells whether
    [transposed[j]] is not zero, and the planes that follow it in the stream
    are the entries of [transposed] at the bits that are set in the mask, in
    ascending order: the mask tells how many planes follow and which ones. *)
Theorem ndz_mask_planes (transposed : list Z) :
  (0 <= ndz_mask transposed < 2 ^ 32)%Z
  /\ (forall j, j < 32 ->
        Z.testbit (ndz_mask transposed) (Z.of_nat j) = negb (rd transposed j =? 0)%Z)
  /\ ndz_chunk transposed
     = u32_bytes (ndz_mask transposed)
       ++ concat (u32_bytes <$> (rd transposed
                   <$> filter (fun j => Z.testbit (ndz_mask transposed) (Z.of_nat j))
                         (seq 0 32))).
Proof.
  split; [apply ndz_mask_range|]. split; [apply ndz_mask_bit_eq|].
  apply ndz_chunk_by_mask.
Qed.

Lemma u32_bytes_value (v : Z) :
  (0 <= v < 2 ^ 32)%Z ->
  v = (rd (u32_bytes v) 0 + rd (u32_bytes v) 1 * 2 ^ 8 + rd (u32_bytes v) 2 * 2 ^ 16
       + rd (u32_bytes v) 3 * 2 ^ 24)%Z.
Proof.
  intros Hv. unfold u32_bytes. cbn [fmap list_fmap seq rd nth]. unfold to_uchar.
  rewrite !Z.shiftr_div_pow2 by lia.
  change (8 * Z.of_nat 0)%Z with 0%Z. change (8 * Z.of_nat 1)%Z with 8%Z.
  change (8 * Z.of_nat 2)%Z with 16%Z. change (8 * Z.of_nat 3)%Z with 24%Z.
  change (2 ^ 0)%Z with 1%Z. change (2 ^ 8)%Z with 256%Z. change (2 ^ 16)%Z with 65536%Z.
  change (2 ^ 24)%Z with 16777216%Z. change (2 ^ 32)%Z with 4294967296%Z in Hv.
  Z.div_mod_to_equations. lia.
Qed.

Lemma u32_bytes_inj (v v' : Z) :
  (0 <= v < 2 ^ 32)%Z -> (0 <= v' < 2 ^ 32)%Z -> u32_bytes v = u32_bytes v' -> v = v'.
Proof.
  intros Hv Hv' H. rewrite (u32_bytes_value v Hv), (u32_bytes_value v' Hv'), H. reflexivity.
Qed.

(** ** The deltas of a chunk *)

Lemma ndz_deltas_loop (vertices : list Z) (vertex_size k i : nat) (m : nat) :
  forall (a : nat) (pre : list Z) (last : Z),
    length pre = a -> a + m <= 32 ->
    fold_left
      (fun '(deltas, last) j =>
         let value := load_u32 vertices ((i + j) * vertex_size + k) in
         let value := to_u32 (Z.lor (Z.shiftl value 1) (Z.shiftr value 31)) in
         let d := to_u32 (value - last) in
         let d := Z.lxor d (if (Z.shiftr d 31 =? 0)%Z then 0 else 0x7fffffff)%Z in
         (<[j := d]> deltas, value))
      (seq a m) (pre ++ replicate (32 - a) 0%Z, last)
    = (pre ++ ndz_delta_list last (ndz_values vertices vertex_size k i a m)
           ++ replicate (32 - a - m) 0%Z,
       fold_left (fun _ value => value) (ndz_values vertices vertex_size k i a m) last).
Proof.
  induction m as [|m IH]; intros a pre last Hpre Hm.
  - unfold ndz_values. cbn [seq fmap list_fmap ndz_delta_list fold_left app].
    rewrite Nat.sub_0_r. reflexivity.
  - unfold ndz_values. cbn [seq]. rewrite fmap_cons, !fold_left_cons. cbv beta iota zeta.
    fold (ndz_value vertices vertex_size k (i + a)).
    fold (ndz_fold (to_u32 (ndz_value vertices vertex_size k (i + a) - last))).
    cbn [ndz_delta_list].
    replace (replicate (32 - a) 0%Z) with (0%Z :: replicate (32 - S a) 0%Z)
      by (replace (32 - a) with (S (32 - S a)) by lia; reflexivity).
    rewrite insert_app_r_alt by lia. rewrite Hpre, Nat.sub_diag. cbn [insert list_insert].
    rewrite (cons_middle _ pre), app_assoc.
    rewrite (IH (S a)) by (rewrite ?length_app; cbn [length]; lia).
    rewrite <- app_assoc. cbn [app].
    replace (32 - S a - m) with (32 - a - S m) by lia. reflexivity.
Qed.

Lemma ndz_deltas_spec (vertices : list Z) (vertex_count vertex_size k i : nat) (last : Z) :
  let m := Nat.min 32 (vertex_count - i) in
  ndz_deltas vertices vertex_count vertex_size k i last
  = (ndz_delta_list last (ndz_values vertices vertex_size k i 0 m) ++ replicate (32 - m) 0%Z,
     fold_left (fun _ value => value) (ndz_values vertices vertex_size k i 0 m) last).
Proof.
  intros m.
  pose proof (ndz_deltas_loop vertices vertex_size k i m 0 [] last eq_refl
                ltac:(unfold m; lia)) as H.
  rewrite !Nat.sub_0_r in H. exact H.
Qed.

Lemma to_u32_range (v : Z) : (0 <= to_u32 v < 2 ^ 32)%Z.
Proof. unfold to_u32. apply Z.mod_pos_bound. lia. Qed.

Lemma shiftr_31 (d : Z) :
  (0 <= d < 2 ^ 32)%Z -> ((Z.shiftr d 31 =? 0)%Z = (d <? 2 ^ 31)%Z).
Proof.
  intros Hd. rewrite Z.shiftr_div_pow2 by lia.
  change (2 ^ 31)%Z with 2147483648%Z. change (2 ^ 32)%Z with 4294967296%Z in Hd.
  destruct (Z.ltb_spec d 2147483648), (Z.eqb_spec (d / 2147483648) 0); try reflexivity;
    Z.div_mod_to_equations; lia.
Qed.

Lemma ndz_fold_range (d : Z) : (0 <= d < 2 ^ 32)%Z -> (0 <= ndz_fold d < 2 ^ 32)%Z.
Proof.
  intros Hd. unfold ndz_fold.
  assert (Hm : (0 <= (if (Z.shiftr d 31 =? 0)%Z then 0 else 0x7fffffff) < 2 ^ 32)%Z)
    by (destruct (Z.shiftr d 31 =? 0)%Z; lia).
  revert Hm. generalize (if (Z.shiftr d 31 =? 0)%Z then 0%Z else 0x7fffffff%Z). intros m Hm.
  assert (Hpos : (0 <= Z.lxor d m)%Z) by (apply Z.lxor_nonneg; lia).
  split; [exact Hpos|]. apply bits_below; [lia|exact Hpos|].
  intros n Hn. rewrite Z.lxor_spec, (bits_above d 32 n), (bits_above m 32 n) by assumption.
  reflexivity.
Qed.

Lemma ndz_fold_high (d : Z) :
  (0 <= d < 2 ^ 32)%Z -> (ndz_fold d <? 2 ^ 31)%Z = (d <? 2 ^ 31)%Z.
Proof.
  intros Hd. pose proof (ndz_fold_range d Hd) as Hf.
  rewrite <- !shiftr_31 by assumption. unfold ndz_fold.
  rewrite Z.shiftr_lxor.
  destruct (Z.shiftr d 31 =? 0)%Z eqn:E;
    [rewrite Z.shiftr_0_l|change (Z.shiftr 0x7fffffff 31) with 0%Z];
    rewrite Z.lxor_0_r; exact E.
Qed.

Lemma ndz_fold_involutive (d : Z) : (0 <= d < 2 ^ 32)%Z -> ndz_fold (ndz_fold d) = d.
Proof.
  intros Hd. pose proof (ndz_fold_high d Hd) as Hh.
  rewrite <- !shiftr_31 in Hh by (apply ndz_fold_range || idtac; assumption).
  unfold ndz_fold at 1. rewrite Hh. unfold ndz_fold.
  rewrite Z.lxor_assoc, Z.lxor_nilpotent, Z.lxor_0_r. reflexivity.
Qed.

Lemma ndz_delta_inj (value value' last : Z) :
  (0 <= value < 2 ^ 32)%Z -> (0 <= value' < 2 ^ 32)%Z ->
  ndz_fold (to_u32 (value - last)) = ndz_fold (to_u32 (value' - last)) -> value = value'.
Proof.
  intros Hv Hv' H. apply (f_equal ndz_fold) in H.
  rewrite !ndz_fold_involutive in H by apply to_u32_range.
  unfold to_u32 in H. change (2 ^ 32)%Z with 4294967296%Z in *.
  Z.div_mod_to_equations. lia.
Qed.

Lemma ndz_delta_roundtrip (value last : Z) :
  (0 <= value < 2 ^ 32)%Z ->
  to_u32 (ndz_fold (ndz_fold (to_u32 (value - last))) + last) = value.
Proof.
  intros Hv. rewrite ndz_fold_involutive by apply to_u32_range.
  unfold to_u32. change (2 ^ 32)%Z with 4294967296%Z in *.
  Z.div_mod_to_equations. lia.
Qed.

Lemma ndz_delta_list_length (last : Z) (values : list Z) :
  length (ndz_delta_list last values) = length values.
Proof.
  revert last. induction values as [|v values IH]; intros last; [reflexivity|].
  cbn [ndz_delta_list length]. rewrite IH. reflexivity.
Qed.

Lemma ndz_delta_list_range (last : Z) (values : list Z) :
  Forall (fun d => (0 <= d < 2 ^ 32)%Z) (ndz_delta_list last values).
Proof.
  revert last. induction values as [|v values IH]; intros last; constructor; [|apply IH].
  apply ndz_fold_range, to_u32_range.
Qed.

Lemma ndz_delta_list_inj (values : list Z) :
  forall (values' : list Z) (last : Z),
    Forall (fun v => (0 <= v < 2 ^ 32)%Z) values ->
    Forall (fun v => (0 <= v < 2 ^ 32)%Z) values' ->
    ndz_delta_list last values = ndz_delta_list last values' -> values = values'.
Proof.
  induction values as [|v values IH]; intros [|v' values'] last Hr Hr' H;
    try discriminate; [reflexivity|].
  apply Forall_cons in Hr as [Hv Hr]. apply Forall_cons in Hr' as [Hv' Hr'].
  cbn [ndz_delta_list] in H. injection H as Hd H.
  apply ndz_delta_inj in Hd; [|assumption..]. subst v'. f_equal.
  eapply IH; eassumption.
Qed.

Lemma load_u32_range (vertices : list Z) (a : nat) :
  Forall is_byte vertices -> (0 <= load_u32 vertices a < 2 ^ 32)%Z.
Proof.
  intros Hb. unfold load_u32.
  pose proof (rd_nonneg vertices a Hb). pose proof (rd_nonneg vertices (a + 1) Hb).
  pose proof (rd_nonneg vertices (a + 2) Hb). pose proof (rd_nonneg vertices (a + 3) Hb).
  lia.
Qed.

Lemma load_u32_inj (vertices vertices' : list Z) (a : nat) :
  Forall is_byte vertices -> Forall is_byte vertices' ->
  load_u32 vertices a = load_u32 vertices' a ->
  forall b, b < 4 -> rd vertices (a + b) = rd vertices' (a + b).
Proof.
  intros Hb Hb' H b Hlt. unfold load_u32 in H.
  pose proof (rd_nonneg vertices a Hb). pose proof (rd_nonneg vertices (a + 1) Hb).
  pose proof (rd_nonneg vertices (a + 2) Hb). pose proof (rd_nonneg vertices (a + 3) Hb).
  pose proof (rd_nonneg vertices' a Hb'). pose proof (rd_nonneg vertices' (a + 1) Hb').
  pose proof (rd_nonneg vertices' (a + 2) Hb'). pose proof (rd_nonneg vertices' (a + 3) Hb').
  destruct b as [|[|[|[|b]]]]; [rewrite Nat.add_0_r| | | |lia]; lia.
Qed.

Lemma rotl_bit (x : Z) (n : Z) :
  (0 <= x < 2 ^ 32)%Z -> (0 <= n < 32)%Z ->
  Z.testbit (to_u32 (Z.lor (Z.shiftl x 1) (Z.shiftr x 31))) n
  = if (n =? 0)%Z then Z.testbit x 31 else Z.testbit x (n - 1).
Proof.
  intros Hx Hn. unfold to_u32. rewrite Z.mod_pow2_bits_low by lia.
  rewrite Z.lor_spec, Z.shiftl_spec, Z.shiftr_spec by lia.
  destruct (Z.eqb_spec n 0) as [->|Hne].
  - rewrite Z.testbit_neg_r by lia. reflexivity.
  - rewrite (bits_above x 32 (n + 31)) by (assumption || lia). apply orb_false_r.
Qed.

Lemma rotl_inj (x x' : Z) :
  (0 <= x < 2 ^ 32)%Z -> (0 <= x' < 2 ^ 32)%Z ->
  to_u32 (Z.lor (Z.shiftl x 1) (Z.shiftr x 31))
  = to_u32 (Z.lor (Z.shiftl x' 1) (Z.shiftr x' 31)) ->
  x = x'.
Proof.
  intros Hx Hx' H. apply Z.bits_inj'. intros n Hn.
  destruct (Z.lt_ge_cases n 32) as [Hlt|Hge].
  - destruct (Z.eq_dec n 31%Z) as [->|Hne].
    + apply (f_equal (fun v => Z.testbit v 0)) in H.
      rewrite !rotl_bit in H by (assumption || lia). exact H.
    + apply (f_equal (fun v => Z.testbit v (n + 1))) in H.
      rewrite !rotl_bit in H by (assumption || lia).
      destruct (Z.eqb_spec (n + 1) 0); [lia|].
      replace (n + 1 - 1)%Z with n in H by lia. exact H.
  - rewrite !(bits_above _ 32 n) by (assumption || lia). reflexivity.
Qed.

Lemma ndz_value_range (vertices : list Z) (vertex_size k r : nat) :
  (0 <= ndz_value vertices vertex_size k r < 2 ^ 32)%Z.
Proof. apply to_u32_range. Qed.

Lemma ndz_values_range (vertices : list Z) (vertex_size k i a m : nat) :
  Forall (fun v => (0 <= v < 2 ^ 32)%Z) (ndz_values vertices vertex_size k i a m).
Proof. apply Forall_fmap, Forall_forall. intros j _. apply ndz_value_range. Qed.

Lemma ndz_values_length (vertices : list Z) (vertex_size k i a m : nat) :
  length (ndz_values vertices vertex_size k i a m) = m.
Proof. unfold ndz_values. rewrite length_fmap, length_seq. reflexivity. Qed.

Lemma ndz_delta_list_rd (values : list Z) :
  forall (last : Z) (j : nat),
    j < length values ->
    rd (ndz_delta_list last values) j
    = ndz_fold (to_u32 (rd values j - (if j =? 0 then last else rd values (j - 1)))).
Proof.
  induction values as [|v values IH]; intros last j Hj; [simpl in Hj; lia|].
  destruct j as [|j]; [reflexivity|].
  cbn [ndz_delta_list length] in *. change (rd (?x :: ?l) (S j)) with (rd l j).
  rewrite IH by lia. cbn [Nat.eqb]. rewrite Nat.sub_succ, Nat.sub_0_r.
  destruct j as [|j]; [reflexivity|].
  cbn [Nat.eqb]. rewrite Nat.sub_succ, Nat.sub_0_r. reflexivity.
Qed.

(** X11: the deltas of a chunk can be undone.  For the record [i + j] of a
    chunk, the sign fold is its own inverse and adding the value before it
    (the value of [last] at the start of the chunk for the first record)
    gives back the rotated word of the record, modulo 2^32. *)
Theorem ndz_deltas_roundtrip (vertices : list Z) (vertex_count vertex_size k i : nat)
    (last : Z) (j : nat) :
  j < Nat.min 32 (vertex_count - i) ->
  to_u32 (ndz_fold (rd (fst (ndz_deltas vertices vertex_count vertex_size k i last)) j)
          + (if j =? 0 then last else ndz_value vertices vertex_size k (i + (j - 1))))
  = ndz_value vertices vertex_size k (i + j).
Proof.
  intros Hj. rewrite ndz_deltas_spec. cbn [fst].
  rewrite rd_app, ndz_delta_list_length, ndz_values_length.
  destruct (Nat.ltb_spec j (Nat.min 32 (vertex_count - i))) as [_|?]; [|lia].
  rewrite ndz_delta_list_rd by (rewrite ndz_values_length; exact Hj).
  unfold ndz_values. rewrite rd_fmap_seq by exact Hj.
  destruct (Nat.eqb_spec j 0) as [->|Hne].
  - apply ndz_delta_roundtrip, ndz_value_range.
  - rewrite rd_fmap_seq by lia. apply ndz_delta_roundtrip, ndz_value_range.
Qed.

Lemma ndz_deltas_roundtrip_witness :
  to_u32 (ndz_fold (rd (fst (ndz_deltas ndz_vertices 1 12 0 0 0%Z)) 0) + 0)
  = ndz_value ndz_vertices 12 0 0.
Proof. apply (ndz_deltas_roundtrip ndz_vertices 1 12 0 0 0%Z 0). simpl. lia. Defined.

(** ** The stream of encodeNDZ determines the records *)

Lemma planes_prefix_unique (transposed transposed' : list Z) (rows : list nat) :
  forall (r r' : list Z),
    (forall j, (0 <= rd transposed j < 2 ^ 32)%Z) ->
    (forall j, (0 <= rd transposed' j < 2 ^ 32)%Z) ->
    concat (u32_bytes <$> (rd transposed <$> rows)) ++ r
    = concat (u32_bytes <$> (rd transposed' <$> rows)) ++ r' ->
    (forall j, j ∈ rows -> rd transposed j = rd transposed' j) /\ r = r'.
Proof.
  induction rows as [|j rows IH]; intros r r' Hr Hr' H.
  - split; [|exact H]. intros j Hj. by apply elem_of_nil in Hj.
  - rewrite !fmap_cons in H. cbn [concat] in H. rewrite <- !app_assoc in H.
    apply app_inj_1 in H as [Hj H]; [|reflexivity].
    apply u32_bytes_inj in Hj; [|apply Hr|apply Hr'].
    destruct (IH r r' Hr Hr' H) as [Hrows Heq]. split; [|exact Heq].
    intros i Hi. apply elem_of_cons in Hi as [->|Hi]; [exact Hj|apply Hrows; exact Hi].
Qed.

Lemma ndz_chunk_prefix_unique (transposed transposed' r r' : list Z) :
  length transposed = 32 -> length transposed' = 32 ->
  (forall j, (0 <= rd transposed j < 2 ^ 32)%Z) ->
  (forall j, (0 <= rd transposed' j < 2 ^ 32)%Z) ->
  ndz_chunk transposed ++ r = ndz_chunk transposed' ++ r' ->
  transposed = transposed' /\ r = r'.
Proof.
  intros Hlen Hlen' Hr Hr' H. rewrite !ndz_chunk_by_mask, <- !app_assoc in H.
  apply app_inj_1 in H as [Hmask H]; [|reflexivity].
  apply u32_bytes_inj in Hmask; [|apply ndz_mask_range..].
  rewrite <- Hmask in H.
  apply planes_prefix_unique in H as [Hrows Heq]; [|assumption..].
  split; [|exact Heq].
  apply (nth_ext _ _ 0%Z 0%Z); [congruence|]. intros j Hj. rewrite Hlen in Hj.
  change (rd transposed j = rd transposed' j).
  destruct (Z.testbit (ndz_mask transposed) (Z.of_nat j)) eqn:Hbit.
  - apply Hrows. apply list_elem_of_filter. split; [rewrite Hbit; exact I|].
    apply elem_of_seq. lia.
  - pose proof Hbit as Hbit'. rewrite Hmask in Hbit'.
    rewrite ndz_mask_bit_eq in Hbit, Hbit' by exact Hj.
    apply negb_false_iff, Z.eqb_eq in Hbit, Hbit'. congruence.
Qed.

Lemma ndz_transpose_inj (deltas deltas' : list Z) :
  length deltas = 32 -> Forall (fun d => (0 <= d < 2 ^ 32)%Z) deltas ->
  length deltas' = 32 -> Forall (fun d => (0 <= d < 2 ^ 32)%Z) deltas' ->
  ndz_transpose deltas = ndz_transpose deltas' -> deltas = deltas'.
Proof.
  intros Hlen Hr Hlen' Hr' H.
  rewrite <- (ndz_transpose_involutive_run deltas Hlen Hr).
  rewrite <- (ndz_transpose_involutive_run deltas' Hlen' Hr'). rewrite H. reflexivity.
Qed.

Lemma ndz_deltas_words (vertices : list Z) (vertex_count vertex_size k i : nat) (last : Z) :
  length (fst (ndz_deltas vertices vertex_count vertex_size k i last)) = 32
  /\ Forall (fun d => (0 <= d < 2 ^ 32)%Z)
       (fst (ndz_deltas vertices vertex_count vertex_size k i last)).
Proof.
  rewrite ndz_deltas_spec. cbn [fst]. split.
  - rewrite length_app, ndz_delta_list_length, ndz_values_length, length_replicate. lia.
  - apply Forall_app. split; [apply ndz_delta_list_range|].
    apply Forall_replicate. lia.
Qed.

Lemma ndz_chunks_prefix_unique (vertices vertices' : list Z) (vertex_count vertex_size k : nat)
    (idx : list nat) :
  forall (last : Z) (r r' : list Z),
    fst (ndz_chunks vertices vertex_count vertex_size k idx last) ++ r
    = fst (ndz_chunks vertices' vertex_count vertex_size k idx last) ++ r' ->
    (forall i j, i ∈ idx -> j < Nat.min 32 (vertex_count - i) ->
       ndz_value vertices vertex_size k (i + j) = ndz_value vertices' vertex_size k (i + j))
    /\ r = r'.
Proof.
  induction idx as [|i idx IH]; intros last r r' H.
  - split; [|exact H]. intros i j Hi. by apply elem_of_nil in Hi.
  - rewrite !ndz_chunks_cons in H. cbn [fst] in H. rewrite <- !app_assoc in H.
    destruct (ndz_deltas_words vertices vertex_count vertex_size k i last) as [Hlen Hr].
    destruct (ndz_deltas_words vertices' vertex_count vertex_size k i last) as [Hlen' Hr'].
    apply ndz_chunk_prefix_unique in H as [Ht H];
      [|apply ndz_transpose_length..|apply ndz_transpose_range|apply ndz_transpose_range].
    apply ndz_transpose_inj in Ht; [|assumption..].
    rewrite !ndz_deltas_spec in Ht, H. cbn [fst snd] in Ht, H.
    apply app_inj_1 in Ht as [Hd _];
      [|rewrite !ndz_delta_list_length, !ndz_values_length; reflexivity].
    apply ndz_delta_list_inj in Hd; [|apply ndz_values_range..].
    rewrite <- Hd in H. apply IH in H as [Hrest Heq]. split; [|exact Heq].
    intros i' j Hi Hj. apply elem_of_cons in Hi as [->|Hi]; [|apply Hrest; assumption].
    apply (f_equal (fun l => rd l j)) in Hd. unfold ndz_values in Hd.
    rewrite !rd_fmap_seq in Hd by exact Hj. exact Hd.
Qed.

Lemma ndz_channels_prefix_unique (vertices vertices' : list Z) (vertex_count vertex_size : nat)
    (channels : list nat) :
  forall (r r' : list Z),
    concat (ndz_channel vertices vertex_count vertex_size <$> channels) ++ r
    = concat (ndz_channel vertices' vertex_count vertex_size <$> channels) ++ r' ->
    (forall k i j, k ∈ channels -> i ∈ strided vertex_count 32 ->
       j < Nat.min 32 (vertex_count - i) ->
       ndz_value vertices vertex_size k (i + j) = ndz_value vertices' vertex_size k (i + j))
    /\ r = r'.
Proof.
  induction channels as [|k channels IH]; intros r r' H.
  - split; [|exact H]. intros k i j Hk. by apply elem_of_nil in Hk.
  - rewrite !fmap_cons in H. cbn [concat] in H. rewrite <- !app_assoc in H.
    unfold ndz_channel at 1 3 in H.
    apply ndz_chunks_prefix_unique in H as [Hk H].
    apply IH in H as [Hrest Heq]. split; [|exact Heq].
    intros k' i j Hk' Hi Hj. apply elem_of_cons in Hk' as [->|Hk'];
      [apply Hk; assumption|apply Hrest; assumption].
Qed.

Lemma strided_elem (n step i : nat) :
  0 < step -> i < n -> i / step * step ∈ strided n step.
Proof.
  intros Hstep Hi. unfold strided. apply (list_elem_of_fmap_2 (fun j => j * step)).
  apply elem_of_seq. split; [lia|]. rewrite Nat.add_0_l.
  apply Nat.Div0.div_lt_upper_bound.
  pose proof (Nat.div_mod_eq (n + step - 1) step) as Hdiv.
  pose proof (Nat.mod_upper_bound (n + step - 1) step ltac:(lia)) as Hmod.
  nia.
Qed.

Lemma ndz_stream_inj (vertices vertices' : list Z) (vertex_count vertex_size : nat) :
  0 < vertex_size -> vertex_size mod 4 = 0 ->
  Forall is_byte vertices -> Forall is_byte vertices' ->
  ndz_stream vertices vertex_count vertex_size = ndz_stream vertices' vertex_count vertex_size ->
  forall p, p < vertex_count * vertex_size -> rd vertices p = rd vertices' p.
Proof.
  intros Hvs Hmod4 Hb Hb' H p Hp. unfold ndz_stream in H.
  apply (f_equal (fun l => l ++ @nil Z)) in H.
  apply ndz_channels_prefix_unique in H as [H _].
  pose proof (Nat.div_mod_eq p vertex_size) as Hdiv.
  pose proof (Nat.mod_upper_bound p vertex_size ltac:(lia)) as Hmod.
  set (rr := p / vertex_size) in *. set (q := p mod vertex_size) in *.
  assert (Hrr : rr < vertex_count) by (apply Nat.Div0.div_lt_upper_bound; lia).
  pose proof (Nat.div_mod_eq q 4) as Hq. pose proof (Nat.mod_upper_bound q 4 ltac:(lia)) as Hq4.
  pose proof (Nat.div_mod_eq rr 32) as Hr. pose proof (Nat.mod_upper_bound rr 32 ltac:(lia)) as Hr32.
  specialize (H (q / 4 * 4) (rr / 32 * 32) (rr mod 32)
                (strided_elem vertex_size 4 q ltac:(lia) Hmod)
                (strided_elem vertex_count 32 rr ltac:(lia) Hrr) ltac:(lia)).
  replace (rr / 32 * 32 + rr mod 32) with rr in H by lia.
  unfold ndz_value in H. apply rotl_inj in H; [|apply load_u32_range; assumption..].
  pose proof (load_u32_inj vertices vertices' _ Hb Hb' H (q mod 4) Hq4) as Hbyte.
  replace (rr * vertex_size + q / 4 * 4 + q mod 4) with p in Hbyte by lia. exact Hbyte.
Qed.

(** X12: [encodeNDZ] loses nothing.  For records whose size is a multiple
    of 4 (every word that is read lies inside of the array), two arrays of
    [vertex_count] records for which [encodeNDZ] writes the same bytes, in
    buffers that hold them, are the same array. *)
Theorem encodeNDZ_injective (buffer_size buffer_size' : nat) (vertices vertices' : list Z)
    (vertex_count vertex_size : nat) (s s' t t' : store) (r r' : nat) :
  0 < vertex_size -> vertex_size mod 4 = 0 ->
  length vertices = vertex_count * vertex_size -> Forall is_byte vertices ->
  length vertices' = vertex_count * vertex_size -> Forall is_byte vertices' ->
  encodeNDZ buffer_size vertices vertex_count vertex_size s = (r, t) ->
  r <= length (mem s) ->
  encodeNDZ buffer_size' vertices' vertex_count vertex_size s' = (r', t') ->
  r' <= length (mem s') ->
  take r (mem t) = take r' (mem t') ->
  vertices = vertices'.
Proof.
  intros Hvs Hmod Hlen Hbytes Hlen' Hbytes' Hrun Hroom Hrun' Hroom' Heq.
  rewrite encodeNDZ_stream in Hrun, Hrun'.
  injection Hrun as <- <-. injection Hrun' as <- <-.
  pose proof (memcpy_written 0 _ s Hroom) as Hw.
  pose proof (memcpy_written 0 _ s' Hroom') as Hw'.
  rewrite Nat.add_0_l in Hw, Hw'. rewrite Hw, Hw' in Heq. cbn [take app] in Heq.
  apply (nth_ext _ _ 0%Z 0%Z); [congruence|]. intros p Hp. rewrite Hlen in Hp.
  apply (ndz_stream_inj vertices vertices' vertex_count vertex_size); assumption.
Qed.

Lemma encodeNDZ_injective_witness :
  exists r t r' t',
    encodeNDZ 140 ndz_vertices 1 12 (sample_store 140) = (r, t)
    /\ encodeNDZ 200 ndz_vertices 1 12 (Store (replicate 200 0%Z) []) = (r', t')
    /\ r = 140 /\ r' = 140 /\ take r (mem t) = take r' (mem t')
    /\ ndz_vertices = ndz_vertices.
Proof.
  eexists _, _, _, _.
  split; [vm_compute; reflexivity|]. split; [vm_compute; reflexivity|].
  split; [reflexivity|]. split; [reflexivity|]. split; [reflexivity|].
  eapply (encodeNDZ_injective 140 200 ndz_vertices ndz_vertices 1 12
            (sample_store 140) (Store (replicate 200 0%Z) []) _ _ 140 140);
    [lia|reflexivity|reflexivity|repeat constructor; unfold is_byte; lia
    |reflexivity|repeat constructor; unfold is_byte; lia
    |vm_compute; reflexivity|simpl; lia|vm_compute; reflexivity|simpl; lia|reflexivity].
Defined.

(** ** The bytes of encodeBytes delimit themselves *)

Lemma encodeBytes_written (data data_end n : nat) (buffer : list Z) (s : store)
    (next : nat) (s' : store) :
  data <= data_end -> data_end <= length (mem s) -> (Z.of_nat data_end < 2 ^ 64)%Z ->
  encodeBytes data data_end buffer (n * kByteGroupSize) s = (Some next, s') ->
  drop data (take next (mem s')) = channel_bytes buffer n.
Proof.
  intros Hle Hend H64 Hrun.
  destruct (encodeBytes_spec data data_end n buffer s Hle Hend H64)
    as (r & s0 & Hrun0 & _ & Hres).
  rewrite Hrun in Hrun0. injection Hrun0 as <- <-. destruct Hres as (_ & _ & Htake & _).
  rewrite Htake. apply drop_app_length'. rewrite length_take. lia.
Qed.

(** X13: the bytes that [encodeBytes] writes delimit themselves.  When the
    bytes written for two source arrays of [n] groups, each followed by any
    bytes, are the same, the two arrays hold the same [16 * n] bytes and the
    bytes that follow are the same: the headers give the widths and the
    widths give the length of every group, so that a reader needs no length
    of the channel. *)
Theorem encodeBytes_self_delimiting (data data_end data' data_end' n : nat)
    (buffer buffer' : list Z) (s s' t t' : store) (next next' : nat) (r r' : list Z) :
  data <= data_end -> data_end <= length (mem s) -> (Z.of_nat data_end < 2 ^ 64)%Z ->
  data' <= data_end' -> data_end' <= length (mem s') -> (Z.of_nat data_end' < 2 ^ 64)%Z ->
  (forall i, i < 16 * n -> is_byte (rd buffer i)) ->
  (forall i, i < 16 * n -> is_byte (rd buffer' i)) ->
  encodeBytes data data_end buffer (n * kByteGroupSize) s = (Some next, t) ->
  encodeBytes data' data_end' buffer' (n * kByteGroupSize) s' = (Some next', t') ->
  drop data (take next (mem t)) ++ r = drop data' (take next' (mem t')) ++ r' ->
  (forall i, i < 16 * n -> rd buffer i = rd buffer' i) /\ r = r'.
Proof.
  intros Hle Hend H64 Hle' Hend' H64' Hb Hb' Hrun Hrun' Heq.
  rewrite (encodeBytes_written data data_end n buffer s next t) in Heq by assumption.
  rewrite (encodeBytes_written data' data_end' n buffer' s' next' t') in Heq by assumption.
  apply channel_prefix_unique in Heq; assumption.
Qed.

Lemma encodeBytes_self_delimiting_witness :
  exists next t next' t',
    encodeBytes 0 64 sample_group 16 (sample_store 64) = (Some next, t)
    /\ encodeBytes 5 80 sample_group 16 (sample_store 100) = (Some next', t')
    /\ drop 0 (take next (mem t)) ++ [7]%Z = drop 5 (take next' (mem t')) ++ [7]%Z
    /\ [7]%Z = [7]%Z.
Proof.
  eexists _, _, _, _.
  split; [vm_compute; reflexivity|]. split; [vm_compute; reflexivity|].
  split; [reflexivity|].
  eapply (encodeBytes_self_delimiting 0 64 5 80 1 sample_group sample_group
            (sample_store 64) (sample_store 100) _ _ _ _ [7]%Z [7]%Z);
    [lia|simpl; lia|simpl; lia|lia|simpl; lia|simpl; lia
    |intros i _; apply rd_nonneg; repeat constructor; unfold is_byte; lia
    |intros i _; apply rd_nonneg; repeat constructor; unfold is_byte; lia
    |vm_compute; reflexivity|vm_compute; reflexivity|reflexivity].
Defined.

(** ** Width 1 in encodeBytes *)

Lemma group_bytes_agree (g g' : list Z) :
  (forall i, i < 16 -> rd g i = rd g' i) -> group_bytes g = group_bytes g'.
Proof.
  intros H. unfold group_bytes, best_bits_of. rewrite (best_of_agree g g' H).
  rewrite (group_payload_agree g g' _ H); [reflexivity|].
  apply (best_bits_trial g').
Qed.

Lemma zero_check (g : list Z) :
  encodeBytesGroupZero g = true <-> forall i, i < 16 -> rd g i = 0%Z.
Proof.
  unfold encodeBytesGroupZero, kByteGroupSize. rewrite forallb_forall. split.
  - intros H i Hi. apply Z.eqb_eq, H, in_seq. lia.
  - intros H i Hi. apply in_seq in Hi. apply Z.eqb_eq, H. lia.
Qed.

Lemma zero_group_width (g : list Z) :
  (forall i, i < 16 -> rd g i = 0%Z) -> best_bits_of g = 1 /\ group_bytes g = [].
Proof.
  intros H.
  assert (Hrd : forall i, i < 16 -> rd g i = rd (replicate 16 0%Z) i).
  { intros i Hi. rewrite H by exact Hi. symmetry. apply rd_replicate_0. }
  unfold best_bits_of. rewrite (best_of_agree _ _ Hrd), (group_bytes_agree _ _ Hrd).
  split; reflexivity.
Qed.

Lemma width_one_zero (g : list Z) :
  best_bits_of g = 1 -> forall i, i < 16 -> rd g i = 0%Z.
Proof.
  intros H1. destruct (best_bits_payload g) as (p & Hp & _). rewrite H1 in Hp.
  unfold group_payload in Hp. change (1 =? 1) with true in Hp. cbv iota in Hp.
  destruct (encodeBytesGroupZero g) eqn:Hz; [|discriminate].
  apply zero_check. exact Hz.
Qed.

Lemma Try_width_one (g : list Z) (d : nat) (t : store) :
  encodeBytesGroupTry d g 1 t = (if encodeBytesGroupZero g then Some d else None, t).
Proof. reflexivity. Qed.

(** C7: at width 1 [encodeBytesGroupTry] returns the cursor as it is, without
    a write, exactly when the 16 bytes of the group are zero, and the null
    pointer otherwise.  So in what [encodeBytes] writes the slot of every
    group of zeros holds the code of width 1 and the group has no payload; a
    group with a value other than zero never has width 1; and the width in
    the slot of a group is never one at which [encodeBytesGroupTry] returns
    the null pointer for the group (the group has no encoding there): at
    the width of the slot it returns the payload that is written. *)
Theorem width_one_iff_zero_group (data data_end n : nat) (buffer : list Z) (s : store) :
  data <= data_end -> data_end <= length (mem s) -> (Z.of_nat data_end < 2 ^ 64)%Z ->
  (forall group d t,
     length group = 16 ->
     (encodeBytesGroupTry d group 1 t = (Some d, t) <-> Forall (fun v => v = 0%Z) group)
     /\ (~ Forall (fun v => v = 0%Z) group -> encodeBytesGroupTry d group 1 t = (None, t)))
  /\ exists r s',
       encodeBytes data data_end buffer (n * kByteGroupSize) s = (r, s')
       /\ (data + (n + 3) / 4 + 16 * n + kByteGroupDecodeLimit <= data_end -> r <> None)
       /\ forall next, r = Some next ->
            exists (header : list Z) (width : nat -> nat) (payload : nat -> list Z),
              take next (mem s') = take data (mem s) ++ header ++ concat (payload <$> seq 0 n)
              /\ length header = (n + 3) / 4
              /\ forall j, j < n ->
                   let group := drop (j * 16) buffer in
                   header_slot header j = Z.log2 (Z.of_nat (width j))
                   /\ width j ∈ [1; 2; 4; 8]
                   /\ (forall d t,
                         encodeBytesGroupTry d group (width j) t
                         = (Some (d + length (payload j)), memcpy d (payload j) t))
                   /\ ((forall i, i < 16 -> rd group i = 0%Z) -> width j = 1 /\ payload j = [])
                   /\ ((exists i, i < 16 /\ rd group i <> 0%Z) -> width j <> 1)
                   /\ (forall b d t,
                         fst (encodeBytesGroupTry d group b t) = None -> width j <> b).
Proof.
  intros Hle Hend H64. split.
  { intros group d t Hlen. pose proof (zero_group_check group Hlen) as Hzero.
    rewrite Try_width_one. split.
    - rewrite <- Hzero. destruct (encodeBytesGroupZero group); split; congruence.
    - intros Hnz. destruct (encodeBytesGroupZero group); [|reflexivity].
      exfalso. apply Hnz, Hzero. reflexivity. }
  destruct (encodeBytes_spec data data_end n buffer s Hle Hend H64)
    as (r & s' & Hrun & _ & Hres).
  exists r, s'. split; [exact Hrun|]. split.
  { intros Hroom ->. pose proof (channel_bytes_bounds buffer n). lia. }
  intros next ->. destruct Hres as (_ & _ & Htake & _).
  exists (header_of ((n + 3) / 4) (codes_of buffer n)),
    (fun j => best_bits_of (group_at buffer j)),
    (fun j => group_bytes (group_at buffer j)).
  split; [exact Htake|]. split; [apply header_of_length|].
  intros j Hj group. change group with (group_at buffer j). clear group.
  destruct (best_bits_payload (group_at buffer j)) as (p & Hp & _ & Hbytes).
  assert (Htry : forall d t,
            encodeBytesGroupTry d (group_at buffer j) (best_bits_of (group_at buffer j)) t
            = (Some (d + length (group_bytes (group_at buffer j))),
               memcpy d (group_bytes (group_at buffer j)) t)).
  { intros d t. rewrite Try_payload, Hp, Hbytes. reflexivity. }
  split; [|split; [|split; [|split; [|split]]]].
  - pose proof (Nat.div_mod_eq (n + 3) 4) as Hdiv.
    pose proof (Nat.mod_upper_bound (n + 3) 4 ltac:(lia)) as Hmod.
    rewrite header_slot_of by (apply codes_of_code || (apply Nat.Div0.div_lt_upper_bound; lia)).
    rewrite rd_codes_of. apply Nat.ltb_lt in Hj. rewrite Hj.
    apply bitslog2_of_log2, best_bits_trial.
  - apply best_bits_trial.
  - exact Htry.
  - apply zero_group_width.
  - intros (i & Hi & Hnz) Hone. apply Hnz. apply (width_one_zero _ Hone). exact Hi.
  - intros b d t Hnull <-. rewrite Htry in Hnull. discriminate.
Qed.

Lemma width_one_iff_zero_group_witness :
  encodeBytesGroupTry 0 sample_group 1 (sample_store 24) = (None, sample_store 24)
  /\ exists r s',
       encodeBytes 0 64 (sample_group ++ replicate 16 0%Z) (2 * kByteGroupSize)
         (sample_store 64) = (r, s')
       /\ r <> None.
Proof.
  destruct (width_one_iff_zero_group 0 64 2 (sample_group ++ replicate 16 0%Z)
              (sample_store 64))
    as (Hone & r & s' & Hrun & Hroom & _); [lia|vm_compute; lia|simpl; lia|].
  split.
  - apply (Hone sample_group 0 (sample_store 24) eq_refl). unfold sample_group. intros H.
    apply Forall_cons in H as [_ H]. apply Forall_cons in H as [H _]. discriminate H.
  - exists r, s'. split; [exact Hrun|]. apply Hroom. vm_compute. lia.
Defined.

(** ** The cost of the groups of encodeBytes *)

Lemma concat_length_sum {A : Type} (f : A -> list Z) (l : list A) :
  length (concat (f <$> l)) = sum_list ((fun x => length (f x)) <$> l).
Proof.
  induction l as [|x l IH]; [reflexivity|].
  rewrite !fmap_cons. cbn [concat sum_list sum_list_with]. rewrite length_app, IH. reflexivity.
Qed.

Lemma rd_take (l : list Z) (n i : nat) : i < n -> rd (take n l) i = rd l i.
Proof. intros Hi. unfold rd. rewrite !nth_lookup, lookup_take_lt by exact Hi. reflexivity. Qed.

(** X3: what [encodeBytes] writes for a source array of [n] groups of bytes,
    when it has room: the header bytes and, for every group, as few bytes
    as any width allows.  A group of zeros takes no byte, any other group
    the least of 16 (width 8), 4 plus the number of its values from 3 on
    (width 2) and 8 plus the number of its values from 15 on (width 4);
    this is never more than 16 and never more than what
    [encodeBytesGroupTry] writes for the group at any width. *)
Theorem group_cost (data data_end n : nat) (buffer : list Z) (s : store) :
  length buffer = n * 16 -> Forall is_byte buffer ->
  data <= data_end -> data_end <= length (mem s) -> (Z.of_nat data_end < 2 ^ 64)%Z ->
  data + (n + 3) / 4 + 16 * n + kByteGroupDecodeLimit <= data_end ->
  let group j := take 16 (drop (j * 16) buffer) in
  let cost j :=
    if encodeBytesGroupZero (group j) then 0
    else Nat.min 16 (Nat.min (4 + length (filter (fun v => (3 <= v)%Z) (group j)))
                             (8 + length (filter (fun v => (15 <= v)%Z) (group j)))) in
  exists next s',
    encodeBytes data data_end buffer (n * kByteGroupSize) s = (Some next, s')
    /\ next = data + (n + 3) / 4 + sum_list (cost <$> seq 0 n)
    /\ (forall j, j < n ->
          cost j <= 16
          /\ forall b d t d' t',
               b ∈ [1; 2; 4; 8] ->
               encodeBytesGroupTry d (group j) b t = (Some d', t') -> d + cost j <= d').
Proof.
  intros Hlen Hbytes Hle Hend H64 Hroom group cost.
  destruct (encodeBytes_spec data data_end n buffer s Hle Hend H64)
    as (r & s' & Hrun & _ & Hres).
  destruct r as [next|]; [|pose proof (channel_bytes_bounds buffer n); lia].
  destruct Hres as (Hnext & _).
  assert (Hgroup : forall j, j < n ->
            length (group j) = 16 /\ Forall is_byte (group j)
            /\ group_bytes (group_at buffer j) = group_bytes (group j)).
  { intros j Hj. unfold group. split; [|split].
    - rewrite length_take, length_drop. lia.
    - apply Forall_take, Forall_drop, Hbytes.
    - apply group_bytes_agree. intros i Hi. unfold group_at, kByteGroupSize.
      rewrite rd_take by exact Hi. reflexivity. }
  assert (Hcost : forall j, j < n -> length (group_bytes (group_at buffer j)) = cost j).
  { intros j Hj. destruct (Hgroup j Hj) as (Hl & Hb & ->).
    apply (group_bytes_cost (group j) Hl Hb). }
  exists next, s'. split; [exact Hrun|]. split.
  - rewrite Hnext, channel_bytes_length. unfold payload_of. rewrite concat_length_sum.
    rewrite <- Nat.add_assoc. do 3 f_equal. apply list_fmap_ext. intros i j Hj.
    apply Hcost. apply lookup_seq in Hj. lia.
  - intros j Hj. destruct (Hgroup j Hj) as (Hl & Hb & Heq).
    destruct (group_bytes_cost (group j) Hl Hb) as (Hc & H16 & Hmin).
    fold (cost j) in Hc. rewrite Hc in H16, Hmin. split; [exact H16|].
    intros b d t d' t' Hwidth Htry. rewrite Try_payload in Htry.
    destruct (group_payload (group j) b) as [p|] eqn:Hp; [|discriminate].
    injection Htry as <- _. pose proof (Hmin b p Hwidth Hp). lia.
Qed.

Lemma group_cost_witness :
  exists s',
    encodeBytes 0 64 (sample_group ++ replicate 16 0%Z) (2 * kByteGroupSize) (sample_store 64)
    = (Some 6, s').
Proof.
  pose proof (group_cost 0 64 2 (sample_group ++ replicate 16 0%Z) (sample_store 64)) as H.
  cbv zeta in H.
  destruct H as (next & s' & Hrun & Hnext & _);
    [reflexivity|unfold sample_group, is_byte; repeat constructor; lia
    |lia|vm_compute; lia|simpl; lia|vm_compute; lia|].
  vm_compute in Hnext. subst next. exists s'. exact Hrun.
Defined.
